(** * crawler-video-converter: a shallow embedding of the three programs

    The repository holds three versions of the same batch transcoder:

    - [Seq]  : [src/main.go], first program (lines 1-434).  Files are
               processed one after the other; the number of ffmpeg threads
               comes from a flag; incomplete markers are written.
    - [Sup]  : [src/main.go], second program (lines 435-960).  A worker pool
               of [MAX_WORKERS] goroutines, a process registry keyed by pid,
               incomplete markers and an integrity check of the output.
    - [Pool] : [src/unnamed/part_001].  A worker pool without cancellation
               and without markers; ffmpeg is told to write to a [.tmp] path.

    Paths are lists of components ([filepath.Join d n] is [d ++ [n]],
    [filepath.Base] is the last component, [filepath.Dir] the others);
    string operations that the code applies to a whole path are applied to
    the rendered path.  The external transcoder and the operating system are
    described by an explicit environment record chosen per task.  The
    goroutines of the worker pools are interleaved by an explicit schedule;
    a task can be overtaken where [processFile] blocks, that is while its
    ffmpeg runs. *)

From stdpp Require Import gmap strings list.
From Stdlib Require Import ZArith Lia Ascii.

Set Default Proof Using "Type".

(** ** Go strings and file paths *)

Module GoStrings.

(** [strings.ToLower] on a string of ASCII bytes, which Go lowers byte by
    byte ([c += 'a' - 'A'] for ['A' <= c <= 'Z']).  A string with a byte
    of [utf8.RuneSelf] or more is mapped by Go through [unicode.ToLower],
    rune by rune; that branch is not modelled, and what is stated of
    [ToLower] for every string holds of the program for the strings that
    [isASCII] accepts. *)
Definition lower_ascii (c : ascii) : ascii :=
  let n := Ascii.N_of_ascii c in
  if ((65 <=? n) && (n <=? 90))%N then Ascii.ascii_of_N (n + 32) else c.

Fixpoint ToLower (s : string) : string :=
  match s with
  | EmptyString => EmptyString
  | String c r => String (lower_ascii c) (ToLower r)
  end.


(** [strings.HasSuffix s suffix]:
    [len(s) >= len(suffix) && s[len(s)-len(suffix):] == suffix]. *)
Definition HasSuffix (s suffix : string) : bool :=
  let n := String.length s in
  let k := String.length suffix in
  (k <=? n)%nat && String.eqb (String.substring (n - k) k s) suffix.

(** [strings.TrimSuffix]. *)
Definition TrimSuffix (s suffix : string) : string :=
  if HasSuffix s suffix
  then String.substring 0 (String.length s - String.length suffix) s
  else s.

(** [strings.Split s sep] for a one-character separator. *)
Fixpoint Split (s : string) (sep : ascii) : list string :=
  match s with
  | EmptyString => [EmptyString]
  | String c r =>
      if Ascii.eqb c sep then EmptyString :: Split r sep
      else match Split r sep with
           | [] => [String c EmptyString]
           | w :: ws => String c w :: ws
           end
  end.

End GoStrings.

Module FilePath.

Definition path := list string.

Definition Join (dir : path) (name : string) : path := dir ++ [name].
Definition Dir (p : path) : path := removelast p.
Definition Base (p : path) : string := List.last p EmptyString.

(** The path as the string the Go program holds. *)
Definition render (p : path) : string := String.concat "/" p.

(** [p + suffix] on the rendered path: the suffix lands on the last
    component. *)
Definition add_suffix (p : path) (suffix : string) : path :=
  Join (Dir p) (Base p +:+ suffix).

(** Scan of [filepath.Ext]: from the end of the string towards its start,
    stop at the first dot (the extension starts there) or at a path
    separator (no extension).  [None]: neither was met. *)
Fixpoint ext_scan (s : string) : option string :=
  match s with
  | EmptyString => None
  | String c r =>
      match ext_scan r with
      | Some e => Some e
      | None =>
          if Ascii.eqb c "."%char then Some (String c r)
          else if Ascii.eqb c "/"%char then Some EmptyString
          else None
      end
  end.

Definition Ext (s : string) : string := default EmptyString (ext_scan s).

End FilePath.

(** ** Machine integers and the thread budget *)

Module GoInt.
Local Open Scope Z_scope.

Definition min_int : Z := - 2 ^ 63.
Definition max_int : Z := 2 ^ 63 - 1.

(** Two's complement wrap-around of a 64-bit [int]. *)
Definition wrap (z : Z) : Z := (z + 2 ^ 63) mod 2 ^ 64 - 2 ^ 63.

Definition mul (a b : Z) : Z := wrap (a * b).
(** Go's integer division truncates towards zero. *)
Definition div (a b : Z) : Z := wrap (Z.quot a b).

End GoInt.

Module ThreadBudget.
Local Open Scope Z_scope.

Section Budget.
(** The two constants of the [const] block; the programs fix them to
    50 and 2. *)
Variables TARGET_CPU_PERCENT MAX_WORKERS : Z.

Definition calculateThreadsPerWorker (numCPU : Z) : Z :=
  let totalThreads := GoInt.div (GoInt.mul TARGET_CPU_PERCENT numCPU) 100 in
  let totalThreads := if totalThreads <? 1 then 1 else totalThreads in
  let threadsPerWorker := GoInt.div totalThreads MAX_WORKERS in
  if threadsPerWorker <? 1 then 1 else threadsPerWorker.
End Budget.

End ThreadBudget.

(** ** The file system: a tree for [filepath.Walk], a finite map for the
    calls on single paths *)

Module FS.
Import FilePath.

(** A directory entry.  [Broken] is an entry on which [os.Lstat] fails;
    a directory with [readable = false] is one whose listing fails. *)
#[warning="-register-all"]
Inductive node : Type :=
| File (name : string) (size : Z)
| Folder (name : string) (readable : bool) (children : list node)
| Broken (name : string).

Definition node_name (n : node) : string :=
  match n with
  | File name _ | Folder name _ _ | Broken name => name
  end.

Definition node_is_dir (n : node) : bool :=
  match n with Folder _ _ _ => true | _ => false end.

Inductive entry : Type :=
| EFile (size : Z)
| EDir.

#[global] Instance entry_eq_dec : EqDecision entry.
Proof. solve_decision. Defined.

(** What [os.Stat] sees: the entries of the tree, by path. *)
Fixpoint flatten (p : path) (n : node) (m : gmap path entry) : gmap path entry :=
  match n with
  | File _ size => <[p := EFile size]> m
  | Broken _ => m
  | Folder _ _ children =>
      (fix each (cs : list node) (m : gmap path entry) : gmap path entry :=
         match cs with
         | [] => m
         | c :: cs' => each cs' (flatten (Join p (node_name c)) c m)
         end) children (<[p := EDir]> m)
  end.

(** [os.Stat(p)] returns [err == nil]. *)
Definition exists_at (m : gmap path entry) (p : path) : bool :=
  match m !! p with Some _ => true | None => false end.

(** [os.MkdirAll] of a path whose parent is a directory, as the directory
    of a source that was found is: nothing to do on a directory, an error
    on a file; otherwise the one directory is made, if the operating system
    lets it be ([ok]).  (Were the parent missing, [os.MkdirAll] would make
    it too: a case that is left out, [Effects.housed] saying that the
    parent is there.) *)
Definition MkdirAll (ok : bool) (p : path) (m : gmap path entry)
  : option (gmap path entry) :=
  match m !! p with
  | Some EDir => Some m
  | Some (EFile _) => None
  | None => if ok then Some (<[p := EDir]> m) else None
  end.

(** Nothing lies below [p]. *)
Definition empty_dir (p : path) (m : gmap path entry) : bool :=
  bool_decide (map_Forall (λ q _, ¬ (p `prefix_of` q ∧ q ≠ p)) m).

(** [os.Remove]: a file is removed, and so is a directory that is empty;
    the error is dropped, as the callers do. *)
Definition Remove (p : path) (m : gmap path entry) : gmap path entry :=
  match m !! p with
  | Some (EFile _) => delete p m
  | Some EDir => if empty_dir p m then delete p m else m
  | None => m
  end.

End FS.

(** ** [filepath.Walk] *)

Module Walker.
Import FilePath FS.

Inductive error : Type :=
| ErrLstat (p : path)
| ErrReadDir (p : path).

Record FileInfo : Type := { Name : string; IsDir : bool; Size : Z }.

Definition info_of (n : node) : FileInfo :=
  match n with
  | File name size => {| Name := name; IsDir := false; Size := size |}
  | Folder name _ _ => {| Name := name; IsDir := true; Size := 0 |}
  | Broken name => {| Name := name; IsDir := false; Size := 0 |}
  end.

(** What a [WalkFunc] returns: [nil], [filepath.SkipDir] or an error. *)
Inductive verdict : Type :=
| Continue
| SkipDir
| Abort (e : error).

Section Walk.
Context {S : Type}.
(** The callback [fn(path, info, err)], threading the variables it
    captures.  [info] is absent exactly when [Lstat] failed. *)
Variable fn : path → option FileInfo → option error → S → S * verdict.

(** [walk(path, info, walkFn)] of package [path/filepath]. *)
Fixpoint walk (p : path) (n : node) (s : S) : S * verdict :=
  match n with
  | File _ _ => fn p (Some (info_of n)) None s
  | Broken _ => fn p None (Some (ErrLstat p)) s
  | Folder _ readable children =>
      let err := if readable then None else Some (ErrReadDir p) in
      let '(s1, err1) := fn p (Some (info_of n)) err s in
      match err, err1 with
      | None, Continue =>
          (fix each (cs : list node) (s : S) : S * verdict :=
             match cs with
             | [] => (s, Continue)
             | c :: cs' =>
                 let filename := Join p (node_name c) in
                 match c with
                 | Broken _ =>
                     let '(s', r) := fn filename None (Some (ErrLstat filename)) s in
                     match r with
                     | Abort e => (s', Abort e)
                     | _ => each cs' s'
                     end
                 | _ =>
                     let '(s', r) := walk filename c s in
                     match r with
                     | Continue => each cs' s'
                     | SkipDir => if node_is_dir c then each cs' s' else (s', SkipDir)
                     | Abort e => (s', Abort e)
                     end
                 end
             end) children s1
      | _, _ => (s1, err1)
      end
  end.

(** [filepath.Walk(root, fn)]; [dir] is the directory that holds the
    root.  The result is the error returned, if any. *)
Definition Walk (dir : path) (root : node) (s : S) : S * option error :=
  let '(s', r) := walk (Join dir (node_name root)) root s in
  (s', match r with Abort e => Some e | _ => None end).
End Walk.

End Walker.

(** ** What the three programs share *)

Module Common.
Import FilePath.

Record VideoFile : Type := {
  sourcePath : path;
  sourceDir : path;
  fileName : string
}.

#[global] Instance VideoFile_eq_dec : EqDecision VideoFile.
Proof. solve_decision. Defined.

(** The return codes of [processFile]. *)
Inductive Outcome : Type := Succeeded | Skipped | Failed | Canceled.

Definition outcome_of (result : Z) : option Outcome :=
  if decide (result = 0%Z) then Some Succeeded
  else if decide (result = 1%Z) then Some Skipped
  else if decide (result = 2%Z) then Some Failed
  else if decide (result = 3%Z) then Some Canceled
  else None.

(** [select] between [ctx.Done()] and the exit of the process. *)
Inductive Completion : Type :=
| CancelFirst (exits_in_grace : bool)
| ExitFirst (exit_ok : bool) (canceled_by_then : bool).

(** What the operating system and ffmpeg do during one task. *)
Record Env : Type := {
  stat_source_ok : bool;    (* os.Stat(file.sourcePath) *)
  mkdir_ok : bool;          (* os.MkdirAll, when the directory is missing *)
  marker_ok : bool;         (* os.WriteFile(incompleteMarker, ...) *)
  stamp_size : Z;           (* len(time.Now().String()) *)
  start_ok : bool;          (* cmd.Start() *)
  pid : Z;                  (* cmd.Process.Pid *)
  produced : option Z;      (* size of what ffmpeg left at its output argument *)
  completion : Completion
}.

(** The shared state: the disk, [pm.processes], [pm.ctx]. *)
Record World : Type := {
  disk : gmap path FS.entry;
  processes : gset Z;
  canceled : bool
}.

Definition set_disk (d : gmap path FS.entry) (w : World) : World :=
  {| disk := d; processes := processes w; canceled := canceled w |}.
Definition set_processes (ps : gset Z) (w : World) : World :=
  {| disk := disk w; processes := ps; canceled := canceled w |}.
(** [pm.cancel()]: the context is canceled once and for all. *)
Definition cancel (w : World) : World :=
  {| disk := disk w; processes := processes w; canceled := true |}.
Definition on_disk (f : gmap path FS.entry → gmap path FS.entry) (w : World)
  : World := set_disk (f (disk w)) w.
(** [pm.RegisterProcess] and [pm.UnregisterProcess]; the key stands for
    the [*exec.Cmd] of the first program and for the pid of the second. *)
Definition register (pid : Z) (w : World) : World :=
  set_processes ({[pid]} ∪ processes w) w.
Definition unregister (pid : Z) (w : World) : World :=
  set_processes (processes w ∖ {[pid]}) w.

(** What a task does to the outside, in order. *)
Inductive Event : Type :=
| EvMkdirAll (p : path)
| EvWriteMarker (p : path)
| EvStart (output : path) (threads : Z)
| EvStartFailed
| EvRegister (pid : Z)
| EvUnregister (pid : Z)
| EvInterrupt (pid : Z)
| EvGrace (seconds : Z)
| EvKill (pid : Z)
| EvRemove (p : path)
| EvChtimes (p : path)
| EvCheck (p : path) (passed : bool)
| EvSkip.

#[global] Instance Event_eq_dec : EqDecision Event.
Proof. solve_decision. Defined.

(** ffmpeg writing (part of) its output. *)
Definition transcode (output : path) (env : Env) (d : gmap path FS.entry)
  : gmap path FS.entry :=
  match produced env with
  | Some size => <[output := FS.EFile size]> d
  | None => d
  end.

Local Open Scope Z_scope.

Record Counts : Type := {
  successCount : Z;
  skipCount : Z;
  errorCount : Z;
  canceledCount : Z
}.

Definition zero : Counts :=
  {| successCount := 0; skipCount := 0; errorCount := 0; canceledCount := 0 |}.

(** The [switch result] of [processFiles]. *)
Definition tally (result : Z) (c : Counts) : Counts :=
  if decide (result = 0) then
    {| successCount := successCount c + 1; skipCount := skipCount c;
       errorCount := errorCount c; canceledCount := canceledCount c |}
  else if decide (result = 1) then
    {| successCount := successCount c; skipCount := skipCount c + 1;
       errorCount := errorCount c; canceledCount := canceledCount c |}
  else if decide (result = 2) then
    {| successCount := successCount c; skipCount := skipCount c;
       errorCount := errorCount c + 1; canceledCount := canceledCount c |}
  else if decide (result = 3) then
    {| successCount := successCount c; skipCount := skipCount c;
       errorCount := errorCount c; canceledCount := canceledCount c + 1 |}
  else c.

(** [canceledCount = len(files) - successCount - skipCount - errorCount]. *)
Definition rest_canceled (total : Z) (c : Counts) : Counts :=
  {| successCount := successCount c; skipCount := skipCount c;
     errorCount := errorCount c;
     canceledCount := total - successCount c - skipCount c - errorCount c |}.

Definition total (c : Counts) : Z :=
  successCount c + skipCount c + errorCount c + canceledCount c.

(** The three parts of what [processFile] returns. *)
Definition code {W : Type} (r : Z * W * list Event) : Z := fst (fst r).
Definition after {W : Type} (r : Z * W * list Event) : W := snd (fst r).
Definition events {W : Type} (r : Z * W * list Event) : list Event := snd r.

(** The output name of [processFile]:
    [strings.TrimSuffix(file.fileName, filepath.Ext(file.fileName)) + ext]
    inside [filepath.Join(file.sourceDir, dirname)]. *)
Definition output_path (dirname ext : string) (file : VideoFile) : path :=
  let convertedDir := Join (sourceDir file) dirname in
  let nameWithoutExt := GoStrings.TrimSuffix (fileName file) (Ext (fileName file)) in
  let outputFileName := nameWithoutExt +:+ ext in
  Join convertedDir outputFileName.

End Common.

(** ** The sequential program ([src/main.go], first program) *)

Module Seq.
Import FilePath FS Walker Common.
Local Open Scope Z_scope.

Definition sourceExtensions : string := ".mov".
Definition outputExtension : string := ".mkv".
Definition convertedDir : string := "converted".
Definition niceLevel : Z := 10.
Definition defaultThreads : Z := 2.

(** The [for _, allowedExt := range extensions] loop of [findVideoFiles]. *)
Definition allowed (p : path) : bool :=
  let ext := GoStrings.ToLower (Ext (render p)) in
  existsb (fun allowedExt => String.eqb ext (GoStrings.ToLower allowedExt))
          (GoStrings.Split sourceExtensions ","%char).

Definition visit (p : path) (info : option FileInfo) (err : option error)
    (files : list VideoFile) : list VideoFile * verdict :=
  match err, info with
  | Some e, _ => (files, Abort e)
  | None, None => (files, Continue)
  | None, Some info =>
      if IsDir info then (files, Continue)
      else if allowed p
           then (files ++ [{| sourcePath := p; sourceDir := Dir p; fileName := Base p |}],
                 Continue)
           else (files, Continue)
  end.

Definition findVideoFiles (dir : path) (root : node)
  : list VideoFile * option error :=
  Walk visit dir root [].

Definition cleanup (outputPath incompleteMarker : path) (d : gmap path entry)
  : gmap path entry :=
  Remove incompleteMarker (Remove outputPath d).

(** [processFile(file, pm, threads)]: the return code, the state it
    leaves and what it did, in order. *)
Definition processFile (file : VideoFile) (threads : Z) (env : Env) (w : World)
  : Z * World * list Event :=
  if canceled w then (3, w, [])
  else if negb (stat_source_ok env) then (2, w, [])
  else
    let convertedDir := Join (sourceDir file) convertedDir in
    match MkdirAll (mkdir_ok env) convertedDir (disk w) with
    | None => (2, w, [EvMkdirAll convertedDir])
    | Some d1 =>
        let w1 := set_disk d1 w in
        let outputPath := output_path Seq.convertedDir outputExtension file in
        if exists_at d1 outputPath
        then (1, w1, [EvMkdirAll convertedDir; EvSkip])
        else
          let incompleteMarker := add_suffix outputPath ".incomplete" in
          if negb (marker_ok env)
          then (2, w1, [EvMkdirAll convertedDir])
          else
            let w2 := on_disk <[incompleteMarker := EFile (stamp_size env)]> w1 in
            let before := [EvMkdirAll convertedDir; EvWriteMarker incompleteMarker] in
            let wipe := [EvRemove outputPath; EvRemove incompleteMarker] in
            if negb (start_ok env)
            then (2, on_disk (cleanup outputPath incompleteMarker) w2,
                  before ++ EvStartFailed :: wipe)
            else
              let w3 := register (pid env) (on_disk (transcode outputPath env) w2) in
              let started := before ++ [EvStart outputPath threads; EvRegister (pid env)] in
              match completion env with
              | CancelFirst exits_in_grace =>
                  let kill := if exits_in_grace then [] else [EvKill (pid env)] in
                  (3,
                   unregister (pid env)
                     (on_disk (cleanup outputPath incompleteMarker) (cancel w3)),
                   started ++ [EvInterrupt (pid env); EvGrace 5] ++ kill
                           ++ wipe ++ [EvUnregister (pid env)])
              | ExitFirst exit_ok canceled_by_then =>
                  let w4 := unregister (pid env)
                              (if canceled_by_then then cancel w3 else w3) in
                  if negb exit_ok
                  then (2, on_disk (cleanup outputPath incompleteMarker) w4,
                        started ++ EvUnregister (pid env) :: wipe)
                  else (0, on_disk (Remove incompleteMarker) w4,
                        started ++ [EvUnregister (pid env);
                                    EvRemove incompleteMarker;
                                    EvChtimes outputPath])
              end
    end.

(** When the interrupt arrives, relative to the loop of [processFiles]. *)
Inductive Arrival : Type :=
| NoSignal
| BeforeLoopCheck     (* before [pm.ctx.Err() != nil] at the top of the loop *)
| BeforeTask.         (* after it, before [processFile] looks at the context *)

Record Job : Type := { file : VideoFile; env : Env; arrival : Arrival }.

Record Run : Type := {
  counts : Counts;
  results : list Z;          (* the return code of each call of processFile *)
  final : World;
  trace : list Event
}.

(** The [for _, file := range files] loop of [processFiles]. *)
Fixpoint loop (len_files : Z) (threads : Z) (jobs : list Job)
    (c : Counts) (w : World) : Run :=
  match jobs with
  | [] => {| counts := c; results := []; final := w; trace := [] |}
  | job :: jobs' =>
      let w := match arrival job with BeforeLoopCheck => cancel w | _ => w end in
      if canceled w
      then {| counts := rest_canceled len_files c; results := [];
              final := w; trace := [] |}
      else
        let w := match arrival job with BeforeTask => cancel w | _ => w end in
        let '(result, w', evs) := processFile (file job) threads (env job) w in
        let r := loop len_files threads jobs' (tally result c) w' in
        {| counts := counts r; results := result :: results r;
           final := final r; trace := evs ++ trace r |}
  end.

Definition processFiles (jobs : list Job) (threads : Z) (w : World) : Run :=
  loop (Z.of_nat (length jobs)) threads jobs zero w.

(** [cleanupIncompleteFiles(rootPath)]; no function of the program calls
    it. *)
Definition sweep (p : path) (info : option FileInfo) (err : option error)
    (d : gmap path entry) : gmap path entry * verdict :=
  match err, info with
  | Some _, _ => (d, Continue)
  | None, None => (d, Continue)
  | None, Some info =>
      if negb (IsDir info) && GoStrings.HasSuffix (render p) ".incomplete"
      then (Remove p d, Continue)
      else (d, Continue)
  end.

Definition cleanupIncompleteFiles (dir : path) (root : node)
    (d : gmap path entry) : gmap path entry :=
  fst (Walk sweep dir root d).

(** [main], from the search of the files on: [None] is [log.Fatalf].  With
    no file [main] returns before [processFiles]; here [processFiles] runs
    on the empty list and does nothing. *)
Definition main (dir : path) (root : node) (threads : Z)
    (plan : VideoFile → Env * Arrival) : option Run :=
  match findVideoFiles dir root with
  | (_, Some _) => None
  | (files, None) =>
      let jobs := map (fun f => {| file := f; env := fst (plan f);
                                   arrival := snd (plan f) |}) files in
      let w := {| disk := flatten (Join dir (node_name root)) root ∅;
                  processes := ∅; canceled := false |} in
      Some (processFiles jobs threads w)
  end.

End Seq.

(** ** [findVideoFiles] of the two worker-pool programs

    The second program of [src/main.go] and [src/unnamed/part_001] have the
    same function, up to the constant [SOURCE_EXTENSIONS]. *)

Module Pruning.
Import FilePath FS Walker Common.

Definition CONVERTED_DIR : string := "converted".

(** The variables the callback captures: [files], and the lines written
    by [log.Printf]. *)
Record Found : Type := { files : list VideoFile; warnings : list path }.

Section Extensions.
Variable SOURCE_EXTENSIONS : string.

(** The [for _, ext := range extensions] loop. *)
Definition allowed (p : path) : bool :=
  existsb (fun ext => GoStrings.HasSuffix (GoStrings.ToLower (render p))
                                          (GoStrings.ToLower ext))
          (GoStrings.Split SOURCE_EXTENSIONS ","%char).

Definition visit (p : path) (info : option FileInfo) (err : option error)
    (s : Found) : Found * verdict :=
  match err, info with
  | Some _, _ =>
      ({| files := files s; warnings := warnings s ++ [p] |}, Continue)
  | None, None => (s, Continue)
  | None, Some info =>
      if IsDir info
      then if String.eqb (Name info) CONVERTED_DIR
           then (s, SkipDir) else (s, Continue)
      else if allowed p
           then ({| files := files s ++ [{| sourcePath := p; sourceDir := Dir p;
                                            fileName := Base p |}];
                    warnings := warnings s |}, Continue)
           else (s, Continue)
  end.

Definition search (dir : path) (root : node) : Found * option error :=
  Walk visit dir root {| files := []; warnings := [] |}.

Definition findVideoFiles (dir : path) (root : node)
  : list VideoFile * option error :=
  (files (fst (search dir root)), snd (search dir root)).
End Extensions.

End Pruning.

(** ** The supervised worker pool ([src/main.go], second program) *)

Module Sup.
Import FilePath FS Walker Common.
Local Open Scope Z_scope.

Definition SOURCE_EXTENSIONS : string := ".MOV,.mov".
Definition OUTPUT_EXTENSION : string := ".mkv".
Definition CONVERTED_DIR : string := Pruning.CONVERTED_DIR.
Definition TARGET_CPU_PERCENT : Z := 50.
Definition MAX_WORKERS : Z := 2.
Definition NICE_LEVEL : Z := 19.

Definition calculateThreadsPerWorker (numCPU : Z) : Z :=
  ThreadBudget.calculateThreadsPerWorker TARGET_CPU_PERCENT MAX_WORKERS numCPU.

Definition findVideoFiles (dir : path) (root : node)
  : list VideoFile * option error :=
  Pruning.findVideoFiles SOURCE_EXTENSIONS dir root.

Definition cleanup (outputPath incompleteMarker : path) (d : gmap path entry)
  : gmap path entry :=
  Remove incompleteMarker (Remove outputPath d).

(** [if info, err := os.Stat(outputPath); err != nil || info.Size() == 0]:
    [true] when the output passes.  (A directory has a size of its own; the
    case does not arise, the path being free when ffmpeg is started.) *)
Definition intact (d : gmap path entry) (outputPath : path) : bool :=
  match d !! outputPath with
  | None => false
  | Some (EFile size) => negb (size =? 0)
  | Some EDir => true
  end.

(** Where [processFile] stands when it returns or blocks. *)
Inductive Stage : Type :=
| Over (result : Z) (w : World) (evs : list Event)   (* it has returned *)
| Waiting (w : World) (evs : list Event).            (* at the [select] *)

(** [processFile(file, pm, threadsPerWorker)] up to its [select]. *)
Definition launch (file : VideoFile) (threadsPerWorker : Z) (env : Env)
    (w : World) : Stage :=
  if canceled w then Over 3 w []
  else
    let convertedDir := Join (sourceDir file) CONVERTED_DIR in
    match MkdirAll (mkdir_ok env) convertedDir (disk w) with
    | None => Over 2 w [EvMkdirAll convertedDir]
    | Some d1 =>
        let w1 := set_disk d1 w in
        let outputPath := output_path CONVERTED_DIR OUTPUT_EXTENSION file in
        if exists_at d1 outputPath
        then Over 1 w1 [EvMkdirAll convertedDir; EvSkip]
        else
          let incompleteMarker := add_suffix outputPath ".incomplete" in
          if negb (marker_ok env)
          then Over 2 w1 [EvMkdirAll convertedDir]
          else
            let w2 := on_disk <[incompleteMarker := EFile (stamp_size env)]> w1 in
            let before := [EvMkdirAll convertedDir; EvWriteMarker incompleteMarker] in
            let wipe := [EvRemove outputPath; EvRemove incompleteMarker] in
            if negb (start_ok env)
            then Over 2 (on_disk (cleanup outputPath incompleteMarker) w2)
                        (before ++ EvStartFailed :: wipe)
            else
              Waiting (register (pid env) w2)
                      (before ++ [EvStart outputPath threadsPerWorker;
                                  EvRegister (pid env)])
  end.

(** The [select] of [processFile] and what follows it; [w] is the state
    when the [select] fires, ffmpeg having written what it writes. *)
Definition settle (file : VideoFile) (env : Env) (w : World)
    (started : list Event) : Z * World * list Event :=
  let outputPath := output_path CONVERTED_DIR OUTPUT_EXTENSION file in
  let incompleteMarker := add_suffix outputPath ".incomplete" in
  let wipe := [EvRemove outputPath; EvRemove incompleteMarker] in
  let w3 := on_disk (transcode outputPath env) w in
  match completion env with
  | CancelFirst _ =>
      (3,
       on_disk (cleanup outputPath incompleteMarker)
         (unregister (pid env) (cancel w3)),
       started ++ [EvKill (pid env); EvUnregister (pid env)] ++ wipe)
  | ExitFirst exit_ok canceled_by_then =>
      let w4 := unregister (pid env)
                  (if canceled_by_then then cancel w3 else w3) in
      if negb exit_ok
      then
        (if canceled w4 then 3 else 2,
         on_disk (cleanup outputPath incompleteMarker) w4,
         started ++ EvUnregister (pid env) :: wipe)
      else
        let passed := intact (disk w4) outputPath in
        let checked :=
          started ++ [EvUnregister (pid env); EvCheck outputPath passed] in
        if passed
        then (0, on_disk (Remove incompleteMarker) w4,
              checked ++ [EvRemove incompleteMarker])
        else (2, on_disk (cleanup outputPath incompleteMarker) w4,
              checked ++ wipe)
  end.

(** [processFile(file, pm, threadsPerWorker)], from its call to its
    return. *)
Definition processFile (file : VideoFile) (threadsPerWorker : Z) (env : Env)
    (w : World) : Z * World * list Event :=
  match launch file threadsPerWorker env w with
  | Over result w' evs => (result, w', evs)
  | Waiting w' started => settle file env w' started
  end.

Record Job : Type := { file : VideoFile; env : Env }.

(** A goroutine started by [processFiles]: before [processFile] looks at
    the context, or at the [select] with its ffmpeg alive. *)
Inductive Goroutine : Type :=
| Fresh (job : Job)
| Busy (job : Job) (started : list Event).

(** [processFiles] at some point of its execution. *)
Record Sched : Type := {
  queue : list Job;           (* the files the [for] loop has not reached *)
  sending : option Job;       (* the loop is at [semaphore <- struct{}{}] *)
  semaphore : nat;            (* elements in the channel *)
  running : list Goroutine;   (* goroutines started and not returned *)
  counts : Counts;
  world : World
}.

Definition start (jobs : list Job) (w : World) : Sched :=
  {| queue := jobs; sending := None; semaphore := 0; running := [];
     counts := zero; world := w |}.

(** The ffmpeg processes alive. *)
Fixpoint alive (gs : list Goroutine) : nat :=
  match gs with
  | [] => 0%nat
  | Fresh _ :: gs' => alive gs'
  | Busy _ _ :: gs' => S (alive gs')
  end.

(** What happens next, among the main loop, the goroutines and the signal
    handler. *)
Inductive Move : Type :=
| Interrupt              (* the signal handler runs [pm.cancel()] *)
| Select                 (* the [select] at the top of the loop, [wg.Add(1)] *)
| Acquire                (* [semaphore <- struct{}{}] and [go func] *)
| Launch (i : nat)       (* goroutine [i] runs [processFile] up to its [select] *)
| Settle (i : nat)       (* the [select] of goroutine [i] fires, it returns *)
| Panic (i : nat).       (* goroutine [i] panics and recovers *)

Definition bump_error (c : Counts) : Counts :=
  {| successCount := successCount c; skipCount := skipCount c;
     errorCount := errorCount c + 1; canceledCount := canceledCount c |}.

(** The deferred calls of a goroutine that returns [result]: the counter,
    then [<-semaphore]. *)
Definition leave (i : nat) (c : Counts) (w : World) (s : Sched) : option Sched :=
  match semaphore s with
  | S n =>
      Some {| queue := queue s; sending := sending s; semaphore := n;
              running := delete i (running s); counts := c; world := w |}
  | O => None
  end.

(** One move; [None] when the move cannot happen now (a send on a full
    channel blocks).  The [break] of the [select] leaves the [select], and
    the loop goes on to [wg.Add(1)]. *)
Definition exec1 (len_files threadsPerWorker : Z) (m : Move) (s : Sched)
  : option Sched :=
  match m with
  | Interrupt =>
      Some {| queue := queue s; sending := sending s; semaphore := semaphore s;
              running := running s; counts := counts s; world := cancel (world s) |}
  | Select =>
      match sending s, queue s with
      | None, job :: rest =>
          Some {| queue := rest; sending := Some job; semaphore := semaphore s;
                  running := running s;
                  counts := if canceled (world s)
                            then rest_canceled len_files (counts s) else counts s;
                  world := world s |}
      | _, _ => None
      end
  | Acquire =>
      match sending s with
      | Some job =>
          if decide (Z.of_nat (semaphore s) < MAX_WORKERS)
          then Some {| queue := queue s; sending := None;
                       semaphore := S (semaphore s);
                       running := running s ++ [Fresh job];
                       counts := counts s; world := world s |}
          else None
      | None => None
      end
  | Launch i =>
      match running s !! i with
      | Some (Fresh job) =>
          match launch (file job) threadsPerWorker (env job) (world s) with
          | Over result w' _ => leave i (tally result (counts s)) w' s
          | Waiting w' started =>
              Some {| queue := queue s; sending := sending s;
                      semaphore := semaphore s;
                      running := <[i := Busy job started]> (running s);
                      counts := counts s; world := w' |}
          end
      | _ => None
      end
  | Settle i =>
      match running s !! i with
      | Some (Busy job started) =>
          let '(result, w', _) := settle (file job) (env job) (world s) started in
          leave i (tally result (counts s)) w' s
      | _ => None
      end
  | Panic i =>
      match running s !! i with
      | Some _ => leave i (bump_error (counts s)) (world s) s
      | None => None
      end
  end.

Fixpoint exec (len_files threadsPerWorker : Z) (ms : list Move) (s : Sched)
  : option Sched :=
  match ms with
  | [] => Some s
  | m :: ms' =>
      match exec1 len_files threadsPerWorker m s with
      | Some s' => exec len_files threadsPerWorker ms' s'
      | None => None
      end
  end.

(** [pm.wg.Wait()] has returned: the summary is printed. *)
Definition drained (s : Sched) : bool :=
  match queue s, sending s, running s with
  | [], None, [] => true
  | _, _, _ => false
  end.

(** [processFiles(files, pm, threadsPerWorker)] under a schedule. *)
Definition processFiles (jobs : list Job) (threadsPerWorker : Z) (w : World)
    (schedule : list Move) : option Sched :=
  exec (Z.of_nat (length jobs)) threadsPerWorker schedule (start jobs w).

(** [cleanupIncompleteFiles()], called by [Shutdown] only: the walk
    starts at the working directory. *)
Definition trim_suffix (p : path) (suffix : string) : path :=
  Join (Dir p) (GoStrings.TrimSuffix (Base p) suffix).

Definition sweep (p : path) (info : option FileInfo) (err : option error)
    (d : gmap path entry) : gmap path entry * verdict :=
  match err, info with
  | Some _, _ => (d, Continue)
  | None, None => (d, Continue)
  | None, Some info =>
      if negb (IsDir info) && GoStrings.HasSuffix (render p) ".incomplete"
      then
        let videoPath := trim_suffix p ".incomplete" in
        let d := if exists_at d videoPath then Remove videoPath d else d in
        (Remove p d, Continue)
      else (d, Continue)
  end.

Definition cleanupIncompleteFiles (dir : path) (cwd : node)
    (d : gmap path entry) : gmap path entry :=
  fst (Walk sweep dir cwd d).

End Sup.

(** ** The plain worker pool ([src/unnamed/part_001]) *)

Module Pool.
Import FilePath FS Walker Common.
Local Open Scope Z_scope.

Definition SOURCE_EXTENSIONS : string := ".MOV,.mov,.MP4,.mp4,.AVI,.avi".
Definition OUTPUT_EXTENSION : string := ".mkv".
Definition CONVERTED_DIR : string := Pruning.CONVERTED_DIR.
Definition MAX_WORKERS : Z := 2.
Definition TARGET_CPU_PERCENT : Z := 50.

Definition findVideoFiles (dir : path) (root : node)
  : list VideoFile * option error :=
  Pruning.findVideoFiles SOURCE_EXTENSIONS dir root.

(** The thread computation written inside [processFile]. *)
Definition threadsPerWorker (numCPU : Z) : Z :=
  ThreadBudget.calculateThreadsPerWorker TARGET_CPU_PERCENT MAX_WORKERS numCPU.

Definition intact (d : gmap path entry) (outputPath : path) : bool :=
  match d !! outputPath with
  | None => false
  | Some (EFile size) => negb (size =? 0)
  | Some EDir => true
  end.

(** The outcome of [cmd.Run()] once ffmpeg was started: [nil] when it
    exits with status 0.  There is no context here; an interrupted ffmpeg
    is a failed one. *)
Definition exit_ok (env : Env) : bool :=
  match completion env with
  | ExitFirst exit_ok _ => exit_ok
  | CancelFirst _ => false
  end.

(** Where [processFile] stands when it returns or blocks. *)
Inductive Stage : Type :=
| Over (result : Z) (d : gmap path entry) (evs : list Event)
| Waiting (d : gmap path entry) (evs : list Event).   (* inside [cmd.Run()] *)

(** [processFile(file)] up to the start of ffmpeg, which is given
    [tempPath]. *)
Definition launch (file : VideoFile) (numCPU : Z) (env : Env)
    (d : gmap path entry) : Stage :=
  let convertedDir := Join (sourceDir file) CONVERTED_DIR in
  match MkdirAll (mkdir_ok env) convertedDir d with
  | None => Over 2 d [EvMkdirAll convertedDir]
  | Some d1 =>
      let outputPath := output_path CONVERTED_DIR OUTPUT_EXTENSION file in
      if exists_at d1 outputPath
      then Over 1 d1 [EvMkdirAll convertedDir; EvSkip]
      else
        let tempPath := add_suffix outputPath ".tmp" in
        if negb (start_ok env)
        then Over 2 (Remove outputPath d1)
                    [EvMkdirAll convertedDir; EvStartFailed; EvRemove outputPath]
        else Waiting d1 [EvMkdirAll convertedDir;
                         EvStart tempPath (threadsPerWorker numCPU)]
  end.

(** The return of [cmd.Run()] and what follows it; every call names
    [outputPath]. *)
Definition settle (file : VideoFile) (env : Env) (d : gmap path entry)
    (started : list Event) : Z * gmap path entry * list Event :=
  let outputPath := output_path CONVERTED_DIR OUTPUT_EXTENSION file in
  let tempPath := add_suffix outputPath ".tmp" in
  let d2 := transcode tempPath env d in
  if negb (exit_ok env)
  then (2, Remove outputPath d2, started ++ [EvRemove outputPath])
  else
    let passed := intact d2 outputPath in
    if passed
    then (0, d2, started ++ [EvCheck outputPath true])
    else (2, Remove outputPath d2,
          started ++ [EvCheck outputPath false; EvRemove outputPath]).

(** [processFile(file)], from its call to its return. *)
Definition processFile (file : VideoFile) (numCPU : Z) (env : Env)
    (d : gmap path entry) : Z * gmap path entry * list Event :=
  match launch file numCPU env d with
  | Over result d' evs => (result, d', evs)
  | Waiting d' started => settle file env d' started
  end.

Record Job : Type := { file : VideoFile; env : Env }.

Inductive Goroutine : Type :=
| Fresh (job : Job)
| Busy (job : Job) (started : list Event).

Record Sched : Type := {
  queue : list Job;
  semaphore : nat;
  running : list Goroutine;
  counts : Counts;
  disk : gmap path entry
}.

Definition start (jobs : list Job) (d : gmap path entry) : Sched :=
  {| queue := jobs; semaphore := 0; running := []; counts := zero; disk := d |}.

(** The ffmpeg processes alive. *)
Fixpoint alive (gs : list Goroutine) : nat :=
  match gs with
  | [] => 0%nat
  | Fresh _ :: gs' => alive gs'
  | Busy _ _ :: gs' => S (alive gs')
  end.

Inductive Move : Type :=
| Acquire                (* [wg.Add(1)], [semaphore <- struct{}{}], [go func] *)
| Launch (i : nat)       (* goroutine [i] runs [processFile] up to [cmd.Run()] *)
| Settle (i : nat).      (* [cmd.Run()] of goroutine [i] returns, it returns *)

(** The [switch result] of this program has three cases. *)
Definition tally3 (result : Z) (c : Counts) : Counts :=
  if decide (result = 3) then c else tally result c.

(** The deferred calls of a goroutine that returns: [<-semaphore]. *)
Definition leave (i : nat) (c : Counts) (d : gmap path entry) (s : Sched)
  : option Sched :=
  match semaphore s with
  | S n =>
      Some {| queue := queue s; semaphore := n; running := delete i (running s);
              counts := c; disk := d |}
  | O => None
  end.

Definition exec1 (numCPU : Z) (m : Move) (s : Sched) : option Sched :=
  match m with
  | Acquire =>
      match queue s with
      | job :: rest =>
          if decide (Z.of_nat (semaphore s) < MAX_WORKERS)
          then Some {| queue := rest; semaphore := S (semaphore s);
                       running := running s ++ [Fresh job];
                       counts := counts s; disk := disk s |}
          else None
      | [] => None
      end
  | Launch i =>
      match running s !! i with
      | Some (Fresh job) =>
          match launch (file job) numCPU (env job) (disk s) with
          | Over result d' _ => leave i (tally3 result (counts s)) d' s
          | Waiting d' started =>
              Some {| queue := queue s; semaphore := semaphore s;
                      running := <[i := Busy job started]> (running s);
                      counts := counts s; disk := d' |}
          end
      | _ => None
      end
  | Settle i =>
      match running s !! i with
      | Some (Busy job started) =>
          let '(result, d', _) := settle (file job) (env job) (disk s) started in
          leave i (tally3 result (counts s)) d' s
      | _ => None
      end
  end.

Fixpoint exec (numCPU : Z) (ms : list Move) (s : Sched) : option Sched :=
  match ms with
  | [] => Some s
  | m :: ms' =>
      match exec1 numCPU m s with
      | Some s' => exec numCPU ms' s'
      | None => None
      end
  end.

Definition drained (s : Sched) : bool :=
  match queue s, running s with
  | [], [] => true
  | _, _ => false
  end.

Definition processFiles (jobs : list Job) (numCPU : Z) (d : gmap path entry)
    (schedule : list Move) : option Sched :=
  exec numCPU schedule (start jobs d).

End Pool.

(** ** What an enumeration should find *)

Module Enumerated.
Import FilePath FS Walker Common.

Definition video (p : path) : VideoFile :=
  {| sourcePath := p; sourceDir := Dir p; fileName := Base p |}.

(** The files at or below [n] that pass [allowed], in the order of the
    tree, leaving out what lies under a directory named [converted] or
    under a directory that cannot be listed. *)
Fixpoint matching (allowed : path → bool) (p : path) (n : node)
  : list VideoFile :=
  match n with
  | File _ _ => if allowed p then [video p] else []
  | Broken _ => []
  | Folder name readable children =>
      if negb readable then []
      else if String.eqb name Pruning.CONVERTED_DIR then []
      else flat_map (fun c => matching allowed (Join p (node_name c)) c) children
  end.

(** The entries on which the walk meets an error. *)
Fixpoint failing (p : path) (n : node) : list path :=
  match n with
  | File _ _ => []
  | Broken _ => [p]
  | Folder name readable children =>
      if negb readable then [p]
      else if String.eqb name Pruning.CONVERTED_DIR then []
      else flat_map (fun c => failing (Join p (node_name c)) c) children
  end.

(** The files at or below [n] that pass [allowed], nothing left out. *)
Fixpoint everything (allowed : path → bool) (p : path) (n : node)
  : list VideoFile :=
  match n with
  | File _ _ => if allowed p then [video p] else []
  | Broken _ => []
  | Folder _ _ children =>
      flat_map (fun c => everything allowed (Join p (node_name c)) c) children
  end.

(** No entry of the tree fails. *)
Fixpoint healthy (n : node) : bool :=
  match n with
  | File _ _ => true
  | Broken _ => false
  | Folder _ readable children => readable && forallb healthy children
  end.

(** What [filepath.Walk] returns on a pruned directory. *)
Definition pruned (n : node) : bool :=
  match n with
  | Folder name true _ => String.eqb name Pruning.CONVERTED_DIR
  | _ => false
  end.

End Enumerated.

(** ** What the statements below speak about *)

Module Measure.
Import FilePath FS Walker Common.
Local Open Scope Z_scope.

(** The output of [file] is in place on [d]: the directory [converted]
    next to the source, and in it the file with the output name.  The three
    programs use the same two constants. *)
Definition done_on (d : gmap path entry) (file : VideoFile) : Prop :=
  d !! Join (sourceDir file) "converted" = Some EDir
  ∧ exists_at d (output_path "converted" ".mkv" file) = true.

(** [n] more files skipped. *)
Definition skipped_more (n : Z) (c : Counts) : Counts :=
  {| successCount := successCount c; skipCount := skipCount c + n;
     errorCount := errorCount c; canceledCount := canceledCount c |}.

(** The ffmpeg processes alive after an event, and the largest number of
    them alive along a trace: a process is counted from the moment it is
    started to the moment its task unregisters it. *)
Definition alive_after (now : Z) (ev : Event) : Z :=
  match ev with
  | EvStart _ _ => now + 1
  | EvUnregister _ => now - 1
  | _ => now
  end.

Fixpoint peak (now : Z) (evs : list Event) : Z :=
  match evs with
  | [] => now
  | ev :: evs' => Z.max now (peak (alive_after now ev) evs')
  end.

(** The invariant of the semaphore of a worker pool: the channel holds one
    element per goroutine in flight, and never more than its capacity. *)
Definition bounded (semaphore : nat) (running : nat) (capacity : Z) : Prop :=
  semaphore = running ∧ Z.of_nat semaphore <= capacity.

(** A run of the plain worker pool over [n] files that all have their
    output on [d]: the disk is [d], and each file is waiting, in flight or
    counted as skipped. *)
Definition all_skipping (d : gmap path entry) (n : nat) (s : Pool.Sched) : Prop :=
  Pool.disk s = d
  ∧ Forall (λ job, done_on d (Pool.file job)) (Pool.queue s)
  ∧ Forall (λ g, match g with
                 | Pool.Fresh job => done_on d (Pool.file job)
                 | Pool.Busy _ _ => False
                 end) (Pool.running s)
  ∧ ∃ k : nat,
      Pool.counts s = skipped_more (Z.of_nat k) zero
      ∧ (k + length (Pool.queue s) + length (Pool.running s) = n)%nat.

(** A run of the supervised worker pool over [n] files that all have their
    output on the disk of [w]: the state is [w], no ffmpeg runs, and each
    file is waiting, being sent, in flight or counted as skipped. *)
Definition sup_all_skipping (w : World) (n : nat) (s : Sup.Sched) : Prop :=
  Sup.world s = w
  ∧ Forall (λ job, done_on (disk w) (Sup.file job)) (Sup.queue s)
  ∧ (∀ job, Sup.sending s = Some job → done_on (disk w) (Sup.file job))
  ∧ Forall (λ g, match g with
                 | Sup.Fresh job => done_on (disk w) (Sup.file job)
                 | Sup.Busy _ _ => False
                 end) (Sup.running s)
  ∧ ∃ k : nat,
      Sup.counts s = skipped_more (Z.of_nat k) zero
      ∧ (k + length (Sup.queue s) + (if Sup.sending s then 1 else 0)
         + length (Sup.running s) = n)%nat.

(** No interrupt reaches the task: its [select] fires on the exit of
    ffmpeg, the context not canceled. *)
Definition calm (env : Env) : Prop :=
  ∃ exit_ok, completion env = ExitFirst exit_ok false.

Definition goroutine_job (g : Sup.Goroutine) : Sup.Job :=
  match g with Sup.Fresh job | Sup.Busy job _ => job end.

(** A run of the supervised worker pool that no interrupt reaches: the
    context is live and every file is waiting, in flight or counted once. *)
Definition accounted (len_files : Z) (s : Sup.Sched) : Prop :=
  canceled (Sup.world s) = false
  ∧ Forall (λ job, calm (Sup.env job)) (Sup.queue s)
  ∧ (∀ job, Sup.sending s = Some job → calm (Sup.env job))
  ∧ Forall (λ g, calm (Sup.env (goroutine_job g))) (Sup.running s)
  ∧ total (Sup.counts s)
    + Z.of_nat (length (Sup.queue s))
    + (if Sup.sending s then 1 else 0)
    + Z.of_nat (length (Sup.running s)) = len_files.

(** The schedule has no interrupt. *)
Definition quiet (schedule : list Sup.Move) : Prop :=
  Forall (λ m, m ≠ Sup.Interrupt) schedule.

(** How many times ffmpeg was started along a trace. *)
Fixpoint starts (evs : list Event) : nat :=
  match evs with
  | [] => 0%nat
  | EvStart _ _ :: evs' => S (starts evs')
  | _ :: evs' => starts evs'
  end.

End Measure.

(** ** Concrete inputs *)

Module Sample.
Import FilePath FS Walker Common.
Local Open Scope Z_scope.

Definition tree : node := Folder "videos" true [File "clip.mov" 100].

Definition clip : VideoFile := Enumerated.video ["videos"; "clip.mov"].

Definition world : World :=
  {| disk := flatten ["videos"] tree ∅; processes := ∅; canceled := false |}.

(** ffmpeg exits with status 0 and leaves 1000 bytes. *)
Definition good : Env :=
  {| stat_source_ok := true; mkdir_ok := true; marker_ok := true;
     stamp_size := 51; start_ok := true; pid := 4242;
     produced := Some 1000; completion := ExitFirst true false |}.


(** ffmpeg exits with status 1 and leaves 10 bytes. *)
Definition failing : Env :=
  {| stat_source_ok := true; mkdir_ok := true; marker_ok := true;
     stamp_size := 51; start_ok := true; pid := 4242;
     produced := Some 10; completion := ExitFirst false false |}.

(** The interrupt arrives while ffmpeg runs; ffmpeg would stop by itself
    within the grace period. *)
Definition interrupted : Env :=
  {| stat_source_ok := true; mkdir_ok := true; marker_ok := true;
     stamp_size := 51; start_ok := true; pid := 4242;
     produced := Some 10; completion := CancelFirst true |}.

(** A tree left by a run that was killed: the partial output and its
    marker are still there. *)
Definition crashed : node :=
  Folder "videos" true
    [File "clip.mov" 100;
     Folder "converted" true
       [File "clip.mkv" 10; File "clip.mkv.incomplete" 51]].

(** Two sources of one directory that differ by the case of the
    extension. *)
Definition twins : node :=
  Folder "videos" true [File "clip.MOV" 100; File "clip.mov" 100].

Definition leftover : World :=
  {| disk := flatten ["videos"] crashed ∅; processes := ∅; canceled := false |}.

Definition upper : VideoFile := Enumerated.video ["videos"; "clip.MOV"].
Definition lower : VideoFile := Enumerated.video ["videos"; "clip.mov"].

Definition pair : World :=
  {| disk := flatten ["videos"] twins ∅; processes := ∅; canceled := false |}.

(** Four sources, and the jobs of the supervised worker pool on them:
    ffmpeg would do well on each, and the tasks of the second and of the
    third see the context canceled before their ffmpeg exits. *)
Definition four : node :=
  Folder "videos" true
    [File "a.mov" 100; File "b.mov" 100; File "c.mov" 100; File "d.mov" 100].

Definition task (name : string) (pid : Z) (completion : Completion) : Sup.Job :=
  {| Sup.file := Enumerated.video ["videos"; name];
     Sup.env := {| stat_source_ok := true; mkdir_ok := true; marker_ok := true;
                   stamp_size := 51; start_ok := true; pid := pid;
                   produced := Some 1000; completion := completion |} |}.

Definition batch : list Sup.Job :=
  [task "a.mov" 101 (ExitFirst true false);
   task "b.mov" 102 (CancelFirst true);
   task "c.mov" 103 (CancelFirst true);
   task "d.mov" 104 (ExitFirst true false)].

Definition shelf : World :=
  {| disk := flatten ["videos"] four ∅; processes := ∅; canceled := false |}.

(** The first file is transcoded; the interrupt arrives while the second
    and the third are being transcoded; the loop then reaches the fourth. *)
Definition interrupted_schedule : list Sup.Move :=
  [Sup.Select; Sup.Acquire; Sup.Select; Sup.Acquire;
   Sup.Launch 0; Sup.Launch 1; Sup.Settle 0;
   Sup.Select; Sup.Acquire; Sup.Launch 1;
   Sup.Interrupt;
   Sup.Select; Sup.Settle 0; Sup.Acquire; Sup.Settle 0; Sup.Launch 0].

(** A marker left beside an empty directory of the name it stands for. *)
Definition husk : node :=
  Folder "videos" true [Folder "x" true []; File "x.incomplete" 51].

End Sample.

(** ** Names *)

Module Names.
Import FilePath Common.

(** The name of a file without its extension, as [processFile] computes
    it. *)
Definition stem (name : string) : string :=
  GoStrings.TrimSuffix name (Ext name).

(** No dot and no separator in the string. *)
Fixpoint plain (s : string) : bool :=
  match s with
  | EmptyString => true
  | String c r =>
      negb (Ascii.eqb c ".") && negb (Ascii.eqb c "/") && plain r
  end.

End Names.

(** ** What a task owns *)

Module Effects.
Import FilePath FS Common.

(** A descriptor as [findVideoFiles] builds it: the path is the directory
    joined with the name. *)
Definition well_formed (f : VideoFile) : Prop :=
  sourcePath f = Join (sourceDir f) (fileName f).

(** The paths [processFile] names in a call that changes the disk: the
    [converted] directory, the output, the incomplete marker and the
    temporary path. *)
Definition owned (file : VideoFile) (q : path) : Prop :=
  let out := output_path "converted" ".mkv" file in
  q = Join (sourceDir file) "converted" ∨ q = out
  ∨ q = add_suffix out ".incomplete" ∨ q = add_suffix out ".tmp".



(** A descriptor of a walk that starts at [top]: it names a path at or
    below [top] that passes [test], split as [findVideoFiles] splits it. *)
Definition sound (top : path) (test : path → bool) (f : VideoFile) : Prop :=
  top `prefix_of` sourcePath f
  ∧ f = Enumerated.video (sourcePath f)
  ∧ well_formed f
  ∧ test (sourcePath f) = true.

End Effects.

(** ** What a run still holds *)

Module Runs.
Import FilePath FS Common.

(** An output path of some file. *)
Definition is_output (p : path) : Prop :=
  ∃ file, p = output_path "converted" ".mkv" file.





(** A run of the third program in which no output was made: nothing is
    counted as a success, an output path that was free on [d0] is free, and
    so is the output path of every task that is inside [cmd.Run()]. *)
Definition pool_fruitless (d0 : gmap path entry) (s : Pool.Sched) : Prop :=
  successCount (Pool.counts s) = 0%Z
  ∧ (∀ p, is_output p → d0 !! p = None → Pool.disk s !! p = None)
  ∧ Forall (λ g, match g with
                 | Pool.Busy job _ =>
                     Pool.disk s !! output_path "converted" ".mkv" (Pool.file job)
                     = None
                 | Pool.Fresh _ => True
                 end) (Pool.running s).

(** The steps a run has left at most: a file the loop has not reached
    takes four (the [select], the send, the task up to its [select], the
    return), and so on down. *)
Definition sup_steps (g : Sup.Goroutine) : nat :=
  match g with Sup.Fresh _ => 2 | Sup.Busy _ _ => 1 end.

Definition sup_weight (s : Sup.Sched) : nat :=
  4 * length (Sup.queue s)
  + (if Sup.sending s then 3 else 0)
  + list_sum (map sup_steps (Sup.running s)).

Definition pool_steps (g : Pool.Goroutine) : nat :=
  match g with Pool.Fresh _ => 2 | Pool.Busy _ _ => 1 end.

Definition pool_weight (s : Pool.Sched) : nat :=
  3 * length (Pool.queue s) + list_sum (map pool_steps (Pool.running s)).

(** The moves of a schedule that are steps of the program, not the
    arrival of a signal. *)
Definition work (schedule : list Sup.Move) : nat :=
  length (List.filter (λ m, match m with Sup.Interrupt => false | _ => true end)
                      schedule).

(** The pids of the ffmpeg processes of the goroutines at their
    [select]. *)
Fixpoint busy_pids (gs : list Sup.Goroutine) : gset Z :=
  match gs with
  | [] => ∅
  | Sup.Fresh _ :: gs' => busy_pids gs'
  | Sup.Busy job _ :: gs' => {[pid (Sup.env job)]} ∪ busy_pids gs'
  end.

(** No goroutine panics. *)
Definition no_panic (schedule : list Sup.Move) : Prop :=
  Forall (λ m, match m with Sup.Panic _ => False | _ => True end) schedule.

(** The files [cleanupIncompleteFiles] meets whose path ends in
    [.incomplete], in the order of the walk: a directory that cannot be
    listed is passed over, none is pruned. *)
Fixpoint markers (p : path) (n : node) : list path :=
  match n with
  | File _ _ =>
      if GoStrings.HasSuffix (render p) ".incomplete" then [p] else []
  | Broken _ => []
  | Folder _ readable children =>
      if readable
      then flat_map (λ c, markers (Join p (node_name c)) c) children
      else []
  end.

(** [os.Remove] of each path in turn. *)
Definition removes (l : list path) (d : gmap path entry) : gmap path entry :=
  fold_left (λ d m, Remove m d) l d.

(** The path a marker stands for. *)
Definition marked (m : path) : path := Sup.trim_suffix m ".incomplete".

(** What [os.Remove] removes: a file, or a directory with nothing below
    it. *)
Definition removable (d : gmap path entry) (p : path) : Prop :=
  d !! p ≠ Some EDir ∨ empty_dir p d = true.

(** How many calls of [processFile] returned [code]. *)
Definition occurrences (code : Z) (results : list Z) : Z :=
  Z.of_nat (count_occ Z.eq_dec results code).

(** An incomplete marker of some file. *)
Definition is_marker (p : path) : Prop :=
  ∃ file, p = add_suffix (output_path "converted" ".mkv" file) ".incomplete".

(** The marker a goroutine has written and not yet removed. *)
Definition sup_marker (g : Sup.Goroutine) : option path :=
  match g with
  | Sup.Busy job _ =>
      Some (add_suffix (output_path "converted" ".mkv" (Sup.file job)) ".incomplete")
  | Sup.Fresh _ => None
  end.

(** The marker [p] is absent, or it is the file written by a task that is
    at its [select]. *)
Definition marker_held (p : path) (s : Sup.Sched) : Prop :=
  disk (Sup.world s) !! p = None
  ∨ ((∃ size, disk (Sup.world s) !! p = Some (EFile size))
     ∧ Exists (λ g, sup_marker g = Some p) (Sup.running s)).

(** The path is free or holds a file that is not empty. *)
Definition output_sound (p : path) (d : gmap path entry) : Prop :=
  d !! p = None ∨ ∃ size, d !! p = Some (EFile size) ∧ size ≠ 0%Z.

End Runs.

(** ** [main] of the sequential program, from its first line *)

Module StartUp.
Import FilePath FS Walker Common.
Local Open Scope Z_scope.

(** What [main] is called with: the value of the flag [-threads], the
    first argument with what lies at that path ([None]: [flag.NArg() < 1]),
    and whether [exec.LookPath] finds ffmpeg. *)
Record Invocation : Type := {
  threads : Z;
  argument : option (path * node);
  ffmpeg_found : bool
}.

(** How [main] ends.  ([Return]: [main] gets to its end; after a signal
    the goroutine that waits for it calls [os.Exit(130)] once [Shutdown] is
    over, and the process may end there before [main] has returned.) *)
Inductive Ending : Type :=
| Exit (status : Z)                 (* os.Exit *)
| Fatal                             (* log.Fatalf *)
| Return (run : option Seq.Run).    (* [None]: no video file was found *)

(** [main()] of the first program, no signal coming before [processFiles]
    is called (the goroutine that waits for a signal apart: the signals of
    the run are the [arrival]s of the plan). *)
Definition main (inv : Invocation) (plan : VideoFile → Env * Seq.Arrival)
  : Ending :=
  match argument inv with
  | None => Exit 1
  | Some (dir, root) =>
      if threads inv <? 1 then Exit 1
      else
        match root with
        | Broken _ => Fatal                      (* os.Stat(rootPath) fails *)
        | File _ _ => Fatal                      (* !info.IsDir() *)
        | Folder _ _ _ =>
            if negb (ffmpeg_found inv) then Fatal (* checkFFmpeg() *)
            else
              match Seq.findVideoFiles dir root with
              | (_, Some _) => Fatal
              | ([], None) => Return None
              | (files, None) =>
                  let jobs := map (fun f => {| Seq.file := f;
                                               Seq.env := fst (plan f);
                                               Seq.arrival := snd (plan f) |})
                                  files in
                  let w := {| disk := flatten (Join dir (node_name root)) root ∅;
                              processes := ∅; canceled := false |} in
                  Return (Some (Seq.processFiles jobs (threads inv) w))
              end
        end
  end.

End StartUp.

(** * Properties *)

(** ** The thread budget *)

Section ThreadBudgetFacts.
Local Open Scope Z_scope.

Lemma wrap_in_range (z : Z) :
  GoInt.min_int <= z <= GoInt.max_int → GoInt.wrap z = z.
Proof.
  unfold GoInt.wrap, GoInt.min_int, GoInt.max_int. intros Hz.
  rewrite Z.mod_small; lia.
Qed.

Lemma quot_in_range (a b : Z) :
  GoInt.min_int <= a <= GoInt.max_int → 1 <= b →
  GoInt.div a b = Z.quot a b ∧ Z.abs (Z.quot a b) <= Z.abs a.
Proof.
  intros Ha Hb. unfold GoInt.div.
  assert (Hq : Z.abs (Z.quot a b) <= Z.abs a).
  { rewrite <- Z.quot_abs by lia.
    transitivity (Z.abs a ÷ 1).
    - apply Z.quot_le_compat_l; lia.
    - rewrite Z.quot_1_r. lia. }
  split; [|exact Hq]. apply wrap_in_range.
  assert (Hsign : 0 <= a ∧ 0 <= a ÷ b ∨ a <= 0 ∧ a ÷ b <= 0).
  { destruct (Z_lt_le_dec a 0).
    - right. split; [lia|]. replace a with (- - a) by lia.
      rewrite Z.quot_opp_l by lia.
      assert (0 <= (- a) ÷ b) by (apply Z.quot_pos; lia). lia.
    - left. split; [lia|]. apply Z.quot_pos; lia. }
  unfold GoInt.min_int, GoInt.max_int in *. lia.
Qed.

Lemma budget_of_total (total workers : Z) :
  1 <= total <= GoInt.max_int → 1 <= workers →
  (let threadsPerWorker := GoInt.div total workers in
   if threadsPerWorker <? 1 then 1 else threadsPerWorker)
  = Z.max 1 (total / workers).
Proof.
  intros Ht Hw. cbv zeta.
  destruct (quot_in_range total workers) as [-> _];
    [unfold GoInt.min_int, GoInt.max_int in *; lia | lia |].
  rewrite Z.quot_div_nonneg by lia.
  destruct (Z.ltb_spec (total / workers) 1); lia.
Qed.

End ThreadBudgetFacts.

(** C4.  The thread budget is a function of the CPU count and of the two
    constants only: for a CPU count of at least 1 and a worker ceiling of at
    least 1 (the product [targetPercent * cpuCount] being a machine integer)
    it is [max 1 (floor (floor (targetPercent * cpuCount / 100) /
    workerCeiling))], the total being raised to 1 before the division and the
    result after it, so that it is never below 1; 8 CPUs give 2 threads and
    1 CPU gives 1, in both programs that compute it. *)
Theorem thread_budget_formula (targetPercent workerCeiling cpuCount : Z) :
  (1 <= cpuCount)%Z → (1 <= workerCeiling)%Z →
  (GoInt.min_int <= targetPercent * cpuCount <= GoInt.max_int)%Z →
  ThreadBudget.calculateThreadsPerWorker targetPercent workerCeiling cpuCount
  = Z.max 1 ((targetPercent * cpuCount / 100) / workerCeiling)
  ∧ ThreadBudget.calculateThreadsPerWorker targetPercent workerCeiling cpuCount
    = Z.max 1 (Z.max 1 (targetPercent * cpuCount / 100) / workerCeiling)
  ∧ (1 <= ThreadBudget.calculateThreadsPerWorker targetPercent workerCeiling cpuCount)%Z
  ∧ Sup.calculateThreadsPerWorker 8 = 2%Z
  ∧ Sup.calculateThreadsPerWorker 1 = 1%Z
  ∧ Pool.threadsPerWorker 8 = 2%Z
  ∧ Pool.threadsPerWorker 1 = 1%Z.
Proof.
  intros Hcpu Hw Hp.
  assert (Hcalc :
    ThreadBudget.calculateThreadsPerWorker targetPercent workerCeiling cpuCount
    = Z.max 1 (Z.max 1 (targetPercent * cpuCount / 100) / workerCeiling)).
  { unfold ThreadBudget.calculateThreadsPerWorker, GoInt.mul.
    rewrite (wrap_in_range _ Hp).
    destruct (quot_in_range (targetPercent * cpuCount) 100 Hp) as [-> Habs]; [lia|].
    set (p := (targetPercent * cpuCount)%Z) in *.
    assert (Htotal :
      (if (p ÷ 100 <? 1)%Z then 1 else p ÷ 100)%Z = Z.max 1 (p / 100)).
    { destruct (Z_lt_le_dec p 0) as [Hneg|Hpos].
      - assert (p ÷ 100 <= 0)%Z.
        { replace p with (- - p)%Z by lia. rewrite Z.quot_opp_l by lia.
          assert (0 <= (- p) ÷ 100)%Z by (apply Z.quot_pos; lia). lia. }
        assert (p / 100 < 0)%Z by (apply Z.div_lt_upper_bound; lia).
        destruct (Z.ltb_spec (p ÷ 100) 1); lia.
      - rewrite Z.quot_div_nonneg by lia.
        destruct (Z.ltb_spec (p / 100) 1); lia. }
    rewrite Htotal. apply budget_of_total; [|lia].
    split; [lia|].
    destruct (Z_lt_le_dec p 0).
    + assert (p / 100 < 0)%Z by (apply Z.div_lt_upper_bound; lia).
      unfold GoInt.max_int. lia.
    + assert (p / 100 <= p)%Z by (apply Z.div_le_upper_bound; lia).
      unfold GoInt.max_int in *. lia. }
  split; [|split; [exact Hcalc|split; [rewrite Hcalc; lia|repeat split; reflexivity]]].
  rewrite Hcalc. set (p := (targetPercent * cpuCount)%Z).
  destruct (Z_lt_le_dec (p / 100) 1) as [Hsmall|Hbig].
  - rewrite (Z.max_l 1 (p / 100)) by lia.
    assert (p / 100 / workerCeiling <= 0)%Z.
    { apply Z.div_le_upper_bound; [lia|]. nia. }
    assert (1 / workerCeiling <= 1)%Z by (apply Z.div_le_upper_bound; lia).
    lia.
  - rewrite (Z.max_r 1 (p / 100)) by lia. reflexivity.
Qed.

Lemma thread_budget_formula_witness :
  ThreadBudget.calculateThreadsPerWorker 50 2 8
  = Z.max 1 ((50 * 8 / 100) / 2).
Proof.
  apply (thread_budget_formula 50 2 8);
    unfold GoInt.min_int, GoInt.max_int; lia.
Defined.

(** ** Enumeration *)

Section WalkFacts.
Import FilePath FS Walker Common Enumerated.

(** Induction on a tree, with the hypothesis on every child. *)
Lemma node_induction (P : node → Prop) :
  (∀ name size, P (File name size)) →
  (∀ name, P (Broken name)) →
  (∀ name readable children,
      Forall P children → P (Folder name readable children)) →
  ∀ n, P n.
Proof.
  intros HF HB HD. fix IH 1. intros [name size|name readable children|name].
  - apply HF.
  - apply HD. induction children as [|c cs IHcs]; constructor.
    + apply IH.
    + exact IHcs.
  - apply HB.
Qed.

Variable SOURCE_EXTENSIONS : string.

Lemma pruning_walk (n : node) :
  ∀ p s,
    walk (Pruning.visit SOURCE_EXTENSIONS) p n s
    = ({| Pruning.files :=
            Pruning.files s ++ matching (Pruning.allowed SOURCE_EXTENSIONS) p n;
          Pruning.warnings := Pruning.warnings s ++ failing p n |},
       if pruned n then SkipDir else Continue).
Proof.
  induction n as [name size|name|name readable children IH] using node_induction;
    intros p [fs ws].
  - simpl. destruct (Pruning.allowed SOURCE_EXTENSIONS p); simpl;
      rewrite ?app_nil_r; reflexivity.
  - simpl. rewrite app_nil_r. reflexivity.
  - destruct readable; simpl; [|rewrite app_nil_r; reflexivity].
    destruct (String.eqb name Pruning.CONVERTED_DIR) eqn:Hname;
      [rewrite !app_nil_r; reflexivity|].
    revert fs ws. induction IH as [|c cs Hc _ IHcs]; intros fs ws.
    { simpl. rewrite !app_nil_r. reflexivity. }
    simpl. destruct c as [cname csize|cname creadable cchildren|cname].
    + rewrite Hc. simpl pruned. cbv iota. rewrite IHcs. simpl.
      rewrite <- !app_assoc. reflexivity.
    + rewrite Hc. destruct (pruned _); simpl; rewrite IHcs; simpl;
        rewrite <- !app_assoc; reflexivity.
    + simpl. rewrite IHcs. simpl. rewrite <- !app_assoc. reflexivity.
Qed.

Lemma sequential_walk (n : node) :
  ∀ p s,
    (healthy n = true →
     walk Seq.visit p n s = (s ++ everything Seq.allowed p n, Continue))
    ∧ (healthy n = false → ∃ s' e, walk Seq.visit p n s = (s', Abort e)).
Proof.
  induction n as [name size|name|name readable children IH] using node_induction;
    intros p s.
  - split; [intros _|discriminate]. simpl.
    destruct (Seq.allowed p); simpl; rewrite ?app_nil_r; reflexivity.
  - split; [discriminate|intros _]. simpl. eauto.
  - destruct readable; simpl; [|split; [discriminate|eauto]].
    revert s. induction IH as [|c cs Hc _ IHcs]; intros s.
    { split; [intros _|discriminate]. simpl. rewrite app_nil_r. reflexivity. }
    simpl. destruct (Hc (Join p (node_name c)) s) as [Hgood Hbad].
    destruct (healthy c) eqn:Hh; simpl.
    + specialize (Hgood eq_refl).
      destruct (IHcs (s ++ everything Seq.allowed (Join p (node_name c)) c))
        as [Hgoods Hbads].
      destruct c as [cname csize|cname creadable cchildren|cname];
        try discriminate; rewrite Hgood; (split; intros Hcs;
          [rewrite (Hgoods Hcs), <- app_assoc; reflexivity|exact (Hbads Hcs)]).
    + split; [discriminate|intros _].
      destruct (Hbad eq_refl) as (s' & e & Hw).
      destruct c as [cname csize|cname creadable cchildren|cname];
        rewrite ?Hw; simpl; eauto.
Qed.

(** Where the files found by the pruning walk lie. *)
Lemma matching_inner (allowed : path → bool) (n : node) :
  ∀ q f,
    In f (matching allowed (q ++ [node_name n]) n) →
    ∃ inner, sourceDir f = q ++ inner ∧ ¬ In Pruning.CONVERTED_DIR inner.
Proof.
  induction n as [name size|name|name readable children IH] using node_induction;
    intros q f Hf; simpl in Hf.
  - destruct (allowed _); [|contradiction]. destruct Hf as [<-|[]].
    exists []. simpl. unfold Dir. rewrite removelast_last, app_nil_r.
    split; [reflexivity|intros []].
  - contradiction.
  - destruct readable; simpl in Hf; [|contradiction].
    destruct (String.eqb name Pruning.CONVERTED_DIR) eqn:Hname; [contradiction|].
    apply in_flat_map in Hf as (c & Hc & Hf).
    rewrite Forall_forall in IH.
    apply (IH c) in Hf as (inner & Hdir & Hinner);
      [|apply list_elem_of_In; exact Hc].
    exists (name :: inner). split.
    + rewrite Hdir, <- app_assoc. reflexivity.
    + intros [Heq|Hin]; [|contradiction].
      apply String.eqb_neq in Hname. congruence.
Qed.

End WalkFacts.

(** C7 (as amended).  In the two worker-pool programs an I/O error on a
    directory entry is written to the log and the entry is skipped: the
    walk is never aborted, it returns no error and finds every matching
    file of the listable, unpruned directories, hence the empty sequence
    and no error when nothing matches.  In the sequential program the walk
    returns no error exactly when no entry fails, and then finds every
    matching file (the empty sequence when nothing matches); an entry that
    fails aborts it. *)
Theorem walk_errors_logged_and_skipped (dir : FilePath.path) (root : FS.node) :
  let p := FilePath.Join dir (FS.node_name root) in
  (∀ exts,
      Pruning.search exts dir root
      = ({| Pruning.files := Enumerated.matching (Pruning.allowed exts) p root;
            Pruning.warnings := Enumerated.failing p root |}, None))
  ∧ (Enumerated.matching (Pruning.allowed Sup.SOURCE_EXTENSIONS) p root = [] →
     Sup.findVideoFiles dir root = ([], None))
  ∧ (Enumerated.matching (Pruning.allowed Pool.SOURCE_EXTENSIONS) p root = [] →
     Pool.findVideoFiles dir root = ([], None))
  ∧ (Enumerated.healthy root = true →
     Seq.findVideoFiles dir root = (Enumerated.everything Seq.allowed p root, None))
  ∧ (Enumerated.healthy root = false →
     ∃ e, snd (Seq.findVideoFiles dir root) = Some e).
Proof.
  intros p.
  assert (Hsearch : ∀ exts,
    Pruning.search exts dir root
    = ({| Pruning.files := Enumerated.matching (Pruning.allowed exts) p root;
          Pruning.warnings := Enumerated.failing p root |}, None)).
  { intros exts. unfold Pruning.search, Walker.Walk. fold p.
    rewrite pruning_walk. simpl. destruct (Enumerated.pruned root); reflexivity. }
  split; [exact Hsearch|].
  split; [|split].
  - intros Hnone. unfold Sup.findVideoFiles, Pruning.findVideoFiles.
    rewrite Hsearch. simpl. rewrite Hnone. reflexivity.
  - intros Hnone. unfold Pool.findVideoFiles, Pruning.findVideoFiles.
    rewrite Hsearch. simpl. rewrite Hnone. reflexivity.
  - unfold Seq.findVideoFiles, Walker.Walk. fold p.
    destruct (sequential_walk root p []) as [Hgood Hbad].
    split; intros Hh.
    + rewrite (Hgood Hh). reflexivity.
    + destruct (Hbad Hh) as (s' & e & ->). simpl. eauto.
Qed.

(** C7 does not hold of the sequential program: the entry
    that cannot be read aborts the walk, and the video file listed after it
    is not found. *)
Lemma sequential_walk_aborts :
  let root := FS.Folder "videos" true [FS.Broken "bad"; FS.File "clip.mov" 7] in
  Seq.findVideoFiles [] root = ([], Some (Walker.ErrLstat ["videos"; "bad"]))
  ∧ fst (Sup.findVideoFiles [] root) = [Enumerated.video ["videos"; "clip.mov"]].
Proof. split; reflexivity. Qed.

(** C8 (as amended).  In the two worker-pool programs no directory named
    [converted] is descended into: a file that the enumeration returns lies
    in a directory reached from the root of the walk through directories
    none of which has that name.  The sequential program prunes nothing: it
    returns the matching files of the whole tree, those under [converted]
    included. *)
Theorem converted_directories_pruned
    (dir : FilePath.path) (root : FS.node) (f : Common.VideoFile) :
  In f (fst (Sup.findVideoFiles dir root)) ∨ In f (fst (Pool.findVideoFiles dir root)) →
  (∃ inner, Common.sourceDir f = dir ++ inner ∧ ¬ In Sup.CONVERTED_DIR inner)
  ∧ (∀ tree, Enumerated.healthy tree = true →
       fst (Seq.findVideoFiles dir tree)
       = Enumerated.everything Seq.allowed (FilePath.Join dir (FS.node_name tree)) tree)
  ∧ In (Enumerated.video ["videos"; "converted"; "old.mov"])
       (fst (Seq.findVideoFiles []
               (FS.Folder "videos" true
                  [FS.Folder "converted" true [FS.File "old.mov" 3]]))).
Proof.
  intros Hf. split; [|split].
  - assert (Hin : ∃ exts,
      In f (Enumerated.matching (Pruning.allowed exts)
              (dir ++ [FS.node_name root]) root)).
    { destruct Hf as [Hf|Hf]; [exists Sup.SOURCE_EXTENSIONS|exists Pool.SOURCE_EXTENSIONS];
        revert Hf; unfold Sup.findVideoFiles, Pool.findVideoFiles,
          Pruning.findVideoFiles, Pruning.search, Walker.Walk, FilePath.Join;
        rewrite pruning_walk; simpl; auto. }
    destruct Hin as [exts Hin]. exact (matching_inner _ _ _ _ Hin).
  - intros tree Hh. unfold Seq.findVideoFiles, Walker.Walk.
    destruct (sequential_walk tree (FilePath.Join dir (FS.node_name tree)) [])
      as [Hgood _].
    rewrite (Hgood Hh). reflexivity.
  - vm_compute. auto.
Qed.

Lemma converted_directories_pruned_witness :
  ∃ inner, ["videos"; "sub"] = ["videos"] ++ inner ∧ ¬ In Sup.CONVERTED_DIR inner.
Proof.
  apply (converted_directories_pruned ["videos"]
           (FS.Folder "sub" true
              [FS.File "q.MOV" 1; FS.Folder "converted" true [FS.File "old.mov" 3]])
           (Enumerated.video ["videos"; "sub"; "q.MOV"])).
  left. vm_compute. auto.
Defined.

(** C8 does not hold of the sequential program: a file
    inside a directory named [converted] is enumerated as a source. *)
Lemma sequential_walk_enters_converted :
  ∃ f, In f (fst (Seq.findVideoFiles []
                    (FS.Folder "videos" true
                       [FS.Folder "converted" true [FS.File "old.mov" 3]])))
       ∧ In Seq.convertedDir (Common.sourceDir f).
Proof.
  exists (Enumerated.video ["videos"; "converted"; "old.mov"]).
  split; vm_compute; auto.
Qed.

(** ** One task *)

Section TaskFacts.
Import FilePath FS Walker Common.

Lemma append_empty (s : string) : s +:+ "" = s.
Proof.
  induction s as [|c s IH]; [reflexivity|].
  change (String c (s +:+ "") = String c s). f_equal. exact IH.
Qed.

Lemma add_suffix_differs (dir : path) (name suffix : string) :
  suffix ≠ "" → add_suffix (Join dir name) suffix ≠ Join dir name.
Proof.
  intros Hs Heq. unfold add_suffix, Join, Dir, Base in Heq.
  rewrite removelast_last, last_last in Heq.
  apply app_inv_head in Heq. injection Heq as Heq.
  rewrite <- (append_empty name) in Heq at 2.
  apply String.app_inj in Heq. contradiction.
Qed.

Lemma marker_differs (dirname ext suffix : string) (file : VideoFile) :
  suffix ≠ "" →
  add_suffix (output_path dirname ext file) suffix ≠ output_path dirname ext file.
Proof. intros Hs. unfold output_path. apply add_suffix_differs. exact Hs. Qed.

Lemma Remove_other (p q : path) (d : gmap path entry) :
  p ≠ q → Remove p d !! q = d !! q.
Proof.
  intros Hne. unfold Remove.
  destruct (d !! p) as [[size|]|]; try reflexivity.
  - apply lookup_delete_ne. exact Hne.
  - destruct (empty_dir p d); [|reflexivity]. apply lookup_delete_ne. exact Hne.
Qed.

Lemma Remove_file (p : path) (d : gmap path entry) :
  d !! p ≠ Some EDir → Remove p d !! p = None.
Proof.
  intros Hd. unfold Remove.
  destruct (d !! p) as [[size|]|] eqn:Hp; try congruence.
  apply lookup_delete_eq.
Qed.

Lemma exists_at_false (d : gmap path entry) (p : path) :
  exists_at d p = false → d !! p = None.
Proof. unfold exists_at. destruct (d !! p); [discriminate|reflexivity]. Qed.

Lemma transcode_at (out : path) (env : Env) (d : gmap path entry) :
  d !! out = None →
  transcode out env d !! out = EFile <$> produced env.
Proof.
  intros Hd. unfold transcode. destruct (produced env); simpl; [|exact Hd].
  apply lookup_insert_eq.
Qed.

Lemma transcode_other (out q : path) (env : Env) (d : gmap path entry) :
  out ≠ q → transcode out env d !! q = d !! q.
Proof.
  intros Hne. unfold transcode. destruct (produced env); [|reflexivity].
  apply lookup_insert_ne. exact Hne.
Qed.

(** The state of the two paths of a task once ffmpeg has run. *)
Lemma after_transcode (out marker : path) (env : Env) (d : gmap path entry) :
  marker ≠ out → d !! out = None →
  let d3 := transcode out env (<[marker := EFile (stamp_size env)]> d) in
  d3 !! out = EFile <$> produced env
  ∧ d3 !! marker = Some (EFile (stamp_size env)).
Proof.
  intros Hne Hd d3. subst d3. split.
  - apply transcode_at. rewrite lookup_insert_ne by exact Hne. exact Hd.
  - rewrite transcode_other by congruence. apply lookup_insert_eq.
Qed.

(** [cleanup()] leaves neither the output nor the marker. *)
Lemma cleanup_wipes (out marker : path) (d : gmap path entry) :
  marker ≠ out → d !! out ≠ Some EDir → d !! marker ≠ Some EDir →
  Remove marker (Remove out d) !! out = None
  ∧ Remove marker (Remove out d) !! marker = None.
Proof.
  intros Hne Hout Hmarker. split.
  - rewrite Remove_other by exact Hne. apply Remove_file. exact Hout.
  - apply Remove_file. rewrite Remove_other by congruence. exact Hmarker.
Qed.

End TaskFacts.

(** ** A process that exits with status 0 *)

(** The steps every program takes before it starts ffmpeg: what is left is
    the case in which ffmpeg was started. *)
Ltac until_start out marker Hmk Hex :=
  cbv zeta; fold out; fold marker;
  repeat match goal with
  | |- context [if Common.canceled ?w then _ else _] =>
      destruct (Common.canceled w) eqn:?; [simpl; intuition discriminate|]
  | |- context [if negb (Common.stat_source_ok ?e) then _ else _] =>
      destruct (Common.stat_source_ok e) eqn:?; simpl negb; cbv iota;
      [|simpl; intuition discriminate]
  | |- context [match FS.MkdirAll ?b ?p ?d with _ => _ end] =>
      destruct (FS.MkdirAll b p d) as [?d1|] eqn:Hmk; [|simpl; intuition discriminate]
  | |- context [if FS.exists_at ?d out then _ else _] =>
      destruct (FS.exists_at d out) eqn:Hex; [simpl; intuition discriminate|];
      apply exists_at_false in Hex
  | |- context [if negb (Common.marker_ok ?e) then _ else _] =>
      destruct (Common.marker_ok e) eqn:?; simpl negb; cbv iota;
      [|simpl; intuition discriminate]
  | |- context [if negb (Common.start_ok ?e) then _ else _] =>
      destruct (Common.start_ok e) eqn:?; simpl negb; cbv iota;
      [|simpl; intuition discriminate]
  end.

Section ZeroExit.
Import FilePath FS Walker Common.
Local Open Scope Z_scope.




End ZeroExit.




(** ** Cancellation while ffmpeg runs *)

Section Cancellation.
Import FilePath FS Walker Common.
Local Open Scope Z_scope.

Lemma sequential_cancel (file : VideoFile) (threads : Z) (env : Env)
    (w : World) (exits_in_grace : bool) :
  completion env = CancelFirst exits_in_grace →
  let out := output_path Seq.convertedDir Seq.outputExtension file in
  let marker := add_suffix out ".incomplete" in
  let r := Seq.processFile file threads env w in
  In (EvStart out threads) (events r) →
  events r
  = [EvMkdirAll (Join (sourceDir file) Seq.convertedDir); EvWriteMarker marker;
     EvStart out threads; EvRegister (pid env);
     EvInterrupt (pid env); EvGrace 5]
    ++ (if exits_in_grace then [] else [EvKill (pid env)])
    ++ [EvRemove out; EvRemove marker; EvUnregister (pid env)]
  ∧ code r = 3
  ∧ disk (after r) !! out = None
  ∧ disk (after r) !! marker = None
  ∧ pid env ∉ processes (after r).
Proof.
  intros Hc out marker r. subst r. unfold Seq.processFile.
  until_start out marker Hmk Hex.
  rewrite Hc. intros _.
  assert (Hne : marker ≠ out) by (apply marker_differs; discriminate).
  destruct (after_transcode out marker env d1 Hne Hex) as [Hout Hmarker].
  set (d3 := transcode out env (<[marker:=EFile (stamp_size env)]> d1)) in *.
  assert (Hw : Remove marker (Remove out d3) !! out = None
               ∧ Remove marker (Remove out d3) !! marker = None).
  { apply cleanup_wipes; [exact Hne| |rewrite Hmarker; discriminate].
    rewrite Hout. destruct (produced env); discriminate. }
  unfold events, code, after. simpl fst. simpl snd.
  split; [destruct exits_in_grace; reflexivity|].
  split; [reflexivity|].
  unfold unregister, on_disk, cancel, register, set_processes, set_disk, Seq.cleanup.
  simpl. fold d3. split; [apply Hw|]. split; [apply Hw|]. set_solver.
Qed.

Lemma supervised_cancel (file : VideoFile) (threads : Z) (env : Env)
    (w : World) (exits_in_grace : bool) :
  completion env = CancelFirst exits_in_grace →
  let out := output_path Sup.CONVERTED_DIR Sup.OUTPUT_EXTENSION file in
  let marker := add_suffix out ".incomplete" in
  let r := Sup.processFile file threads env w in
  In (EvStart out threads) (events r) →
  events r
  = [EvMkdirAll (Join (sourceDir file) Sup.CONVERTED_DIR); EvWriteMarker marker;
     EvStart out threads; EvRegister (pid env);
     EvKill (pid env); EvUnregister (pid env); EvRemove out; EvRemove marker]
  ∧ code r = 3
  ∧ disk (after r) !! out = None
  ∧ disk (after r) !! marker = None
  ∧ pid env ∉ processes (after r).
Proof.
  intros Hc out marker r. subst r. unfold Sup.processFile, Sup.launch.
  until_start out marker Hmk Hex.
  cbv beta iota. unfold Sup.settle. cbv zeta. fold out. fold marker.
  rewrite Hc. intros _.
  assert (Hne : marker ≠ out) by (apply marker_differs; discriminate).
  destruct (after_transcode out marker env d1 Hne Hex) as [Hout Hmarker].
  set (d3 := transcode out env (<[marker:=EFile (stamp_size env)]> d1)) in *.
  assert (Hw : Remove marker (Remove out d3) !! out = None
               ∧ Remove marker (Remove out d3) !! marker = None).
  { apply cleanup_wipes; [exact Hne| |rewrite Hmarker; discriminate].
    rewrite Hout. destruct (produced env); discriminate. }
  unfold events, code, after. simpl fst. simpl snd.
  split; [reflexivity|]. split; [reflexivity|].
  unfold unregister, on_disk, cancel, register, set_processes, set_disk, Sup.cleanup.
  simpl. fold d3. split; [apply Hw|]. split; [apply Hw|]. set_solver.
Qed.

End Cancellation.

(** C3 (as amended).  When the context is canceled while ffmpeg runs, the
    task of the sequential program sends the interrupt signal to ffmpeg,
    waits up to 5 seconds for it to exit, kills it only if it has not, then
    removes the partial output and the marker, unregisters the process and
    reports Canceled.  The task of the supervised worker pool kills ffmpeg
    at once, without a signal or a grace period, unregisters it, then
    removes the partial output and the marker and reports Canceled. *)
Theorem cancellation_while_running
    (file : Common.VideoFile) (threads : Z) (env : Common.Env)
    (w : Common.World) (exits_in_grace : bool) :
  Common.completion env = Common.CancelFirst exits_in_grace →
  (let out := Common.output_path Seq.convertedDir Seq.outputExtension file in
   let marker := FilePath.add_suffix out ".incomplete" in
   let r := Seq.processFile file threads env w in
   In (Common.EvStart out threads) (Common.events r) →
   Common.events r
   = [Common.EvMkdirAll (FilePath.Join (Common.sourceDir file) Seq.convertedDir);
      Common.EvWriteMarker marker; Common.EvStart out threads;
      Common.EvRegister (Common.pid env);
      Common.EvInterrupt (Common.pid env); Common.EvGrace 5]
     ++ (if exits_in_grace then [] else [Common.EvKill (Common.pid env)])
     ++ [Common.EvRemove out; Common.EvRemove marker;
         Common.EvUnregister (Common.pid env)]
   ∧ Common.code r = 3%Z
   ∧ Common.disk (Common.after r) !! out = None
   ∧ Common.disk (Common.after r) !! marker = None
   ∧ Common.pid env ∉ Common.processes (Common.after r))
  ∧ (let out := Common.output_path Sup.CONVERTED_DIR Sup.OUTPUT_EXTENSION file in
     let marker := FilePath.add_suffix out ".incomplete" in
     let r := Sup.processFile file threads env w in
     In (Common.EvStart out threads) (Common.events r) →
     Common.events r
     = [Common.EvMkdirAll (FilePath.Join (Common.sourceDir file) Sup.CONVERTED_DIR);
        Common.EvWriteMarker marker; Common.EvStart out threads;
        Common.EvRegister (Common.pid env);
        Common.EvKill (Common.pid env); Common.EvUnregister (Common.pid env);
        Common.EvRemove out; Common.EvRemove marker]
     ∧ Common.code r = 3%Z
     ∧ Common.disk (Common.after r) !! out = None
     ∧ Common.disk (Common.after r) !! marker = None
     ∧ Common.pid env ∉ Common.processes (Common.after r)).
Proof.
  intros Hc. split.
  - exact (sequential_cancel file threads env w exits_in_grace Hc).
  - exact (supervised_cancel file threads env w exits_in_grace Hc).
Qed.

Lemma cancellation_while_running_witness :
  Common.completion Sample.interrupted = Common.CancelFirst true
  ∧ Common.code (Seq.processFile Sample.clip 2 Sample.interrupted Sample.world) = 3%Z
  ∧ Common.code (Sup.processFile Sample.clip 2 Sample.interrupted Sample.world) = 3%Z.
Proof.
  split; [reflexivity|].
  destruct (cancellation_while_running Sample.clip 2 Sample.interrupted Sample.world
              true eq_refl) as [Hseq Hsup].
  split.
  - destruct Hseq as (_ & Hcode & _); [vm_compute; auto|exact Hcode].
  - destruct Hsup as (_ & Hcode & _); [vm_compute; auto|exact Hcode].
Defined.

(** C3 does not hold of the supervised worker pool: ffmpeg
    would have stopped within the grace period, and the task kills it
    without sending the interrupt signal and without waiting. *)
Lemma supervised_cancel_kills_at_once :
  let r := Sup.processFile Sample.clip 2 Sample.interrupted Sample.world in
  Common.code r = 3%Z
  ∧ In (Common.EvKill 4242) (Common.events r)
  ∧ ¬ In (Common.EvInterrupt 4242) (Common.events r)
  ∧ (∀ seconds, ¬ In (Common.EvGrace seconds) (Common.events r)).
Proof.
  vm_compute. repeat split.
  - auto 10.
  - intros H. repeat (destruct H as [H|H]; [discriminate H|]). exact H.
  - intros seconds H. repeat (destruct H as [H|H]; [discriminate H|]). exact H.
Qed.

(** ** Files whose output is in place *)

Section Skipping.
Import FilePath FS Walker Common Measure.
Local Open Scope Z_scope.

Lemma set_disk_same (w : World) : set_disk (disk w) w = w.
Proof. destruct w. reflexivity. Qed.

Lemma sequential_skip (file : VideoFile) (threads : Z) (env : Env) (w : World) :
  done_on (disk w) file →
  (∀ output t, ¬ In (EvStart output t) (events (Seq.processFile file threads env w)))
  ∧ (canceled w = false → stat_source_ok env = true →
     Seq.processFile file threads env w
     = (1, w, [EvMkdirAll (Join (sourceDir file) Seq.convertedDir); EvSkip])).
Proof.
  intros [Hdir Hout]. unfold Seq.processFile, MkdirAll. cbv zeta.
  change Seq.convertedDir with "converted". change Seq.outputExtension with ".mkv".
  rewrite Hdir, Hout, set_disk_same.
  destruct (canceled w); [split; [intros ?? []|discriminate]|].
  destruct (stat_source_ok env); simpl negb; cbv iota; [|split; [intros ?? []|discriminate]].
  split; [|reflexivity]. intros output t H. simpl in H. intuition discriminate.
Qed.

Lemma supervised_skip (file : VideoFile) (threads : Z) (env : Env) (w : World) :
  done_on (disk w) file →
  (∀ output t, ¬ In (EvStart output t) (events (Sup.processFile file threads env w)))
  ∧ (canceled w = false →
     Sup.processFile file threads env w
     = (1, w, [EvMkdirAll (Join (sourceDir file) Sup.CONVERTED_DIR); EvSkip])).
Proof.
  intros [Hdir Hout]. unfold Sup.processFile, Sup.launch, MkdirAll. cbv zeta.
  change Sup.CONVERTED_DIR with "converted". change Sup.OUTPUT_EXTENSION with ".mkv".
  rewrite Hdir, Hout, set_disk_same.
  destruct (canceled w); [split; [intros ?? []|discriminate]|].
  split; [|reflexivity]. intros output t H. simpl in H. intuition discriminate.
Qed.

Lemma pool_launch_skip (file : VideoFile) (numCPU : Z) (env : Env)
    (d : gmap path entry) :
  done_on d file →
  Pool.launch file numCPU env d
  = Pool.Over 1 d [EvMkdirAll (Join (sourceDir file) Pool.CONVERTED_DIR); EvSkip].
Proof.
  intros [Hdir Hout]. unfold Pool.launch, MkdirAll. cbv zeta.
  change Pool.CONVERTED_DIR with "converted". change Pool.OUTPUT_EXTENSION with ".mkv".
  rewrite Hdir, Hout. reflexivity.
Qed.

Lemma pool_skip (file : VideoFile) (numCPU : Z) (env : Env) (d : gmap path entry) :
  done_on d file →
  Pool.processFile file numCPU env d
  = (1, d, [EvMkdirAll (Join (sourceDir file) Pool.CONVERTED_DIR); EvSkip]).
Proof.
  intros Hdone. unfold Pool.processFile.
  rewrite (pool_launch_skip file numCPU env d Hdone). reflexivity.
Qed.

Lemma sequential_loop_skips (len_files threads : Z) (w : World) (jobs : list Seq.Job) :
  canceled w = false →
  Forall (λ job, Seq.arrival job = Seq.NoSignal
                 ∧ stat_source_ok (Seq.env job) = true
                 ∧ done_on (disk w) (Seq.file job)) jobs →
  ∀ c, Seq.loop len_files threads jobs c w
       = {| Seq.counts := skipped_more (Z.of_nat (length jobs)) c;
            Seq.results := map (λ _, 1) jobs;
            Seq.final := w;
            Seq.trace :=
              flat_map (λ job, [EvMkdirAll (Join (sourceDir (Seq.file job)) Seq.convertedDir);
                                EvSkip]) jobs |}.
Proof.
  intros Hlive Hjobs. induction Hjobs as [|job jobs (Harr & Hstat & Hdone) _ IH]; intros c.
  - simpl. destruct c. unfold skipped_more. simpl. rewrite Z.add_0_r. reflexivity.
  - cbn [Seq.loop]. rewrite Harr, Hlive.
    destruct (sequential_skip (Seq.file job) threads (Seq.env job) w Hdone) as [_ ->];
      [|exact Hlive|exact Hstat].
    rewrite IH. cbn [Seq.counts Seq.results Seq.final Seq.trace map flat_map length].
    f_equal. unfold skipped_more, tally. simpl.
    destruct c; simpl. f_equal. lia.
Qed.
End Skipping.

Section PoolSkipping.
Import FilePath FS Walker Common Measure.
Local Open Scope Z_scope.

Variables (numCPU : Z) (d : gmap path entry) (n : nat).

Lemma pool_exec1_skips (m : Pool.Move) (s s' : Pool.Sched) :
  all_skipping d n s → Pool.exec1 numCPU m s = Some s' → all_skipping d n s'.
Proof.
  intros (Hd & Hq & Hr & k & Hc & Hk) Hstep. destruct m as [|i|i]; simpl in Hstep.
  - destruct (Pool.queue s) as [|job rest] eqn:Hqueue; [discriminate|].
    destruct (decide _); [|discriminate]. injection Hstep as <-.
    inversion Hq as [|? ? Hjob Hrest]; subst.
    repeat split; simpl; try assumption.
    + apply Forall_app. split; [assumption|]. constructor; [assumption|constructor].
    + exists k. split; [assumption|]. rewrite length_app. simpl in *. lia.
  - destruct (Pool.running s !! i) as [[job|job started]|] eqn:Hi; try discriminate.
    assert (Hjob : done_on d (Pool.file job)).
    { rewrite Forall_lookup in Hr. exact (Hr i _ Hi). }
    rewrite Hd, (pool_launch_skip _ numCPU _ d Hjob) in Hstep.
    unfold Pool.leave in Hstep.
    destruct (Pool.semaphore s) as [|slots]; [discriminate|].
    injection Hstep as <-.
    repeat split; simpl; try assumption.
    + apply Forall_delete. assumption.
    + exists (S k). split.
      * rewrite Hc. unfold Pool.tally3, tally, skipped_more. simpl. f_equal. lia.
      * assert (Hlen := length_delete (Pool.running s) i (mk_is_Some _ _ Hi)).
        apply lookup_lt_Some in Hi. lia.
  - destruct (Pool.running s !! i) as [[job|job started]|] eqn:Hi; try discriminate.
    rewrite Forall_lookup in Hr. destruct (Hr i _ Hi).
Qed.

Lemma pool_exec_skips (schedule : list Pool.Move) :
  ∀ s s', all_skipping d n s → Pool.exec numCPU schedule s = Some s' → all_skipping d n s'.
Proof.
  induction schedule as [|m ms IH]; intros s s' Hs Hrun; simpl in Hrun.
  - injection Hrun as <-. exact Hs.
  - destruct (Pool.exec1 numCPU m s) as [s1|] eqn:Hstep; [|discriminate].
    apply (IH s1 s'); [|exact Hrun]. exact (pool_exec1_skips m s s1 Hs Hstep).
Qed.

Lemma pool_run_skips (jobs : list Pool.Job) (schedule : list Pool.Move)
    (s : Pool.Sched) :
  length jobs = n →
  Forall (λ job, done_on d (Pool.file job)) jobs →
  Pool.processFiles jobs numCPU d schedule = Some s →
  Pool.drained s = true →
  Pool.counts s = skipped_more (Z.of_nat n) zero ∧ Pool.disk s = d.
Proof.
  intros Hn Hjobs Hrun Hdrained.
  assert (Hs : all_skipping d n s).
  { apply (pool_exec_skips schedule (Pool.start jobs d) s); [|exact Hrun].
    repeat split; simpl; [assumption|constructor|].
    exists 0%nat. split; [reflexivity|]. simpl. lia. }
  destruct Hs as (Hd & _ & _ & k & Hc & Hk). split; [|exact Hd].
  unfold Pool.drained in Hdrained.
  destruct (Pool.queue s); [|discriminate].
  destruct (Pool.running s); [|discriminate].
  simpl in Hk. rewrite Hc. f_equal. lia.
Qed.

End PoolSkipping.

Section SupSkipping.
Import FilePath FS Walker Common Measure.
Local Open Scope Z_scope.

Variables (threads : Z) (w : World) (n : nat).
Hypothesis live : canceled w = false.

Lemma supervised_launch_skip (file : VideoFile) (env : Env) :
  done_on (disk w) file →
  Sup.launch file threads env w
  = Sup.Over 1 w [EvMkdirAll (Join (sourceDir file) Sup.CONVERTED_DIR); EvSkip].
Proof using live.
  intros [Hdir Hout]. unfold Sup.launch, MkdirAll. cbv zeta.
  change Sup.CONVERTED_DIR with "converted". change Sup.OUTPUT_EXTENSION with ".mkv".
  rewrite live, Hdir, Hout, set_disk_same. reflexivity.
Qed.

Lemma sup_exec1_skips (len_files : Z) (m : Sup.Move) (s s' : Sup.Sched) :
  match m with Sup.Interrupt | Sup.Panic _ => False | _ => True end →
  sup_all_skipping w n s → Sup.exec1 len_files threads m s = Some s' →
  sup_all_skipping w n s'.
Proof using live.
  intros Hm (Hw & Hq & Hsend & Hr & k & Hc & Hk) Hstep.
  destruct m as [| | |i|i|i]; simpl in Hstep; try contradiction.
  - destruct (Sup.sending s) eqn:Hs; [discriminate|].
    destruct (Sup.queue s) as [|job rest] eqn:Hqueue; [discriminate|].
    injection Hstep as <-. rewrite Hw, live.
    apply Forall_cons in Hq as [Hjob Hrest].
    split; [reflexivity|]. split; [exact Hrest|]. split.
    { simpl. intros job' [= <-]. exact Hjob. }
    split; [exact Hr|]. exists k. split; [exact Hc|]. simpl in *. lia.
  - destruct (Sup.sending s) as [job|] eqn:Hs; [|discriminate].
    destruct (decide _); [|discriminate]. injection Hstep as <-.
    split; [exact Hw|]. split; [exact Hq|]. split; [discriminate|]. split.
    { simpl. apply Forall_app. split; [exact Hr|].
      constructor; [exact (Hsend job eq_refl)|constructor]. }
    exists k. split; [exact Hc|]. simpl. rewrite length_app. simpl. lia.
  - destruct (Sup.running s !! i) as [[job|job started]|] eqn:Hi; try discriminate.
    assert (Hjob : done_on (disk w) (Sup.file job)).
    { rewrite Forall_lookup in Hr. exact (Hr i _ Hi). }
    rewrite Hw, (supervised_launch_skip _ (Sup.env job) Hjob) in Hstep.
    unfold Sup.leave in Hstep.
    destruct (Sup.semaphore s) as [|slots]; [discriminate|].
    injection Hstep as <-.
    split; [reflexivity|]. split; [exact Hq|]. split; [exact Hsend|]. split.
    { simpl. apply Forall_delete. exact Hr. }
    exists (S k). split.
    + simpl. rewrite Hc. unfold tally, skipped_more. simpl. f_equal. lia.
    + simpl. assert (Hlen := length_delete (Sup.running s) i (mk_is_Some _ _ Hi)).
      apply lookup_lt_Some in Hi. lia.
  - destruct (Sup.running s !! i) as [[job|job started]|] eqn:Hi; try discriminate.
    rewrite Forall_lookup in Hr. destruct (Hr i _ Hi).
Qed.

Lemma sup_exec_skips (len_files : Z) (schedule : list Sup.Move) :
  Forall (λ m, match m with Sup.Interrupt | Sup.Panic _ => False | _ => True end)
         schedule →
  ∀ s s', sup_all_skipping w n s →
          Sup.exec len_files threads schedule s = Some s' →
          sup_all_skipping w n s'.
Proof using live.
  induction 1 as [|m ms Hm _ IH]; intros s s' Hs Hrun; simpl in Hrun.
  - injection Hrun as <-. exact Hs.
  - destruct (Sup.exec1 len_files threads m s) as [s1|] eqn:Hstep; [|discriminate].
    apply (IH s1 s'); [|exact Hrun]. exact (sup_exec1_skips _ m s s1 Hm Hs Hstep).
Qed.

Lemma sup_all_skipping_idle (s : Sup.Sched) :
  sup_all_skipping w n s → Sup.alive (Sup.running s) = 0%nat.
Proof.
  intros (_ & _ & _ & Hr & _).
  induction Hr as [|[job|job started] gs Hg _ IH]; [reflexivity|exact IH|destruct Hg].
Qed.

Lemma sup_run_skips (jobs : list Sup.Job) (schedule : list Sup.Move)
    (s : Sup.Sched) :
  length jobs = n →
  Forall (λ job, done_on (disk w) (Sup.file job)) jobs →
  Forall (λ m, match m with Sup.Interrupt | Sup.Panic _ => False | _ => True end)
         schedule →
  Sup.processFiles jobs threads w schedule = Some s →
  Sup.world s = w
  ∧ Sup.alive (Sup.running s) = 0%nat
  ∧ (Sup.drained s = true → Sup.counts s = skipped_more (Z.of_nat n) zero).
Proof using live.
  intros Hn Hjobs Hms Hrun.
  assert (Hs : sup_all_skipping w n s).
  { apply (sup_exec_skips (Z.of_nat (length jobs)) schedule Hms
             (Sup.start jobs w) s); [|exact Hrun].
    split; [reflexivity|]. split; [exact Hjobs|]. split; [discriminate|].
    split; [constructor|]. exists 0%nat. split; [reflexivity|]. simpl. lia. }
  split; [apply Hs|]. split; [exact (sup_all_skipping_idle s Hs)|].
  destruct Hs as (_ & _ & _ & _ & k & Hc & Hk). intros Hdrained.
  unfold Sup.drained in Hdrained.
  destruct (Sup.queue s); [|discriminate].
  destruct (Sup.sending s); [discriminate|].
  destruct (Sup.running s); [|discriminate].
  simpl in Hk. rewrite Hc. f_equal. lia.
Qed.

End SupSkipping.

(** ** What a task that succeeded leaves *)

Section DoneAfter.
Import FilePath FS Walker Common Measure.
Local Open Scope Z_scope.

Lemma Join_differs (dir : path) (name : string) : Join dir name ≠ dir.
Proof.
  unfold Join. intros Heq. apply (f_equal length) in Heq.
  rewrite length_app in Heq. simpl in Heq. lia.
Qed.

Lemma add_suffix_Join (dir : path) (name suffix : string) :
  add_suffix (Join dir name) suffix = Join dir (name +:+ suffix).
Proof.
  unfold add_suffix, Dir, Base, Join. rewrite removelast_last, last_last. reflexivity.
Qed.

Lemma MkdirAll_directory (ok : bool) (p : path) (d d1 : gmap path entry) :
  MkdirAll ok p d = Some d1 →
  d1 !! p = Some EDir ∧ ∀ q, q ≠ p → d1 !! q = d !! q.
Proof.
  unfold MkdirAll. destruct (d !! p) as [[size|]|] eqn:Hp; try discriminate.
  - intros [= <-]. split; [exact Hp|reflexivity].
  - destruct ok; [|discriminate]. intros [= <-]. split.
    + apply lookup_insert_eq.
    + intros q Hq. apply lookup_insert_ne. congruence.
Qed.

Lemma supervised_done_after (file : VideoFile) (threads : Z) (env : Env) (w : World) :
  let r := Sup.processFile file threads env w in
  code r = 0 ∨ code r = 1 → canceled w = false ∧ done_on (disk (after r)) file.
Proof.
  intros r. subst r. unfold Sup.processFile, Sup.launch, Sup.settle, done_on.
  cbv zeta.
  change Sup.CONVERTED_DIR with "converted". change Sup.OUTPUT_EXTENSION with ".mkv".
  set (dir := Join (sourceDir file) "converted").
  set (out := output_path "converted" ".mkv" file).
  set (marker := add_suffix out ".incomplete").
  destruct (canceled w); [simpl; intuition discriminate|].
  destruct (MkdirAll _ _ _) as [d1|] eqn:Hmk; [|simpl; intuition discriminate].
  apply MkdirAll_directory in Hmk as [Hdir _].
  destruct (exists_at d1 out) eqn:Hex; [intros _; split; [reflexivity|]; split; assumption|].
  apply exists_at_false in Hex.
  destruct (marker_ok env); [|simpl; intuition discriminate].
  destruct (start_ok env); [|simpl; intuition discriminate].
  simpl negb. cbv iota.
  assert (Hne : marker ≠ out) by (apply marker_differs; discriminate).
  assert (Hout_dir : out ≠ dir) by apply Join_differs.
  assert (Hmarker_dir : marker ≠ dir).
  { subst marker out. unfold output_path. rewrite add_suffix_Join. apply Join_differs. }
  destruct (after_transcode out marker env d1 Hne Hex) as [Hout Hmarker].
  set (d3 := transcode out env (<[marker:=EFile (stamp_size env)]> d1)) in *.
  assert (Hd3 : d3 !! dir = Some EDir).
  { subst d3. rewrite transcode_other by exact Hout_dir.
    rewrite lookup_insert_ne by exact Hmarker_dir. exact Hdir. }
  cbv beta iota.
  destruct (completion env) as [grace|[|] c]; [simpl; intuition discriminate| |].
  - simpl negb. cbv iota.
    remember (unregister (pid env) _) as w4 eqn:Hw4.
    assert (Hd : disk w4 = d3) by (subst w4; destruct c; reflexivity).
    rewrite Hd. destruct (Sup.intact d3 out) eqn:Hint; [|simpl; intuition discriminate].
    intros _. split; [reflexivity|].
    unfold after, on_disk, set_disk. simpl. rewrite Hd. split.
    + rewrite Remove_other by exact Hmarker_dir. exact Hd3.
    + unfold exists_at. rewrite Remove_other by exact Hne.
      unfold Sup.intact in Hint. destruct (d3 !! out); [reflexivity|discriminate].
  - simpl negb. cbv iota. destruct (canceled _); simpl; intuition discriminate.
Qed.
End DoneAfter.

(** C5 (as amended).  A task whose output path exists, in its [converted]
    directory, when the task starts never starts ffmpeg; it reports Skipped
    unless the context is already canceled (then it reports Canceled) or, in
    the sequential program, the source cannot be examined (then it reports
    Failed).  Consequently a run that is not interrupted, over files that
    all have their output (in the sequential program, files whose source can
    be examined; in the supervised worker pool, a run in which no goroutine
    panics), reports every file Skipped and none Succeeded, starts no ffmpeg
    and leaves the disk as it was; and in the supervised worker pool a file
    whose task ended Succeeded or Skipped is Skipped by the next task on
    it. *)
Theorem existing_output_is_skipped
    (file : Common.VideoFile) (threads numCPU : Z) (env : Common.Env)
    (w : Common.World) :
  Measure.done_on (Common.disk w) file →
  ((∀ output t,
       ¬ In (Common.EvStart output t)
            (Common.events (Seq.processFile file threads env w)))
   ∧ (Common.canceled w = false → Common.stat_source_ok env = true →
      Seq.processFile file threads env w
      = (1%Z, w, [Common.EvMkdirAll (FilePath.Join (Common.sourceDir file) Seq.convertedDir);
                  Common.EvSkip])))
  ∧ ((∀ output t,
         ¬ In (Common.EvStart output t)
              (Common.events (Sup.processFile file threads env w)))
     ∧ (Common.canceled w = false →
        Sup.processFile file threads env w
        = (1%Z, w, [Common.EvMkdirAll (FilePath.Join (Common.sourceDir file) Sup.CONVERTED_DIR);
                    Common.EvSkip])))
  ∧ Pool.processFile file numCPU env (Common.disk w)
    = (1%Z, Common.disk w,
       [Common.EvMkdirAll (FilePath.Join (Common.sourceDir file) Pool.CONVERTED_DIR);
        Common.EvSkip])
  ∧ (∀ jobs : list Seq.Job,
        Common.canceled w = false →
        Forall (λ job, Seq.arrival job = Seq.NoSignal
                       ∧ Common.stat_source_ok (Seq.env job) = true
                       ∧ Measure.done_on (Common.disk w) (Seq.file job)) jobs →
        let run := Seq.processFiles jobs threads w in
        Seq.counts run = Measure.skipped_more (Z.of_nat (length jobs)) Common.zero
        ∧ Seq.results run = map (λ _, 1%Z) jobs
        ∧ Seq.final run = w
        ∧ Measure.starts (Seq.trace run) = 0%nat)
  ∧ (∀ (jobs : list Pool.Job) schedule s,
        Forall (λ job, Measure.done_on (Common.disk w) (Pool.file job)) jobs →
        Pool.processFiles jobs numCPU (Common.disk w) schedule = Some s →
        Pool.drained s = true →
        Pool.counts s = Measure.skipped_more (Z.of_nat (length jobs)) Common.zero
        ∧ Pool.disk s = Common.disk w)
  ∧ (∀ earlier env1 env2 w1,
        let r := Sup.processFile earlier threads env1 w1 in
        Common.code r = 0%Z ∨ Common.code r = 1%Z →
        Common.canceled (Common.after r) = false →
        Sup.processFile earlier threads env2 (Common.after r)
        = (1%Z, Common.after r,
           [Common.EvMkdirAll (FilePath.Join (Common.sourceDir earlier) Sup.CONVERTED_DIR);
            Common.EvSkip]))
  ∧ (∀ (jobs : list Sup.Job) schedule s,
        Common.canceled w = false →
        Forall (λ job, Measure.done_on (Common.disk w) (Sup.file job)) jobs →
        Measure.quiet schedule → Runs.no_panic schedule →
        Sup.processFiles jobs threads w schedule = Some s →
        Sup.world s = w
        ∧ Sup.alive (Sup.running s) = 0%nat
        ∧ (Sup.drained s = true →
           Sup.counts s
           = Measure.skipped_more (Z.of_nat (length jobs)) Common.zero))
  ∧ (Common.canceled w = true →
     Common.code (Seq.processFile file threads env w) = 3%Z
     ∧ Common.code (Sup.processFile file threads env w) = 3%Z)
  ∧ (Common.canceled w = false → Common.stat_source_ok env = false →
     Common.code (Seq.processFile file threads env w) = 2%Z)
  ∧ (∀ (jobs : list Pool.Job) schedule s,
        Forall (λ job, Measure.done_on (Common.disk w) (Pool.file job)) jobs →
        Pool.processFiles jobs numCPU (Common.disk w) schedule = Some s →
        Pool.disk s = Common.disk w ∧ Pool.alive (Pool.running s) = 0%nat).
Proof.
  intros Hdone.
  split; [|split; [|split; [|split; [|split; [|split; [|split; [|split; [|split]]]]]]]].
  10:{ intros jobs schedule s Hjobs Hrun.
      assert (Hs : Measure.all_skipping (Common.disk w) (length jobs) s).
      { apply (pool_exec_skips numCPU (Common.disk w) (length jobs) schedule
                 (Pool.start jobs (Common.disk w)) s); [|exact Hrun].
        repeat split; simpl; [assumption|constructor|].
        exists 0%nat. split; [reflexivity|]. simpl. lia. }
      destruct Hs as (Hd & _ & Hr & _). split; [exact Hd|].
      induction Hr as [|[job|job started] gs Hg _ IH];
        [reflexivity|exact IH|destruct Hg]. }
  8:{ intros Hc. unfold Seq.processFile, Sup.processFile, Sup.launch.
      rewrite Hc. split; reflexivity. }
  8:{ intros Hc Hstat. unfold Seq.processFile. rewrite Hc, Hstat. reflexivity. }
  7:{ intros jobs schedule s Hlive Hjobs Hquiet Hcalm Hrun.
      apply (sup_run_skips threads w (length jobs) Hlive jobs schedule s eq_refl
               Hjobs); [|exact Hrun].
      clear Hrun. induction schedule as [|m ms IH]; constructor.
      - apply Forall_cons in Hquiet as [Hm _]. apply Forall_cons in Hcalm as [Hp _].
        destruct m; try exact I; [contradiction Hm; reflexivity|exact Hp].
      - apply Forall_cons in Hquiet as [_ Hq]. apply Forall_cons in Hcalm as [_ Hp].
        exact (IH Hq Hp). }
  - exact (sequential_skip file threads env w Hdone).
  - exact (supervised_skip file threads env w Hdone).
  - exact (pool_skip file numCPU env (Common.disk w) Hdone).
  - intros jobs Hlive Hjobs run. subst run. unfold Seq.processFiles.
    rewrite (sequential_loop_skips _ threads w jobs Hlive Hjobs). simpl.
    repeat split. clear Hjobs. induction jobs as [|job jobs IH]; [reflexivity|exact IH].
  - intros jobs schedule s Hjobs Hrun Hdrained.
    exact (pool_run_skips numCPU (Common.disk w) (length jobs) jobs schedule s
             eq_refl Hjobs Hrun Hdrained).
  - intros earlier env1 env2 w1 r Hcode Hlive.
    destruct (supervised_done_after earlier threads env1 w1 Hcode) as [_ Hleft].
    destruct (supervised_skip earlier threads env2 (Common.after r) Hleft)
      as [_ Hskip].
    exact (Hskip Hlive).
Qed.

Lemma existing_output_is_skipped_witness :
  Measure.done_on (Common.disk Sample.leftover) Sample.clip
  ∧ Sup.processFile Sample.clip 2 Sample.good Sample.leftover
    = (1%Z, Sample.leftover,
       [Common.EvMkdirAll ["videos"; "converted"]; Common.EvSkip]).
Proof.
  assert (Hdone : Measure.done_on (Common.disk Sample.leftover) Sample.clip)
    by (split; reflexivity).
  split; [exact Hdone|].
  destruct (existing_output_is_skipped Sample.clip 2 8 Sample.good Sample.leftover
              Hdone) as (_ & (_ & Hsup) & _).
  exact (Hsup eq_refl).
Defined.

(** C5 does not hold as it stands.  With the output in place and the
    context canceled the task reports Canceled, not Skipped; and when ffmpeg
    fails on a file, a second run over the same tree processes the file
    again: it is Failed once more, not Skipped. *)
Lemma second_run_not_all_skipped :
  let job := {| Seq.file := Sample.clip; Seq.env := Sample.failing;
                Seq.arrival := Seq.NoSignal |} in
  let first := Seq.processFiles [job] 2 Sample.world in
  let second := Seq.processFiles [job] 2 (Seq.final first) in
  Seq.results first = [2%Z]
  ∧ Seq.results second = [2%Z]
  ∧ Common.skipCount (Seq.counts second) = 0%Z
  ∧ Measure.starts (Seq.trace second) = 1%nat
  ∧ Measure.done_on (Common.disk Sample.leftover) Sample.clip
  ∧ Common.code (Sup.processFile Sample.clip 2 Sample.good
                   (Common.cancel Sample.leftover)) = 3%Z
  ∧ Common.code (Seq.processFile Sample.clip 2 Sample.good
                   (Common.cancel Sample.leftover)) = 3%Z.
Proof. vm_compute. repeat split; reflexivity. Qed.

(** C2.  What the programs do at the start of a run on a tree that a killed
    run left behind (the partial output [clip.mkv] and its marker): nothing
    is swept.  In the sequential program [cleanupIncompleteFiles] is never
    called (and would remove the marker only); in the supervised worker pool
    it would remove both, and is called by [Shutdown] only.  Whatever ffmpeg and the operating
    system would do, the marker and the partial output are still there at
    the end of the run, ffmpeg is never started, and an undisturbed run
    reports the file Skipped. *)
Theorem leftover_marker_survives_startup :
  let out := ["videos"; "converted"; "clip.mkv"] in
  let marker := ["videos"; "converted"; "clip.mkv.incomplete"] in
  (∀ plan, ∃ run,
      Seq.main [] Sample.crashed 2 plan = Some run
      ∧ Common.disk (Seq.final run) !! marker = Some (FS.EFile 51)
      ∧ Common.disk (Seq.final run) !! out = Some (FS.EFile 10)
      ∧ Measure.starts (Seq.trace run) = 0%nat)
  ∧ (∃ run,
        Seq.main [] Sample.crashed 2 (λ _, (Sample.good, Seq.NoSignal)) = Some run
        ∧ Seq.results run = [1%Z])
  ∧ Seq.cleanupIncompleteFiles [] Sample.crashed (Common.disk Sample.leftover) !! out
    = Some (FS.EFile 10)
  ∧ Sup.cleanupIncompleteFiles [] Sample.crashed (Common.disk Sample.leftover) !! out
    = None
  ∧ Sup.cleanupIncompleteFiles [] Sample.crashed (Common.disk Sample.leftover) !! marker
    = None
  ∧ Sup.findVideoFiles [] Sample.crashed = ([Sample.clip], None)
  ∧ (∀ env, Sup.processFile Sample.clip 2 env Sample.leftover
            = (1%Z, Sample.leftover,
               [Common.EvMkdirAll ["videos"; "converted"]; Common.EvSkip])).
Proof.
  intros out marker.
  assert (Hdone : Measure.done_on (Common.disk Sample.leftover) Sample.clip)
    by (split; reflexivity).
  assert (Hfound : Seq.findVideoFiles [] Sample.crashed = ([Sample.clip], None))
    by reflexivity.
  split; [|split; [|split; [|split; [|split; [|split]]]]].
  - intros plan. unfold Seq.main. rewrite Hfound.
    destruct (plan Sample.clip) as [env arrival] eqn:Hplan.
    eexists. split; [reflexivity|].
    unfold Seq.processFiles. cbn [map length Seq.loop Seq.file Seq.env Seq.arrival].
    rewrite Hplan. cbn [fst snd].
    change {| Common.disk := FS.flatten (FilePath.Join [] (FS.node_name Sample.crashed))
                               Sample.crashed ∅;
              Common.processes := ∅; Common.canceled := false |}
      with Sample.leftover.
    destruct (sequential_skip Sample.clip 2 env Sample.leftover Hdone) as [_ Hskip].
    destruct arrival; cbn [Common.canceled Common.cancel Sample.leftover].
    + destruct (Common.stat_source_ok env) eqn:Hstat.
      * rewrite (Hskip eq_refl eq_refl). repeat split.
      * unfold Seq.processFile. cbn [Common.canceled Sample.leftover].
        rewrite Hstat. repeat split.
    + repeat split.
    + repeat split.
  - eexists. split; reflexivity.
  - reflexivity.
  - reflexivity.
  - reflexivity.
  - reflexivity.
  - intros env.
    destruct (supervised_skip Sample.clip 2 env Sample.leftover Hdone) as [_ Hskip].
    exact (Hskip eq_refl).
Qed.

(** C10.  The output name is not injective on the files an enumeration
    returns: [clip.MOV] and [clip.mov], in one directory, are both selected
    by each of the three programs and both are given the output path
    [converted/clip.mkv].  In the sequential program, once the first of the
    two has its output the second never starts ffmpeg and is not
    Succeeded; in the worker pools the two tasks can both pass the test
    of the output path and have their ffmpeg processes alive together, on
    the one output path. *)
Theorem output_paths_collide :
  Sample.upper ≠ Sample.lower
  ∧ Common.sourceDir Sample.upper = Common.sourceDir Sample.lower
  ∧ fst (Seq.findVideoFiles [] Sample.twins) = [Sample.upper; Sample.lower]
  ∧ fst (Sup.findVideoFiles [] Sample.twins) = [Sample.upper; Sample.lower]
  ∧ fst (Pool.findVideoFiles [] Sample.twins) = [Sample.upper; Sample.lower]
  ∧ Common.output_path Seq.convertedDir Seq.outputExtension Sample.upper
    = ["videos"; "converted"; "clip.mkv"]
  ∧ Common.output_path Seq.convertedDir Seq.outputExtension Sample.lower
    = ["videos"; "converted"; "clip.mkv"]
  ∧ Common.output_path Sup.CONVERTED_DIR Sup.OUTPUT_EXTENSION Sample.upper
    = Common.output_path Sup.CONVERTED_DIR Sup.OUTPUT_EXTENSION Sample.lower
  ∧ Common.output_path Pool.CONVERTED_DIR Pool.OUTPUT_EXTENSION Sample.upper
    = Common.output_path Pool.CONVERTED_DIR Pool.OUTPUT_EXTENSION Sample.lower
  ∧ (∀ env,
        let run :=
          Seq.processFiles
            [{| Seq.file := Sample.upper; Seq.env := Sample.good;
                Seq.arrival := Seq.NoSignal |};
             {| Seq.file := Sample.lower; Seq.env := env;
                Seq.arrival := Seq.NoSignal |}] 2 Sample.pair in
        (Seq.results run = [0%Z; 1%Z] ∨ Seq.results run = [0%Z; 2%Z])
        ∧ Measure.starts (Seq.trace run) = 1%nat)
  ∧ (let first := {| Sup.file := Sample.upper; Sup.env := Sample.good |} in
     let second := {| Sup.file := Sample.lower; Sup.env := Sample.good |} in
     let started :=
       [Common.EvMkdirAll ["videos"; "converted"];
        Common.EvWriteMarker ["videos"; "converted"; "clip.mkv.incomplete"];
        Common.EvStart ["videos"; "converted"; "clip.mkv"] 2;
        Common.EvRegister 4242] in
     ∃ s, Sup.processFiles [first; second] 2 Sample.pair
            [Sup.Select; Sup.Acquire; Sup.Select; Sup.Acquire;
             Sup.Launch 0; Sup.Launch 1] = Some s
          ∧ Sup.running s = [Sup.Busy first started; Sup.Busy second started])
  ∧ (let first := {| Pool.file := Sample.upper; Pool.env := Sample.good |} in
     let second := {| Pool.file := Sample.lower; Pool.env := Sample.good |} in
     let started :=
       [Common.EvMkdirAll ["videos"; "converted"];
        Common.EvStart ["videos"; "converted"; "clip.mkv.tmp"] 2] in
     ∃ s, Pool.processFiles [first; second] 8 (Common.disk Sample.pair)
            [Pool.Acquire; Pool.Acquire; Pool.Launch 0; Pool.Launch 1] = Some s
          ∧ Pool.running s = [Pool.Busy first started; Pool.Busy second started]).
Proof.
  repeat match goal with |- _ ∧ _ => split end; try reflexivity.
  - discriminate.
  - intros env run. subst run.
    destruct env as [stat mk marker stamp st pid produced completion].
    destruct stat; vm_compute; auto.
  - eexists. split; reflexivity.
  - eexists. split; reflexivity.
Qed.


(** ** The worker pools *)

Section Ceiling.
Import FilePath FS Walker Common Measure.
Local Open Scope Z_scope.

(** The invariant, for the two pools. *)
Notation sup_bounded s :=
  (bounded (Sup.semaphore s) (length (Sup.running s)) Sup.MAX_WORKERS).
Notation pool_bounded s :=
  (bounded (Pool.semaphore s) (length (Pool.running s)) Pool.MAX_WORKERS).



Lemma sup_leave_bounded (i : nat) (g : Sup.Goroutine) (c : Counts) (w : World)
    (s s' : Sup.Sched) :
  sup_bounded s → Sup.running s !! i = Some g → Sup.leave i c w s = Some s' →
  sup_bounded s' ∧ S (Sup.semaphore s') = Sup.semaphore s.
Proof.
  intros [Hsem Hmax] Hi Hleave. unfold Sup.leave in Hleave.
  destruct (Sup.semaphore s) as [|slots] eqn:Hslots; [discriminate|].
  injection Hleave as <-.
  assert (Hlen := length_delete (Sup.running s) i (mk_is_Some _ _ Hi)).
  repeat split; simpl; lia.
Qed.

Lemma pool_leave_bounded (i : nat) (g : Pool.Goroutine) (c : Counts)
    (d : gmap path entry) (s s' : Pool.Sched) :
  pool_bounded s → Pool.running s !! i = Some g → Pool.leave i c d s = Some s' →
  pool_bounded s' ∧ S (Pool.semaphore s') = Pool.semaphore s.
Proof.
  intros [Hsem Hmax] Hi Hleave. unfold Pool.leave in Hleave.
  destruct (Pool.semaphore s) as [|slots] eqn:Hslots; [discriminate|].
  injection Hleave as <-.
  assert (Hlen := length_delete (Pool.running s) i (mk_is_Some _ _ Hi)).
  repeat split; simpl; lia.
Qed.

Lemma sup_exec1_bounded (len_files threads : Z) (m : Sup.Move) (s s' : Sup.Sched) :
  sup_bounded s → Sup.exec1 len_files threads m s = Some s' → sup_bounded s'.
Proof.
  intros Hs Hstep. assert (Hs' := Hs). destruct Hs' as [Hsem Hmax].
  destruct m as [| | |i|i|i]; simpl in Hstep.
  - injection Hstep as <-. exact Hs.
  - destruct (Sup.sending s); [discriminate|].
    destruct (Sup.queue s); [discriminate|]. injection Hstep as <-. exact Hs.
  - destruct (Sup.sending s); [|discriminate].
    destruct (decide _) as [Hfree|]; [|discriminate]. injection Hstep as <-.
    split; simpl; [rewrite length_app; simpl; lia|lia].
  - destruct (Sup.running s !! i) as [[job|job started]|] eqn:Hi; try discriminate.
    destruct (Sup.launch _ _ _ _) as [result w' evs|w' started].
    + exact (proj1 (sup_leave_bounded i _ _ _ s s' Hs Hi Hstep)).
    + injection Hstep as <-. split; simpl; [rewrite length_insert; lia|lia].
  - destruct (Sup.running s !! i) as [[job|job started]|] eqn:Hi; try discriminate.
    destruct (Sup.settle _ _ _ _) as [[result w'] evs].
    exact (proj1 (sup_leave_bounded i _ _ _ s s' Hs Hi Hstep)).
  - destruct (Sup.running s !! i) as [g|] eqn:Hi; [|discriminate].
    exact (proj1 (sup_leave_bounded i _ _ _ s s' Hs Hi Hstep)).
Qed.

Lemma sup_exec_bounded (len_files threads : Z) (schedule : list Sup.Move) :
  ∀ s s', sup_bounded s → Sup.exec len_files threads schedule s = Some s' →
          sup_bounded s'.
Proof.
  induction schedule as [|m ms IH]; intros s s' Hs Hrun; simpl in Hrun.
  - injection Hrun as <-. exact Hs.
  - destruct (Sup.exec1 len_files threads m s) as [s1|] eqn:Hstep; [|discriminate].
    exact (IH s1 s' (sup_exec1_bounded _ _ m s s1 Hs Hstep) Hrun).
Qed.

Lemma pool_exec1_bounded (numCPU : Z) (m : Pool.Move) (s s' : Pool.Sched) :
  pool_bounded s → Pool.exec1 numCPU m s = Some s' → pool_bounded s'.
Proof.
  intros Hs Hstep. assert (Hs' := Hs). destruct Hs' as [Hsem Hmax].
  destruct m as [|i|i]; simpl in Hstep.
  - destruct (Pool.queue s); [discriminate|].
    destruct (decide _) as [Hfree|]; [|discriminate]. injection Hstep as <-.
    split; simpl; [rewrite length_app; simpl; lia|lia].
  - destruct (Pool.running s !! i) as [[job|job started]|] eqn:Hi; try discriminate.
    destruct (Pool.launch _ _ _ _) as [result d' evs|d' started].
    + exact (proj1 (pool_leave_bounded i _ _ _ s s' Hs Hi Hstep)).
    + injection Hstep as <-. split; simpl; [rewrite length_insert; lia|lia].
  - destruct (Pool.running s !! i) as [[job|job started]|] eqn:Hi; try discriminate.
    destruct (Pool.settle _ _ _ _) as [[result d'] evs].
    exact (proj1 (pool_leave_bounded i _ _ _ s s' Hs Hi Hstep)).
Qed.

Lemma pool_exec_bounded (numCPU : Z) (schedule : list Pool.Move) :
  ∀ s s', pool_bounded s → Pool.exec numCPU schedule s = Some s' → pool_bounded s'.
Proof.
  induction schedule as [|m ms IH]; intros s s' Hs Hrun; simpl in Hrun.
  - injection Hrun as <-. exact Hs.
  - destruct (Pool.exec1 numCPU m s) as [s1|] eqn:Hstep; [|discriminate].
    exact (IH s1 s' (pool_exec1_bounded _ m s s1 Hs Hstep) Hrun).
Qed.



Lemma sup_run_bounded (jobs : list Sup.Job) (threads : Z) (w : World)
    (schedule : list Sup.Move) (s : Sup.Sched) :
  Sup.processFiles jobs threads w schedule = Some s →
  Sup.semaphore s = length (Sup.running s)
  ∧ Z.of_nat (Sup.semaphore s) <= Sup.MAX_WORKERS.
Proof.
  intros Hrun.
  apply (sup_exec_bounded (Z.of_nat (length jobs)) threads schedule
           (Sup.start jobs w) s); [|exact Hrun].
  split; simpl; [reflexivity|unfold Sup.MAX_WORKERS; lia].
Qed.

Lemma pool_run_bounded (jobs : list Pool.Job) (numCPU : Z) (d : gmap path entry)
    (schedule : list Pool.Move) (s : Pool.Sched) :
  Pool.processFiles jobs numCPU d schedule = Some s →
  Pool.semaphore s = length (Pool.running s)
  ∧ Z.of_nat (Pool.semaphore s) <= Pool.MAX_WORKERS.
Proof.
  intros Hrun.
  apply (pool_exec_bounded numCPU schedule (Pool.start jobs d) s); [|exact Hrun].
  split; simpl; [reflexivity|unfold Pool.MAX_WORKERS; lia].
Qed.

End Ceiling.

(** ** The sequential loop *)

Section Sequential.
Import FilePath FS Walker Common Measure.
Local Open Scope Z_scope.


Lemma peak_at_least (evs : list Event) : ∀ now, now <= peak now evs.
Proof. induction evs as [|ev evs IH]; intros now; simpl; lia. Qed.



(** [processFile] returns one of its four codes. *)
Lemma sequential_code (file : VideoFile) (threads : Z) (env : Env) (w : World) :
  ∃ o, outcome_of (code (Seq.processFile file threads env w)) = Some o.
Proof.
  unfold Seq.processFile. cbv zeta.
  destruct (canceled w); [simpl; eauto|].
  destruct (stat_source_ok env); [|simpl; eauto].
  destruct (MkdirAll _ _ _); [|simpl; eauto].
  destruct (exists_at _ _); [simpl; eauto|].
  destruct (marker_ok env); [|simpl; eauto].
  destruct (start_ok env); [|simpl; eauto].
  destruct (completion env) as [[|]|[|] c]; simpl; eauto.
Qed.

Lemma supervised_code (file : VideoFile) (threads : Z) (env : Env) (w : World) :
  ∃ o, outcome_of (code (Sup.processFile file threads env w)) = Some o.
Proof.
  unfold Sup.processFile, Sup.launch, Sup.settle. cbv zeta.
  destruct (canceled w); [simpl; eauto|].
  destruct (MkdirAll _ _ _); [|simpl; eauto].
  destruct (exists_at _ _); [simpl; eauto|].
  destruct (marker_ok env); [|simpl; eauto].
  destruct (start_ok env); [|simpl; eauto].
  destruct (completion env) as [grace|[|] c]; simpl; eauto.
  - destruct (Sup.intact _ _); simpl; eauto.
  - destruct (canceled _); simpl; eauto.
Qed.

Lemma tally_total (result : Z) (c : Counts) (o : Outcome) :
  outcome_of result = Some o → total (tally result c) = total c + 1.
Proof.
  unfold outcome_of, tally, total.
  repeat (destruct (decide _); [simpl; lia|]). discriminate.
Qed.

Lemma sequential_loop_total (len_files threads : Z) (jobs : list Seq.Job) :
  ∀ c w,
    total c + Z.of_nat (length jobs) = len_files →
    total (Seq.counts (Seq.loop len_files threads jobs c w)) = len_files.
Proof.
  induction jobs as [|job jobs IH]; intros c w Hsum; cbn [Seq.loop].
  - simpl in *. lia.
  - destruct (canceled _).
    + unfold rest_canceled, total. simpl. lia.
    + destruct (Seq.processFile _ _ _ _) as [[result w'] evs] eqn:Htask.
      cbn [Seq.counts]. apply IH.
      destruct (sequential_code (Seq.file job) threads (Seq.env job)
                  (match Seq.arrival job with
                   | Seq.BeforeTask =>
                       cancel (match Seq.arrival job with
                               | Seq.BeforeLoopCheck => cancel w
                               | _ => w
                               end)
                   | _ => match Seq.arrival job with
                          | Seq.BeforeLoopCheck => cancel w
                          | _ => w
                          end
                   end)) as [o Ho].
      rewrite Htask in Ho. unfold code in Ho. simpl in Ho.
      rewrite (tally_total result c o Ho).
      cbn [length] in Hsum. lia.
Qed.

End Sequential.


(** ** The counters of the supervised worker pool without an interrupt *)

Section Accounting.
Import FilePath FS Walker Common Measure.
Local Open Scope Z_scope.

Lemma sup_launch_calm (file : VideoFile) (threads : Z) (env : Env) (w : World) :
  canceled w = false →
  match Sup.launch file threads env w with
  | Sup.Over result w' _ =>
      (∃ o, outcome_of result = Some o) ∧ canceled w' = false
  | Sup.Waiting w' _ => canceled w' = false
  end.
Proof.
  intros Hlive. unfold Sup.launch. cbv zeta. rewrite Hlive.
  destruct (MkdirAll _ _ _); [|simpl; eauto].
  destruct (exists_at _ _); [simpl; eauto|].
  destruct (marker_ok env); [|simpl; eauto].
  destruct (start_ok env); simpl; eauto.
Qed.

Lemma sup_settle_calm (file : VideoFile) (env : Env) (w : World)
    (started : list Event) :
  canceled w = false → calm env →
  (∃ o, outcome_of (code (Sup.settle file env w started)) = Some o)
  ∧ canceled (after (Sup.settle file env w started)) = false.
Proof.
  intros Hlive [exit_ok Hc]. unfold Sup.settle. cbv zeta. rewrite Hc.
  destruct exit_ok; simpl negb; cbv iota.
  - destruct (Sup.intact _ _); simpl; eauto.
  - simpl. rewrite Hlive. simpl. eauto.
Qed.

Lemma sup_leave_accounted (len_files : Z) (i : nat) (g : Sup.Goroutine)
    (c : Counts) (w : World) (s s' : Sup.Sched) :
  accounted len_files s → Sup.running s !! i = Some g →
  total c = total (Sup.counts s) + 1 → canceled w = false →
  Sup.leave i c w s = Some s' → accounted len_files s'.
Proof.
  intros (Hlive & Hq & Hsend & Hr & Hsum) Hi Hc Hw Hleave.
  unfold Sup.leave in Hleave.
  destruct (Sup.semaphore s) as [|slots]; [discriminate|].
  injection Hleave as <-.
  assert (Hlen := length_delete (Sup.running s) i (mk_is_Some _ _ Hi)).
  apply lookup_lt_Some in Hi.
  repeat split; simpl; try assumption.
  - apply Forall_delete. exact Hr.
  - lia.
Qed.

Lemma sup_exec1_accounted (len_files threads : Z) (m : Sup.Move)
    (s s' : Sup.Sched) :
  m ≠ Sup.Interrupt → accounted len_files s →
  Sup.exec1 len_files threads m s = Some s' → accounted len_files s'.
Proof.
  intros Hm Hs Hstep. assert (Hs' := Hs).
  destruct Hs' as (Hlive & Hq & Hsend & Hr & Hsum).
  destruct m as [| | |i|i|i]; simpl in Hstep; [contradiction| | | | |].
  - destruct (Sup.sending s) eqn:Hsending; [discriminate|].
    destruct (Sup.queue s) as [|job rest] eqn:Hqueue; [discriminate|].
    injection Hstep as <-. rewrite Hlive.
    apply Forall_cons in Hq as [Hjob Hrest].
    repeat split; simpl; try assumption.
    + intros job' [= <-]. exact Hjob.
    + simpl in Hsum. lia.
  - destruct (Sup.sending s) as [job|] eqn:Hsending; [|discriminate].
    destruct (decide _); [|discriminate]. injection Hstep as <-.
    repeat split; simpl; try assumption.
    + discriminate.
    + apply Forall_app. split; [exact Hr|].
      constructor; [exact (Hsend job eq_refl)|constructor].
    + rewrite length_app. simpl. lia.
  - destruct (Sup.running s !! i) as [[job|job started]|] eqn:Hi; try discriminate.
    assert (Hcalm := sup_launch_calm (Sup.file job) threads (Sup.env job)
                       (Sup.world s) Hlive).
    destruct (Sup.launch _ _ _ _) as [result w' evs|w' started].
    + destruct Hcalm as [[o Ho] Hw'].
      eapply sup_leave_accounted; [exact Hs|exact Hi| |exact Hw'|exact Hstep].
      exact (tally_total result _ o Ho).
    + injection Hstep as <-.
      repeat split; simpl; try assumption.
      * apply Forall_insert; [exact Hr|]. simpl.
        rewrite Forall_lookup in Hr. exact (Hr i _ Hi).
      * rewrite length_insert. exact Hsum.
  - destruct (Sup.running s !! i) as [[job|job started]|] eqn:Hi; try discriminate.
    assert (Hjob : calm (Sup.env job)).
    { rewrite Forall_lookup in Hr. exact (Hr i _ Hi). }
    destruct (sup_settle_calm (Sup.file job) (Sup.env job) (Sup.world s) started
                Hlive Hjob) as [[o Ho] Hw'].
    destruct (Sup.settle _ _ _ _) as [[result w'] evs].
    eapply sup_leave_accounted; [exact Hs|exact Hi| |exact Hw'|exact Hstep].
    exact (tally_total result _ o Ho).
  - destruct (Sup.running s !! i) as [g|] eqn:Hi; [|discriminate].
    eapply sup_leave_accounted; [exact Hs|exact Hi| |exact Hlive|exact Hstep].
    unfold total, Sup.bump_error. simpl. lia.
Qed.

Lemma sup_exec_accounted (len_files threads : Z) (schedule : list Sup.Move) :
  ∀ s s', quiet schedule → accounted len_files s →
          Sup.exec len_files threads schedule s = Some s' →
          accounted len_files s'.
Proof.
  induction schedule as [|m ms IH]; intros s s' Hquiet Hs Hrun; simpl in Hrun.
  - injection Hrun as <-. exact Hs.
  - destruct (Sup.exec1 len_files threads m s) as [s1|] eqn:Hstep; [|discriminate].
    apply Forall_cons in Hquiet as [Hm Hms].
    exact (IH s1 s' Hms (sup_exec1_accounted _ _ m s s1 Hm Hs Hstep) Hrun).
Qed.

Lemma sup_run_accounted (jobs : list Sup.Job) (threads : Z) (w : World)
    (schedule : list Sup.Move) (s : Sup.Sched) :
  canceled w = false → Forall (λ job, calm (Sup.env job)) jobs →
  quiet schedule →
  Sup.processFiles jobs threads w schedule = Some s →
  Sup.drained s = true →
  total (Sup.counts s) = Z.of_nat (length jobs).
Proof.
  intros Hlive Hjobs Hquiet Hrun Hdrained.
  assert (Hs : accounted (Z.of_nat (length jobs)) s).
  { apply (sup_exec_accounted _ threads schedule (Sup.start jobs w) s Hquiet);
      [|exact Hrun].
    repeat split; simpl; try assumption; try constructor.
    - discriminate.
    - unfold total. simpl. lia. }
  destruct Hs as (_ & _ & _ & _ & Hsum).
  unfold Sup.drained in Hdrained.
  destruct (Sup.queue s); [|discriminate].
  destruct (Sup.sending s); [discriminate|].
  destruct (Sup.running s); [|discriminate].
  simpl in Hsum. lia.
Qed.

End Accounting.

(** C6.  In the sequential program the four counters add up to the number
    of files at the end of every run, and every call of [processFile], in
    both programs, returns one of the four codes.  In the supervised worker
    pool they add up to it when no interrupt arrives; but the [break] under
    [case <-pm.ctx.Done()] leaves the [select] only:
    after an interrupt the loop still starts a task for every remaining
    file, and each later [select] overwrites [canceledCount] before these
    tasks add to it.  With four files, the first transcoded and the
    interrupt arriving while the next two are being transcoded, the summary
    counts seven outcomes. *)
Theorem counters_after_an_interrupt :
  (∃ s, Sup.processFiles Sample.batch 2 Sample.shelf Sample.interrupted_schedule
        = Some s
        ∧ Sup.drained s = true
        ∧ Sup.counts s
          = {| Common.successCount := 1; Common.skipCount := 0;
               Common.errorCount := 0; Common.canceledCount := 6 |}
        ∧ Common.total (Sup.counts s) = 7%Z
        ∧ length Sample.batch = 4%nat)
  ∧ (∀ (jobs : list Seq.Job) threads w,
        Common.total (Seq.counts (Seq.processFiles jobs threads w))
        = Z.of_nat (length jobs))
  ∧ (∀ (jobs : list Sup.Job) threads w schedule s,
        Common.canceled w = false →
        Forall (λ job, Measure.calm (Sup.env job)) jobs →
        Measure.quiet schedule →
        Sup.processFiles jobs threads w schedule = Some s →
        Sup.drained s = true →
        Common.total (Sup.counts s) = Z.of_nat (length jobs))
  ∧ (∀ file threads env w,
        (∃ o, Common.outcome_of (Common.code (Seq.processFile file threads env w))
              = Some o)
        ∧ (∃ o, Common.outcome_of (Common.code (Sup.processFile file threads env w))
                = Some o)).
Proof.
  split; [|split; [|split]].
  - eexists. split; [vm_compute; reflexivity|]. repeat split.
  - intros jobs threads w. unfold Seq.processFiles.
    apply sequential_loop_total. unfold Common.total. simpl. lia.
  - exact sup_run_accounted.
  - intros file threads env w. split.
    + apply sequential_code.
    + apply supervised_code.
Qed.

(** * Further properties *)

(** ** Strings *)

Section StringFacts.
Import GoStrings FilePath.

Lemma append_assoc (a b c : string) : (a +:+ b) +:+ c = a +:+ (b +:+ c).
Proof.
  induction a as [|x a IH]; [reflexivity|].
  change (String x ((a +:+ b) +:+ c) = String x (a +:+ (b +:+ c))).
  f_equal. exact IH.
Qed.

Lemma length_append (a b : string) :
  String.length (a +:+ b) = (String.length a + String.length b)%nat.
Proof.
  induction a as [|x a IH]; [reflexivity|].
  change (S (String.length (a +:+ b)) = S (String.length a + String.length b)).
  f_equal. exact IH.
Qed.

(** Two strings with suffixes of one length are equal part by part. *)
Lemma append_inj_suffix (a b x y : string) :
  a +:+ x = b +:+ y → String.length x = String.length y → a = b ∧ x = y.
Proof.
  revert b. induction a as [|c a IH]; intros [|d b] Heq Hlen.
  - split; [reflexivity|exact Heq].
  - change (x = String d (b +:+ y)) in Heq. subst x.
    simpl in Hlen. rewrite length_append in Hlen. lia.
  - change (String c (a +:+ x) = y) in Heq. subst y.
    simpl in Hlen. rewrite length_append in Hlen. lia.
  - change (String c (a +:+ x) = String d (b +:+ y)) in Heq.
    injection Heq as -> Heq. destruct (IH b Heq Hlen) as [-> ->].
    split; reflexivity.
Qed.

Lemma substring_whole (s : string) : String.substring 0 (String.length s) s = s.
Proof. induction s as [|c s IH]; simpl; [reflexivity|]. f_equal. exact IH. Qed.

Lemma substring_suffix (u v : string) :
  String.substring (String.length u) (String.length v) (u +:+ v) = v.
Proof.
  induction u as [|c u IH]; [apply substring_whole|].
  change (String.substring (S (String.length u)) (String.length v)
            (String c (u +:+ v)) = v).
  simpl. exact IH.
Qed.

Lemma substring_prefix (u v : string) :
  String.substring 0 (String.length u) (u +:+ v) = u.
Proof.
  induction u as [|c u IH]; [destruct v; reflexivity|].
  change (String.substring 0 (S (String.length u)) (String c (u +:+ v))
          = String c u).
  simpl. f_equal. exact IH.
Qed.

Lemma substring_split (s : string) :
  ∀ i, (i <= String.length s)%nat →
       String.substring 0 i s +:+ String.substring i (String.length s - i) s = s.
Proof.
  induction s as [|c s IH]; intros [|i] Hi; simpl in *; try lia.
  - reflexivity.
  - change (String c (String.substring 0 (String.length s) s) = String c s).
    f_equal. apply substring_whole.
  - change (String c (String.substring 0 i s
                      +:+ String.substring i (String.length s - i) s)
            = String c s).
    f_equal. apply IH. lia.
Qed.

(** [strings.HasSuffix]: the string ends with the suffix. *)
Lemma HasSuffix_spec (s suffix : string) :
  HasSuffix s suffix = true ↔ ∃ u, s = u +:+ suffix.
Proof.
  unfold HasSuffix. split.
  - intros H. apply andb_prop in H as [Hle Heq].
    apply Nat.leb_le in Hle. apply String.eqb_eq in Heq.
    exists (String.substring 0 (String.length s - String.length suffix) s).
    assert (Hs := substring_split s (String.length s - String.length suffix)).
    replace (String.length s - (String.length s - String.length suffix))%nat
      with (String.length suffix) in Hs by lia.
    rewrite Heq in Hs. symmetry. apply Hs. lia.
  - intros [u ->]. rewrite length_append.
    apply andb_true_intro. split; [apply Nat.leb_le; lia|].
    replace (String.length u + String.length suffix - String.length suffix)%nat
      with (String.length u) by lia.
    rewrite substring_suffix. apply String.eqb_refl.
Qed.

(** A test of the last characters, when the lengths agree. *)
Lemma HasSuffix_same_length (a x y : string) :
  String.length x = String.length y →
  HasSuffix (a +:+ x) y = String.eqb x y.
Proof.
  intros Hlen. destruct (String.eqb x y) eqn:Hxy.
  - apply String.eqb_eq in Hxy as ->. apply HasSuffix_spec. eauto.
  - destruct (HasSuffix (a +:+ x) y) eqn:Hs; [|reflexivity].
    apply HasSuffix_spec in Hs as [u Hu].
    destruct (append_inj_suffix a u x y Hu Hlen) as [_ ->].
    rewrite String.eqb_refl in Hxy. discriminate.
Qed.

(** [strings.TrimSuffix] takes the suffix off, and only it. *)
Lemma TrimSuffix_append (u suffix : string) : TrimSuffix (u +:+ suffix) suffix = u.
Proof.
  unfold TrimSuffix.
  assert (H : HasSuffix (u +:+ suffix) suffix = true)
    by (apply HasSuffix_spec; eauto).
  rewrite H, length_append.
  replace (String.length u + String.length suffix - String.length suffix)%nat
    with (String.length u) by lia.
  apply substring_prefix.
Qed.

Lemma TrimSuffix_without (s suffix : string) :
  HasSuffix s suffix = false → TrimSuffix s suffix = s.
Proof. unfold TrimSuffix. intros ->. reflexivity. Qed.

(** [filepath.Ext] returns a suffix of its argument. *)
Lemma ext_scan_suffix (s e : string) :
  ext_scan s = Some e → ∃ u, s = u +:+ e.
Proof.
  revert e. induction s as [|c s IH]; intros e H; simpl in H; [discriminate|].
  destruct (ext_scan s) as [e'|] eqn:Hs.
  - injection H as <-. destruct (IH e' eq_refl) as [u ->].
    exists (String c u). reflexivity.
  - destruct (Ascii.eqb c "."); [injection H as <-; exists ""; reflexivity|].
    destruct (Ascii.eqb c "/"); [|discriminate].
    injection H as <-. exists (String c s). symmetry. apply append_empty.
Qed.

Lemma Ext_suffix (s : string) : ∃ stem, s = stem +:+ Ext s.
Proof.
  unfold Ext. destruct (ext_scan s) as [e|] eqn:Hs; simpl.
  - exact (ext_scan_suffix s e Hs).
  - exists s. symmetry. apply append_empty.
Qed.

(** The name without its extension, and the extension, make the name. *)
Lemma TrimSuffix_Ext (s : string) : TrimSuffix s (Ext s) +:+ Ext s = s.
Proof.
  destruct (Ext_suffix s) as [stem Hs].
  rewrite Hs at 1. rewrite TrimSuffix_append. symmetry. exact Hs.
Qed.

(** The scan sees the end of the string first. *)
Lemma ext_scan_append (u v e : string) :
  ext_scan v = Some e → ext_scan (u +:+ v) = Some e.
Proof.
  intros Hv. induction u as [|c u IH]; [exact Hv|].
  change (ext_scan (String c (u +:+ v)) = Some e). simpl. rewrite IH. reflexivity.
Qed.

End StringFacts.

(** ** The extension filters *)

Section FilterFacts.
Import GoStrings FilePath.

Lemma lower_ascii_keeps_marks (c : ascii) :
  Ascii.eqb (lower_ascii c) "." = Ascii.eqb c "."
  ∧ Ascii.eqb (lower_ascii c) "/" = Ascii.eqb c "/"
  ∧ lower_ascii (lower_ascii c) = lower_ascii c.
Proof. destruct c as [[] [] [] [] [] [] [] []]; repeat split; reflexivity. Qed.

Lemma ToLower_append (a b : string) : ToLower (a +:+ b) = ToLower a +:+ ToLower b.
Proof.
  induction a as [|c a IH]; [reflexivity|].
  change (String (lower_ascii c) (ToLower (a +:+ b))
          = String (lower_ascii c) (ToLower a +:+ ToLower b)).
  f_equal. exact IH.
Qed.

Lemma ToLower_idempotent (s : string) : ToLower (ToLower s) = ToLower s.
Proof.
  induction s as [|c s IH]; simpl; [reflexivity|].
  f_equal; [apply lower_ascii_keeps_marks|exact IH].
Qed.

Lemma ext_scan_ToLower (s : string) :
  ext_scan (ToLower s) = ToLower <$> ext_scan s.
Proof.
  induction s as [|c s IH]; simpl; [reflexivity|].
  rewrite IH. destruct (ext_scan s) as [e|]; simpl; [reflexivity|].
  destruct (lower_ascii_keeps_marks c) as (-> & -> & _).
  destruct (Ascii.eqb c "."); [reflexivity|].
  destruct (Ascii.eqb c "/"); reflexivity.
Qed.

Lemma Ext_ToLower (s : string) : Ext (ToLower s) = ToLower (Ext s).
Proof.
  unfold Ext. rewrite ext_scan_ToLower. destruct (ext_scan s); reflexivity.
Qed.

(** For an extension in the sense of [filepath.Ext], to have it as
    extension is to end with it. *)
Lemma Ext_is_suffix (t e : string) :
  ext_scan e = Some e → String.eqb (Ext t) e = HasSuffix t e.
Proof.
  intros He. destruct (HasSuffix t e) eqn:Hs.
  - apply HasSuffix_spec in Hs as [u ->]. unfold Ext.
    rewrite (ext_scan_append u e e He). apply String.eqb_refl.
  - destruct (String.eqb (Ext t) e) eqn:Hext; [|reflexivity].
    apply String.eqb_eq in Hext. destruct (Ext_suffix t) as [stem Ht].
    rewrite Hext in Ht.
    assert (HasSuffix t e = true) by (apply HasSuffix_spec; eauto).
    congruence.
Qed.

Lemma sequential_filter (p : path) :
  Seq.allowed p = HasSuffix (ToLower (render p)) ".mov".
Proof.
  unfold Seq.allowed. cbv zeta.
  change (Split Seq.sourceExtensions ",") with [".mov"].
  change (ToLower ".mov") with ".mov". cbn [existsb].
  rewrite orb_false_r, <- Ext_ToLower. apply Ext_is_suffix. reflexivity.
Qed.

Lemma supervised_filter (p : path) :
  Pruning.allowed Sup.SOURCE_EXTENSIONS p = HasSuffix (ToLower (render p)) ".mov".
Proof.
  unfold Pruning.allowed.
  change (Split Sup.SOURCE_EXTENSIONS ",") with [".MOV"; ".mov"].
  cbn [existsb]. change (ToLower ".MOV") with ".mov".
  change (ToLower ".mov") with ".mov".
  destruct (HasSuffix _ _); reflexivity.
Qed.

Lemma pool_filter (p : path) :
  Pruning.allowed Pool.SOURCE_EXTENSIONS p
  = HasSuffix (ToLower (render p)) ".mov"
    || HasSuffix (ToLower (render p)) ".mp4"
    || HasSuffix (ToLower (render p)) ".avi".
Proof.
  unfold Pruning.allowed.
  change (Split Pool.SOURCE_EXTENSIONS ",")
    with [".MOV"; ".mov"; ".MP4"; ".mp4"; ".AVI"; ".avi"].
  cbn [existsb].
  change (ToLower ".MOV") with ".mov". change (ToLower ".mov") with ".mov".
  change (ToLower ".MP4") with ".mp4". change (ToLower ".mp4") with ".mp4".
  change (ToLower ".AVI") with ".avi". change (ToLower ".avi") with ".avi".
  destruct (HasSuffix _ ".mov"), (HasSuffix _ ".mp4"), (HasSuffix _ ".avi");
    reflexivity.
Qed.

End FilterFacts.



(** ** The output name *)

Section NameFacts.
Import GoStrings FilePath Common Names.

Lemma ext_scan_plain (s : string) : ext_scan s = None ↔ plain s = true.
Proof.
  induction s as [|c s IH]; simpl; [tauto|].
  destruct (ext_scan s) as [e|].
  - split; [discriminate|]. intros H.
    apply andb_prop in H as [_ H]. apply IH in H. discriminate.
  - destruct (Ascii.eqb c "."); simpl; [split; discriminate|].
    destruct (Ascii.eqb c "/"); simpl; [split; discriminate|].
    split; intros _; [apply IH|]; reflexivity.
Qed.

(** The extension is empty, or a dot and a part without dot or separator. *)
Lemma Ext_shape (s : string) :
  (Ext s = "" ∧ (plain s = true ∨ ∃ u v, s = u +:+ String "/" v ∧ plain v = true))
  ∨ ∃ r, Ext s = String "." r ∧ plain r = true.
Proof.
  unfold Ext. induction s as [|c s IH]; simpl; [left; auto|].
  destruct (ext_scan s) as [e|] eqn:Hs; simpl in *.
  - destruct IH as [[-> [Hp|(u & v & -> & Hv)]]|IH]; [| |right; exact IH].
    + apply ext_scan_plain in Hp. congruence.
    + left. split; [reflexivity|]. right. exists (String c u), v. auto.
  - apply ext_scan_plain in Hs.
    destruct (Ascii.eqb_spec c ".") as [->|Hdot]; simpl.
    + right. eauto.
    + destruct (Ascii.eqb_spec c "/") as [->|Hsep]; simpl.
      * left. split; [reflexivity|]. right. exists "", s. auto.
      * left. split; [reflexivity|]. left.
        destruct (Ascii.eqb_spec c "."); [contradiction|].
        destruct (Ascii.eqb_spec c "/"); [contradiction|]. exact Hs.
Qed.

Lemma render_last (dir : path) (name : string) :
  ∃ u, render (Join dir name) = u +:+ name.
Proof.
  unfold render, Join. induction dir as [|x xs [u IH]].
  - exists "". reflexivity.
  - simpl. destruct (xs ++ [name]) as [|y ys] eqn:Hys.
    + destruct xs; discriminate.
    + rewrite IH. exists (x +:+ "/" +:+ u).
      rewrite !append_assoc. reflexivity.
Qed.

(** A path whose last component ends with four characters that are not
    an extension of the lists passes none of the three tests. *)
Lemma not_a_source (dir : path) (name tail : string) :
  String.length tail = 4%nat →
  String.eqb (ToLower tail) ".mov" = false →
  String.eqb (ToLower tail) ".mp4" = false →
  String.eqb (ToLower tail) ".avi" = false →
  Seq.allowed (Join dir (name +:+ tail)) = false
  ∧ Pruning.allowed Sup.SOURCE_EXTENSIONS (Join dir (name +:+ tail)) = false
  ∧ Pruning.allowed Pool.SOURCE_EXTENSIONS (Join dir (name +:+ tail)) = false.
Proof.
  intros Hlen Hmov Hmp4 Havi.
  rewrite sequential_filter, supervised_filter, pool_filter.
  destruct (render_last dir (name +:+ tail)) as [u ->].
  rewrite <- append_assoc, ToLower_append.
  assert (Hl : String.length (ToLower tail) = 4%nat).
  { clear -Hlen. revert Hlen. generalize 4%nat.
    induction tail as [|c t IH]; intros n Hn; simpl in *; [exact Hn|].
    destruct n; [discriminate|]. f_equal. apply IH. lia. }
  rewrite !HasSuffix_same_length by (rewrite Hl; reflexivity).
  rewrite Hmov, Hmp4, Havi. repeat split.
Qed.

End NameFacts.

(** X2.  The output name of [processFile] is the source name with its
    extension replaced by [.mkv], the extension being what [filepath.Ext]
    returns: nothing, or the last dot of the name and what follows it.  The
    name without the extension, followed by the extension, is the name; a
    name without a dot is kept whole. *)
Theorem output_name_replaces_extension
    (dirname ext : string) (file : Common.VideoFile) :
  let name := Common.fileName file in
  Common.output_path dirname ext file
  = Common.sourceDir file ++ [dirname; Names.stem name +:+ ext]
  ∧ Names.stem name +:+ FilePath.Ext name = name
  ∧ (FilePath.Ext name = "" ∨ ∃ r, FilePath.Ext name = String "." r
                                   ∧ Names.plain r = true)
  ∧ (Names.plain name = true → Names.stem name = name).
Proof.
  intros name. split; [|split; [|split]].
  - unfold Common.output_path, FilePath.Join. rewrite <- app_assoc. reflexivity.
  - apply TrimSuffix_Ext.
  - destruct (Ext_shape name) as [[Hext _]|Hext]; auto.
  - intros Hplain. unfold Names.stem, FilePath.Ext.
    apply ext_scan_plain in Hplain. rewrite Hplain. simpl.
    rewrite <- (append_empty name) at 1. apply TrimSuffix_append.
Qed.

Lemma output_name_replaces_extension_witness :
  Names.plain "README" = true ∧ Names.stem "README" = "README".
Proof.
  split; [reflexivity|].
  apply (output_name_replaces_extension "converted" ".mkv"
           {| Common.sourcePath := ["videos"; "README"];
              Common.sourceDir := ["videos"]; Common.fileName := "README" |}).
  reflexivity.
Defined.

(** X3.  Two files are given the same output path exactly when they lie in
    the same directory and their names differ by the extension only. *)
Theorem output_paths_equal_iff
    (dirname ext : string) (f g : Common.VideoFile) :
  Common.output_path dirname ext f = Common.output_path dirname ext g
  ↔ Common.sourceDir f = Common.sourceDir g
    ∧ Names.stem (Common.fileName f) = Names.stem (Common.fileName g).
Proof.
  unfold Common.output_path, FilePath.Join, Names.stem. split.
  - intros H. apply app_inj_tail in H as [H Hname].
    apply app_inj_tail in H as [Hdir _].
    split; [exact Hdir|].
    exact (proj1 (append_inj_suffix _ _ ext ext Hname eq_refl)).
  - intros [-> ->]. reflexivity.
Qed.

(** X4.  What a task writes is never taken for a source: the output path,
    the incomplete marker and the temporary path of a file pass none of the
    extension tests of the three programs, also where the walk enters the
    [converted] directories. *)
Theorem products_are_not_sources (dirname : string) (file : Common.VideoFile) :
  let out := Common.output_path dirname ".mkv" file in
  ∀ product,
    product = out ∨ product = FilePath.add_suffix out ".incomplete"
    ∨ product = FilePath.add_suffix out ".tmp" →
    Seq.allowed product = false
    ∧ Pruning.allowed Sup.SOURCE_EXTENSIONS product = false
    ∧ Pruning.allowed Pool.SOURCE_EXTENSIONS product = false.
Proof.
  intros out product Hproduct. subst out. unfold Common.output_path in *.
  rewrite !add_suffix_Join in Hproduct.
  destruct Hproduct as [->|[->| ->]].
  - apply not_a_source; reflexivity.
  - change ".incomplete" with (".incomp" +:+ "lete").
    rewrite <- append_assoc. apply not_a_source; reflexivity.
  - rewrite append_assoc. change (".mkv" +:+ ".tmp") with (".mkv" +:+ ".tmp").
    rewrite <- append_assoc. apply not_a_source; reflexivity.
Qed.

Lemma products_are_not_sources_witness :
  Seq.allowed ["videos"; "converted"; "clip.mkv.incomplete"] = false.
Proof.
  apply (products_are_not_sources "converted" Sample.clip
           ["videos"; "converted"; "clip.mkv.incomplete"]).
  right. left. reflexivity.
Defined.

(** ** What the walks return *)

Section WalkInvariant.
Import FilePath FS Walker Common Enumerated Effects.
Context {S : Type}.
Variable fn : path → option FileInfo → option error → S → S * verdict.
Variable Q : path → Prop.
Variable I : S → Prop.
Hypothesis Q_Join : ∀ p name, Q p → Q (Join p name).
Hypothesis I_fn : ∀ p info err s, Q p → I s → I (fst (fn p info err s)).

(** What every call of the callback keeps, the walk keeps. *)
Lemma walk_invariant (n : node) :
  ∀ p s, Q p → I s → I (fst (walk fn p n s)).
Proof using Q_Join I_fn.
  induction n as [name size|name|name readable children IH] using node_induction;
    intros p s Hp Hs.
  - simpl. apply I_fn; assumption.
  - simpl. apply I_fn; assumption.
  - simpl.
    assert (H1 := I_fn p (Some (info_of (Folder name readable children)))
                    (if readable then None else Some (ErrReadDir p)) s Hp Hs).
    simpl in H1.
    destruct (fn p _ _ s) as [s1 v]. simpl in H1.
    destruct readable; [|exact H1].
    destruct v; try exact H1.
    clear Hs. revert s1 H1. clear s.
    induction IH as [|c cs Hc _ IHcs]; intros s Hs; [exact Hs|].
    assert (Hq := Q_Join p (node_name c) Hp).
    specialize (Hc _ s Hq Hs).
    assert (Hb := I_fn (Join p (node_name c)) None
                    (Some (ErrLstat (Join p (node_name c)))) s Hq Hs).
    simpl.
    destruct (walk fn (Join p (node_name c)) c s) as [s' r] eqn:Hw.
    destruct (fn (Join p (node_name c)) None _ s) as [sb rb] eqn:Hf.
    simpl in Hc, Hb.
    destruct c as [cname csize|cname creadable cchildren|cname]; simpl.
    + destruct r; [apply IHcs; exact Hc|exact Hc|exact Hc].
    + destruct r; [apply IHcs; exact Hc|apply IHcs; exact Hc|exact Hc].
    + destruct rb; [apply IHcs; exact Hb|apply IHcs; exact Hb|exact Hb].
Qed.

End WalkInvariant.

Section FoundFacts.
Import FilePath FS Walker Common Enumerated Effects.

Lemma under_root (top p : path) :
  top ≠ [] → top `prefix_of` p → well_formed (video p).
Proof.
  intros Htop [k ->]. unfold well_formed, video, Join, Dir, Base. simpl.
  apply app_removelast_last. destruct top; [contradiction|discriminate].
Qed.

Lemma prefix_Join (top p : path) (name : string) :
  top `prefix_of` p → top `prefix_of` Join p name.
Proof. intros [k ->]. exists (k ++ [name]). unfold Join. apply eq_sym, app_assoc. Qed.

Lemma Join_not_nil (dir : path) (name : string) : Join dir name ≠ [].
Proof. unfold Join. destruct dir; discriminate. Qed.

Lemma sound_video (top : path) (test : path → bool) (p : path) :
  top ≠ [] → top `prefix_of` p → test p = true → sound top test (video p).
Proof.
  intros Htop Hp Ht. repeat split; try assumption.
  apply (under_root top); assumption.
Qed.

Lemma pruning_found (exts : string) (dir : path) (root : node) :
  Forall (sound (Join dir (node_name root)) (Pruning.allowed exts))
         (fst (Pruning.findVideoFiles exts dir root)).
Proof.
  unfold Pruning.findVideoFiles, Pruning.search, Walk.
  set (top := Join dir (node_name root)).
  assert (H := walk_invariant (Pruning.visit exts) (λ p, top `prefix_of` p)
                 (λ s, Forall (sound top (Pruning.allowed exts)) (Pruning.files s))).
  destruct (walk (Pruning.visit exts) top root _) as [s r] eqn:Hw.
  change (Forall (sound top (Pruning.allowed exts)) (Pruning.files (fst (s, r)))).
  rewrite <- Hw. apply H.
  - intros p name. apply prefix_Join.
  - intros p info err s0 Hp Hs. unfold Pruning.visit.
    destruct err; [exact Hs|]. destruct info as [info|]; [|exact Hs].
    destruct (IsDir info); [destruct (String.eqb _ _); exact Hs|].
    destruct (Pruning.allowed exts p) eqn:Ht; [|exact Hs]. simpl.
    apply Forall_app. split; [exact Hs|].
    constructor; [|constructor].
    apply sound_video; [apply Join_not_nil|assumption..].
  - exists []. apply eq_sym, app_nil_r.
  - constructor.
Qed.

Lemma sequential_found (dir : path) (root : node) :
  Forall (sound (Join dir (node_name root)) Seq.allowed)
         (fst (Seq.findVideoFiles dir root)).
Proof.
  unfold Seq.findVideoFiles, Walk.
  set (top := Join dir (node_name root)).
  assert (H := walk_invariant Seq.visit (λ p, top `prefix_of` p)
                 (Forall (sound top Seq.allowed))).
  destruct (walk Seq.visit top root []) as [s r] eqn:Hw.
  change s with (fst (s, r)). rewrite <- Hw. apply H.
  - intros p name. apply prefix_Join.
  - intros p info err s0 Hp Hs. unfold Seq.visit.
    destruct err; [exact Hs|]. destruct info as [info|]; [|exact Hs].
    destruct (IsDir info); [exact Hs|].
    destruct (Seq.allowed p) eqn:Ht; [|exact Hs]. simpl.
    apply Forall_app. split; [exact Hs|].
    constructor; [|constructor].
    apply sound_video; [apply Join_not_nil|assumption..].
  - exists []. apply eq_sym, app_nil_r.
  - constructor.
Qed.

End FoundFacts.

(** X5.  Every descriptor returned by [findVideoFiles], in each of the
    three programs and also by a walk of the sequential program that an
    error has aborted, names a path at or below the root given, split into
    its directory and its name, that passes the extension test of its
    program. *)
Theorem found_files_are_sources (dir : FilePath.path) (root : FS.node) :
  let top := FilePath.Join dir (FS.node_name root) in
  let sound (test : FilePath.path → bool) (f : Common.VideoFile) :=
    top `prefix_of` Common.sourcePath f
    ∧ f = Enumerated.video (Common.sourcePath f)
    ∧ Common.sourcePath f
      = FilePath.Join (Common.sourceDir f) (Common.fileName f)
    ∧ test (Common.sourcePath f) = true in
  Forall (sound Seq.allowed) (fst (Seq.findVideoFiles dir root))
  ∧ Forall (sound (Pruning.allowed Sup.SOURCE_EXTENSIONS))
           (fst (Sup.findVideoFiles dir root))
  ∧ Forall (sound (Pruning.allowed Pool.SOURCE_EXTENSIONS))
           (fst (Pool.findVideoFiles dir root)).
Proof.
  intros top sound. split; [|split].
  - apply sequential_found.
  - apply (pruning_found Sup.SOURCE_EXTENSIONS).
  - apply (pruning_found Pool.SOURCE_EXTENSIONS).
Qed.

Section MainFacts.
Import FilePath FS Walker Common Enumerated.

Lemma sequential_loop_results (len_files threads : Z) (jobs : list Seq.Job) :
  ∀ c w, (length (Seq.results (Seq.loop len_files threads jobs c w))
          <= length jobs)%nat.
Proof.
  induction jobs as [|job jobs IH]; intros c w; cbn [Seq.loop].
  - simpl. lia.
  - destruct (canceled _); [simpl; lia|].
    destruct (Seq.processFile _ _ _ _) as [[result w'] evs].
    cbn [Seq.results length]. specialize (IH (tally result c) w'). lia.
Qed.

End MainFacts.

(** X6.  How [main] of the sequential program ends, when no signal comes
    before [processFiles] is called.  It leaves with
    [os.Exit(1)] exactly when it is given no path or a number of threads
    below 1.  Given a path and a number of threads, it ends in
    [log.Fatalf], before any file is processed, exactly when the path is no
    directory, ffmpeg is not found, or some entry of the tree fails,
    wherever it lies.  Otherwise it returns, without calling [processFiles]
    when no file matches, and else after [processFiles] on every matching
    file of the tree: [processFile] is called at most once per file and the
    four counters sum to the number of files. *)
Theorem sequential_main_stops_on_a_failing_entry
    (inv : StartUp.Invocation)
    (plan : Common.VideoFile → Common.Env * Seq.Arrival) :
  (StartUp.main inv plan = StartUp.Exit 1
   ↔ StartUp.argument inv = None ∨ (StartUp.threads inv < 1)%Z)
  ∧ ∀ dir root,
      StartUp.argument inv = Some (dir, root) → (1 <= StartUp.threads inv)%Z →
      let found :=
        Enumerated.everything Seq.allowed (FilePath.Join dir (FS.node_name root))
                              root in
      (StartUp.main inv plan = StartUp.Fatal
       ↔ FS.node_is_dir root = false ∨ StartUp.ffmpeg_found inv = false
         ∨ Enumerated.healthy root = false)
      ∧ (StartUp.main inv plan = StartUp.Return None
         ↔ FS.node_is_dir root = true ∧ StartUp.ffmpeg_found inv = true
           ∧ Enumerated.healthy root = true ∧ found = [])
      ∧ ∀ run, StartUp.main inv plan = StartUp.Return (Some run) →
               found ≠ []
               ∧ Common.total (Seq.counts run) = Z.of_nat (length found)
               ∧ (length (Seq.results run) <= length found)%nat.
Proof.
  split.
  - unfold StartUp.main. destruct (StartUp.argument inv) as [[dir root]|].
    + destruct (Z.ltb_spec (StartUp.threads inv) 1) as [Hlow|Hhigh].
      * split; [right; exact Hlow|reflexivity].
      * split; [|intros [H|H]; [discriminate H|lia]].
        destruct root as [name size|name readable children|name];
          [discriminate| |discriminate].
        destruct (negb (StartUp.ffmpeg_found inv)); [discriminate|].
        destruct (Seq.findVideoFiles dir _) as [[|f fs] [e|]]; discriminate.
    + split; [left; reflexivity|reflexivity].
  - intros dir root Harg Hthreads found. subst found.
    assert (Hruns : ∀ (files : list Common.VideoFile) w,
      let jobs := map (fun f => {| Seq.file := f; Seq.env := fst (plan f);
                                   Seq.arrival := snd (plan f) |}) files in
      let run := Seq.processFiles jobs (StartUp.threads inv) w in
      Common.total (Seq.counts run) = Z.of_nat (length files)
      ∧ (length (Seq.results run) <= length files)%nat).
    { intros files w jobs run. subst run jobs. unfold Seq.processFiles.
      rewrite length_map. split.
      - apply sequential_loop_total. rewrite length_map. reflexivity.
      - etransitivity; [apply sequential_loop_results|]. rewrite length_map. lia. }
    unfold StartUp.main. rewrite Harg.
    destruct (Z.ltb_spec (StartUp.threads inv) 1) as [Hlow|_]; [lia|].
    destruct root as [name size|name readable children|name].
    + simpl. split; [split; auto|].
      split; [split; [discriminate|intros (H & _); discriminate H]|discriminate].
    + cbn [FS.node_is_dir]. destruct (StartUp.ffmpeg_found inv); simpl negb; cbv iota.
      2:{ split; [split; auto|].
          split; [split; [discriminate|intros (_ & H & _); discriminate H]|].
          discriminate. }
      unfold Seq.findVideoFiles, Walker.Walk.
      destruct (sequential_walk (FS.Folder name readable children)
                  (FilePath.Join dir name) []) as [Hgood Hbad].
      cbn [FS.node_name].
      destruct (Enumerated.healthy (FS.Folder name readable children)).
      * rewrite (Hgood eq_refl). cbn [app].
        destruct (Enumerated.everything Seq.allowed (FilePath.Join dir name)
                    (FS.Folder name readable children)) as [|f fs] eqn:Hfound.
        -- split; [split; [discriminate|intros [H|[H|H]]; discriminate H]|].
           split; [split; auto|discriminate].
        -- split; [split; [discriminate|intros [H|[H|H]]; discriminate H]|].
           split; [split; [discriminate|intros (_ & _ & _ & H); discriminate H]|].
           intros run [= <-]. split; [discriminate|].
           apply (Hruns (f :: fs)).
      * destruct (Hbad eq_refl) as (s' & e & ->).
        destruct s';
          (split; [split; auto|];
           split; [split; [discriminate|intros (_ & _ & H & _); discriminate H]|];
           discriminate).
    + simpl. split; [split; auto|].
      split; [split; [discriminate|intros (H & _); discriminate H]|discriminate].
Qed.

(** ** What a task changes *)

Ltac split_task :=
  repeat match goal with
  | |- context [match Common.completion ?e with _ => _ end] =>
      destruct (Common.completion e) as [?|? ?]
  | |- context [if ?b then _ else _] => destruct b eqn:?
  end.

Ltac frame_leaf :=
  unfold Common.after, Common.on_disk, Common.set_disk, Common.register,
    Common.unregister, Common.set_processes, Common.cancel,
    Seq.cleanup, Sup.cleanup;
  cbn [Common.disk fst snd];
  rewrite ?Remove_other, ?transcode_other, ?lookup_insert_ne by congruence.

Section TaskEffects.
Import FilePath FS Walker Common Effects.
Local Open Scope Z_scope.

Lemma owned_paths (file : VideoFile) (q : path) :
  ¬ owned file q →
  let out := output_path "converted" ".mkv" file in
  Join (sourceDir file) "converted" ≠ q ∧ out ≠ q
  ∧ add_suffix out ".incomplete" ≠ q ∧ add_suffix out ".tmp" ≠ q.
Proof. unfold owned. cbv zeta. intros Hq. repeat split; intros <-; tauto. Qed.


Lemma supervised_launch_frame (file : VideoFile) (threads : Z) (env : Env)
    (w : World) (q : path) :
  ¬ owned file q →
  match Sup.launch file threads env w with
  | Sup.Over _ w' _ | Sup.Waiting w' _ => disk w' !! q = disk w !! q
  end.
Proof.
  intros Hq. apply owned_paths in Hq as (Hdir & Hout & Hmarker & _).
  unfold Sup.launch. cbv zeta.
  change Sup.CONVERTED_DIR with "converted". change Sup.OUTPUT_EXTENSION with ".mkv".
  destruct (MkdirAll _ _ _) as [d1|] eqn:Hmk.
  - apply MkdirAll_directory in Hmk as [_ Hd1].
    specialize (Hd1 q (not_eq_sym Hdir)).
    split_task; frame_leaf; solve [reflexivity|exact Hd1].
  - split_task; reflexivity.
Qed.

Lemma supervised_settle_frame (file : VideoFile) (env : Env) (w : World)
    (started : list Event) (q : path) :
  ¬ owned file q →
  disk (after (Sup.settle file env w started)) !! q = disk w !! q.
Proof.
  intros Hq. apply owned_paths in Hq as (Hdir & Hout & Hmarker & _).
  unfold Sup.settle. cbv zeta.
  change Sup.CONVERTED_DIR with "converted". change Sup.OUTPUT_EXTENSION with ".mkv".
  split_task; frame_leaf; reflexivity.
Qed.





End TaskEffects.



(** ** What a task leaves behind *)

Section Debris.
Import FilePath FS Walker Common Effects.
Local Open Scope Z_scope.

Lemma output_not_directory (file : VideoFile) :
  let out := output_path "converted" ".mkv" file in
  let dir := Join (sourceDir file) "converted" in
  out ≠ dir ∧ ∀ suffix, add_suffix out suffix ≠ dir.
Proof.
  cbv zeta. unfold output_path. split; [apply Join_differs|].
  intros suffix. rewrite add_suffix_Join. apply Join_differs.
Qed.

Lemma Remove_wipes (p : path) (d : gmap path entry) (size : Z) :
  d !! p = None ∨ d !! p = Some (EFile size) → Remove p d !! p = None.
Proof. intros [H|H]; apply Remove_file; rewrite H; discriminate. Qed.

Lemma transcode_file (out : path) (env : Env) (d : gmap path entry) :
  d !! out = None →
  transcode out env d !! out = None
  ∨ transcode out env d !! out = Some (EFile (default 0 (produced env))).
Proof.
  intros Hd. rewrite transcode_at by exact Hd.
  destruct (produced env); simpl; auto.
Qed.

(** A task that does not return 0 leaves the output path as it was. *)
Lemma sequential_output_kept (file : VideoFile) (threads : Z) (env : Env)
    (w : World) :
  let r := Seq.processFile file threads env w in
  let out := output_path "converted" ".mkv" file in
  code r ≠ 0 → disk (after r) !! out = disk w !! out.
Proof.
  cbv zeta. unfold Seq.processFile. cbv zeta.
  change Seq.convertedDir with "converted". change Seq.outputExtension with ".mkv".
  destruct (output_not_directory file) as [Hout_dir _].
  assert (Hne : add_suffix (output_path "converted" ".mkv" file) ".incomplete"
                ≠ output_path "converted" ".mkv" file)
    by (apply marker_differs; discriminate).
  set (out := output_path "converted" ".mkv" file) in *.
  set (marker := add_suffix out ".incomplete") in *.
  destruct (canceled w); [reflexivity|].
  destruct (negb (stat_source_ok env)); [reflexivity|].
  destruct (MkdirAll _ _ _) as [d1|] eqn:Hmk; [|reflexivity].
  apply MkdirAll_directory in Hmk as [_ Hd1]. specialize (Hd1 out Hout_dir).
  rewrite <- Hd1.
  destruct (exists_at d1 out) eqn:Hex; [reflexivity|].
  apply exists_at_false in Hex. rewrite Hex.
  assert (Hm : <[marker := EFile (stamp_size env)]> d1 !! out = None)
    by (rewrite lookup_insert_ne by exact Hne; exact Hex).
  split_task; unfold code; cbn [fst snd]; intros Hcode; try congruence;
    frame_leaf; try exact Hex;
    apply (Remove_wipes _ _ (default 0 (produced env)));
    solve [left; exact Hm | apply transcode_file; exact Hm].
Qed.

Lemma supervised_output_kept (file : VideoFile) (threads : Z) (env : Env)
    (w : World) :
  let r := Sup.processFile file threads env w in
  let out := output_path "converted" ".mkv" file in
  code r ≠ 0 → disk (after r) !! out = disk w !! out.
Proof.
  cbv zeta. unfold Sup.processFile, Sup.launch, Sup.settle. cbv zeta.
  change Sup.CONVERTED_DIR with "converted". change Sup.OUTPUT_EXTENSION with ".mkv".
  destruct (output_not_directory file) as [Hout_dir _].
  assert (Hne : add_suffix (output_path "converted" ".mkv" file) ".incomplete"
                ≠ output_path "converted" ".mkv" file)
    by (apply marker_differs; discriminate).
  set (out := output_path "converted" ".mkv" file) in *.
  set (marker := add_suffix out ".incomplete") in *.
  destruct (canceled w); [reflexivity|].
  destruct (MkdirAll _ _ _) as [d1|] eqn:Hmk; [|reflexivity].
  apply MkdirAll_directory in Hmk as [_ Hd1]. specialize (Hd1 out Hout_dir).
  rewrite <- Hd1.
  destruct (exists_at d1 out) eqn:Hex; [reflexivity|].
  apply exists_at_false in Hex. rewrite Hex.
  assert (Hm : <[marker := EFile (stamp_size env)]> d1 !! out = None)
    by (rewrite lookup_insert_ne by exact Hne; exact Hex).
  destruct (negb (marker_ok env)); [intros _; exact Hex|].
  destruct (negb (start_ok env)).
  { intros _. frame_leaf. apply (Remove_wipes _ _ 0). left. exact Hm. }
  cbv beta iota.
  destruct (completion env) as [grace|ok c].
  - intros _. frame_leaf. apply (Remove_wipes _ _ (default 0 (produced env))).
    apply transcode_file. exact Hm.
  - destruct (negb ok).
    + intros _. destruct c; frame_leaf;
        apply (Remove_wipes _ _ (default 0 (produced env)));
        apply transcode_file; exact Hm.
    + destruct (Sup.intact _ _); unfold code; cbn [fst]; intros Hcode;
        [congruence|].
      destruct c; frame_leaf;
        apply (Remove_wipes _ _ (default 0 (produced env)));
        apply transcode_file; exact Hm.
Qed.

(** The third program: ffmpeg writes to the temporary path and every test
    that follows names the output path. *)
Lemma pool_task (file : VideoFile) (numCPU : Z) (env : Env)
    (d : gmap path entry) :
  let r := Pool.processFile file numCPU env d in
  let out := output_path "converted" ".mkv" file in
  let temp := add_suffix out ".tmp" in
  code r ≠ 0
  ∧ after r !! out = d !! out
  ∧ (In (EvStart temp (Pool.threadsPerWorker numCPU)) (events r) →
     after r !! temp
     = match produced env with
       | Some size => Some (EFile size)
       | None => d !! temp
       end).
Proof.
  cbv zeta. unfold Pool.processFile, Pool.launch, Pool.settle. cbv zeta.
  change Pool.CONVERTED_DIR with "converted". change Pool.OUTPUT_EXTENSION with ".mkv".
  destruct (output_not_directory file) as [Hout_dir Hsuffix_dir].
  assert (Hne : add_suffix (output_path "converted" ".mkv" file) ".tmp"
                ≠ output_path "converted" ".mkv" file)
    by (apply marker_differs; discriminate).
  specialize (Hsuffix_dir ".tmp").
  set (out := output_path "converted" ".mkv" file) in *.
  set (temp := add_suffix out ".tmp") in *.
  destruct (MkdirAll _ _ _) as [d1|] eqn:Hmk.
  2:{ split; [discriminate|]. split; [reflexivity|].
      simpl. intros [H|[]]. discriminate H. }
  apply MkdirAll_directory in Hmk as [_ Hd1].
  rewrite <- (Hd1 out Hout_dir), <- (Hd1 temp Hsuffix_dir).
  destruct (exists_at d1 out) eqn:Hex.
  { split; [discriminate|]. split; [reflexivity|].
    simpl. intros [H|[H|[]]]; discriminate H. }
  apply exists_at_false in Hex.
  destruct (negb (start_ok env)).
  { split; [discriminate|]. split.
    - unfold after. cbn [fst snd]. rewrite Hex.
      apply (Remove_wipes _ _ 0). left. exact Hex.
    - simpl. intros [H|[H|[H|[]]]]; discriminate H. }
  cbv beta iota.
  assert (Ht : transcode temp env d1 !! out = None)
    by (rewrite transcode_other by exact Hne; exact Hex).
  assert (Hkept : transcode temp env d1 !! temp
                  = match produced env with
                    | Some size => Some (EFile size)
                    | None => d1 !! temp
                    end).
  { unfold transcode. destruct (produced env); [apply lookup_insert_eq|reflexivity]. }
  assert (Hint : Pool.intact (transcode temp env d1) out = false)
    by (unfold Pool.intact; rewrite Ht; reflexivity).
  rewrite Hint.
  assert (Hwiped : Remove out (transcode temp env d1) !! out = None)
    by (apply (Remove_wipes _ _ 0); left; exact Ht).
  assert (Htemp : Remove out (transcode temp env d1) !! temp
                  = match produced env with
                    | Some size => Some (EFile size)
                    | None => d1 !! temp
                    end)
    by (rewrite Remove_other by congruence; exact Hkept).
  destruct (negb (Pool.exit_ok env)); unfold code, after, events; cbn [fst snd];
    (split; [discriminate|]); (split; [rewrite Hex; exact Hwiped|]);
    intros _; exact Htemp.
Qed.

(** The marker of the first two programs: gone when the task that wrote
    it returns, untouched by a task that did not write it. *)
Lemma sequential_marker (file : VideoFile) (threads : Z) (env : Env) (w : World) :
  let r := Seq.processFile file threads env w in
  let marker := add_suffix (output_path "converted" ".mkv" file) ".incomplete" in
  (In (EvWriteMarker marker) (events r) → disk (after r) !! marker = None)
  ∧ (¬ In (EvWriteMarker marker) (events r) →
     disk (after r) !! marker = disk w !! marker).
Proof.
  cbv zeta. unfold Seq.processFile. cbv zeta.
  change Seq.convertedDir with "converted". change Seq.outputExtension with ".mkv".
  destruct (output_not_directory file) as [_ Hmarker_dir].
  specialize (Hmarker_dir ".incomplete").
  assert (Hne : add_suffix (output_path "converted" ".mkv" file) ".incomplete"
                ≠ output_path "converted" ".mkv" file)
    by (apply marker_differs; discriminate).
  set (out := output_path "converted" ".mkv" file) in *.
  set (marker := add_suffix out ".incomplete") in *.
  assert (Hev : ∀ p, EvMkdirAll p ≠ EvWriteMarker marker) by discriminate.
  destruct (canceled w); [split; [intros []|reflexivity]|].
  destruct (negb (stat_source_ok env)); [split; [intros []|reflexivity]|].
  destruct (MkdirAll _ _ _) as [d1|] eqn:Hmk.
  2:{ split; [|reflexivity]. simpl. intros [H|[]]. discriminate H. }
  apply MkdirAll_directory in Hmk as [_ Hd1]. specialize (Hd1 marker Hmarker_dir).
  rewrite <- Hd1.
  destruct (exists_at d1 out).
  { split; [|reflexivity]. simpl. intros [H|[H|[]]]; discriminate H. }
  destruct (negb (marker_ok env)).
  { split; [|reflexivity]. simpl. intros [H|[]]. discriminate H. }
  set (d2 := <[marker := EFile (stamp_size env)]> d1).
  assert (H2 : d2 !! marker = Some (EFile (stamp_size env)))
    by apply lookup_insert_eq.
  assert (H3 : transcode out env d2 !! marker = Some (EFile (stamp_size env)))
    by (rewrite transcode_other by congruence; exact H2).
  assert (Hwritten : ∀ rest,
    In (EvWriteMarker marker) ([EvMkdirAll (Join (sourceDir file) "converted");
                                EvWriteMarker marker] ++ rest))
    by (intros rest; simpl; auto).
  split_task; unfold events, after; cbn [fst snd];
    (split; [intros _|intros Hnot; exfalso; apply Hnot; apply Hwritten]);
    frame_leaf;
    apply (Remove_wipes _ _ (stamp_size env)); right;
    rewrite ?Remove_other by congruence; assumption.
Qed.

Lemma supervised_marker (file : VideoFile) (threads : Z) (env : Env) (w : World) :
  let r := Sup.processFile file threads env w in
  let marker := add_suffix (output_path "converted" ".mkv" file) ".incomplete" in
  (In (EvWriteMarker marker) (events r) → disk (after r) !! marker = None)
  ∧ (¬ In (EvWriteMarker marker) (events r) →
     disk (after r) !! marker = disk w !! marker).
Proof.
  cbv zeta. unfold Sup.processFile, Sup.launch, Sup.settle. cbv zeta.
  change Sup.CONVERTED_DIR with "converted". change Sup.OUTPUT_EXTENSION with ".mkv".
  destruct (output_not_directory file) as [_ Hmarker_dir].
  specialize (Hmarker_dir ".incomplete").
  assert (Hne : add_suffix (output_path "converted" ".mkv" file) ".incomplete"
                ≠ output_path "converted" ".mkv" file)
    by (apply marker_differs; discriminate).
  set (out := output_path "converted" ".mkv" file) in *.
  set (marker := add_suffix out ".incomplete") in *.
  destruct (canceled w); [split; [intros []|reflexivity]|].
  destruct (MkdirAll _ _ _) as [d1|] eqn:Hmk.
  2:{ split; [|reflexivity]. simpl. intros [H|[]]. discriminate H. }
  apply MkdirAll_directory in Hmk as [_ Hd1]. specialize (Hd1 marker Hmarker_dir).
  rewrite <- Hd1.
  destruct (exists_at d1 out).
  { split; [|reflexivity]. simpl. intros [H|[H|[]]]; discriminate H. }
  destruct (negb (marker_ok env)).
  { split; [|reflexivity]. simpl. intros [H|[]]. discriminate H. }
  set (d2 := <[marker := EFile (stamp_size env)]> d1).
  assert (H2 : d2 !! marker = Some (EFile (stamp_size env)))
    by apply lookup_insert_eq.
  assert (H3 : transcode out env d2 !! marker = Some (EFile (stamp_size env)))
    by (rewrite transcode_other by congruence; exact H2).
  assert (Hwritten : ∀ rest,
    In (EvWriteMarker marker) ([EvMkdirAll (Join (sourceDir file) "converted");
                                EvWriteMarker marker] ++ rest))
    by (intros rest; simpl; auto).
  split_task; unfold events, after; cbn [fst snd];
    (split; [intros _|intros Hnot; exfalso; apply Hnot;
                      rewrite <- ?app_assoc; apply Hwritten]);
    frame_leaf;
    apply (Remove_wipes _ _ (stamp_size env)); right;
    rewrite ?Remove_other by congruence; assumption.
Qed.

End Debris.

(** X8.  A task that does not report success leaves the output path as it
    found it: no partial output stays behind after a failure or a
    cancellation, in any of the three programs, whatever ffmpeg wrote.  In
    the third program this holds of every task. *)
Theorem unsuccessful_task_leaves_no_output
    (file : Common.VideoFile) (threads numCPU : Z) (env : Common.Env)
    (w : Common.World) :
  let out := Common.output_path "converted" ".mkv" file in
  let seq := Seq.processFile file threads env w in
  let sup := Sup.processFile file threads env w in
  let pool := Pool.processFile file numCPU env (Common.disk w) in
  (Common.code seq ≠ 0%Z →
   Common.disk (Common.after seq) !! out = Common.disk w !! out)
  ∧ (Common.code sup ≠ 0%Z →
     Common.disk (Common.after sup) !! out = Common.disk w !! out)
  ∧ Common.after pool !! out = Common.disk w !! out.
Proof.
  cbv zeta. split; [|split].
  - apply sequential_output_kept.
  - apply supervised_output_kept.
  - apply (pool_task file numCPU env (Common.disk w)).
Qed.

(** X9.  The incomplete marker of the first two programs never outlives
    the task that wrote it: when [processFile] returns after it has written
    the marker, with whatever result, the marker is gone; a task that did
    not write it leaves the path as it was. *)
Theorem marker_never_outlives_its_task
    (file : Common.VideoFile) (threads : Z) (env : Common.Env) (w : Common.World) :
  let marker :=
    FilePath.add_suffix (Common.output_path "converted" ".mkv" file) ".incomplete" in
  let holds (r : Z * Common.World * list Common.Event) :=
    (In (Common.EvWriteMarker marker) (Common.events r) →
     Common.disk (Common.after r) !! marker = None)
    ∧ (¬ In (Common.EvWriteMarker marker) (Common.events r) →
       Common.disk (Common.after r) !! marker = Common.disk w !! marker) in
  holds (Seq.processFile file threads env w)
  ∧ holds (Sup.processFile file threads env w).
Proof.
  cbv zeta. split.
  - apply sequential_marker.
  - apply supervised_marker.
Qed.

(** ** The third program makes no output *)

Section Fruitless.
Import FilePath FS Walker Common Effects Runs.
Local Open Scope Z_scope.

Lemma output_not_converted (f g : VideoFile) :
  output_path "converted" ".mkv" f ≠ Join (sourceDir g) "converted".
Proof.
  unfold output_path, Join. intros H. apply app_inj_tail in H as [_ H].
  change "converted" with ("conve" +:+ "rted") in H.
  apply append_inj_suffix in H as [_ H]; [discriminate H|reflexivity].
Qed.

Lemma output_not_temporary (f g : VideoFile) :
  output_path "converted" ".mkv" f
  ≠ add_suffix (output_path "converted" ".mkv" g) ".tmp".
Proof.
  unfold output_path. rewrite add_suffix_Join. unfold Join.
  intros H. apply app_inj_tail in H as [_ H].
  apply append_inj_suffix in H as [_ H]; [discriminate H|reflexivity].
Qed.

Lemma Remove_absent (q p : path) (d : gmap path entry) :
  d !! p = None → Remove q d !! p = None.
Proof.
  intros Hp. destruct (decide (q = p)) as [->|Hne].
  - apply (Remove_wipes _ _ 0). left. exact Hp.
  - rewrite Remove_other by exact Hne. exact Hp.
Qed.

Lemma tally3_success (result : Z) (c : Counts) :
  result ≠ 0 → successCount (Pool.tally3 result c) = successCount c.
Proof.
  intros Hr. unfold Pool.tally3, tally.
  repeat (destruct (decide _); [simpl; congruence|]). reflexivity.
Qed.

Lemma pool_launch_outputs (file : VideoFile) (numCPU : Z) (env : Env)
    (d : gmap path entry) :
  let keeps d' := ∀ p, is_output p → d !! p = None → d' !! p = None in
  match Pool.launch file numCPU env d with
  | Pool.Over result d' _ => result ≠ 0 ∧ keeps d'
  | Pool.Waiting d' _ =>
      d' !! output_path "converted" ".mkv" file = None ∧ keeps d'
  end.
Proof.
  cbv zeta. unfold Pool.launch. cbv zeta.
  change Pool.CONVERTED_DIR with "converted". change Pool.OUTPUT_EXTENSION with ".mkv".
  destruct (MkdirAll _ _ _) as [d1|] eqn:Hmk; [|split; [discriminate|auto]].
  apply MkdirAll_directory in Hmk as [_ Hd1].
  assert (Hkeeps : ∀ p, is_output p → d !! p = None → d1 !! p = None).
  { intros p [f ->] Hp. rewrite Hd1 by apply output_not_converted. exact Hp. }
  destruct (exists_at d1 _) eqn:Hex; [split; [discriminate|exact Hkeeps]|].
  apply exists_at_false in Hex.
  destruct (negb (start_ok env)).
  - split; [discriminate|]. intros p Hout Hp. apply Remove_absent. auto.
  - split; [exact Hex|exact Hkeeps].
Qed.

Lemma pool_settle_outputs (file : VideoFile) (env : Env) (d : gmap path entry)
    (started : list Event) :
  d !! output_path "converted" ".mkv" file = None →
  code (Pool.settle file env d started) ≠ 0
  ∧ ∀ p, is_output p → d !! p = None →
         after (Pool.settle file env d started) !! p = None.
Proof.
  intros Hfree. unfold Pool.settle. cbv zeta.
  change Pool.CONVERTED_DIR with "converted". change Pool.OUTPUT_EXTENSION with ".mkv".
  set (out := output_path "converted" ".mkv" file) in *.
  set (temp := add_suffix out ".tmp").
  assert (Hkeeps : ∀ p, is_output p → d !! p = None →
                        transcode temp env d !! p = None).
  { intros p [f ->] Hp. rewrite transcode_other; [exact Hp|].
    apply not_eq_sym, output_not_temporary. }
  assert (Hint : Pool.intact (transcode temp env d) out = false).
  { unfold Pool.intact. rewrite (Hkeeps out); [reflexivity|eexists; reflexivity|].
    exact Hfree. }
  rewrite Hint.
  destruct (negb (Pool.exit_ok env)); unfold code, after; cbn [fst snd];
    (split; [discriminate|]); intros p Hout Hp; apply Remove_absent; auto.
Qed.

Lemma pool_leave_fruitless (d0 : gmap path entry) (i : nat) (c : Counts)
    (d : gmap path entry) (s s' : Pool.Sched) :
  pool_fruitless d0 s →
  successCount c = successCount (Pool.counts s) →
  (∀ p, is_output p → Pool.disk s !! p = None → d !! p = None) →
  Pool.leave i c d s = Some s' → pool_fruitless d0 s'.
Proof.
  intros (Hcount & Hfree & Hbusy) Hc Hd Hleave. unfold Pool.leave in Hleave.
  destruct (Pool.semaphore s); [discriminate|]. injection Hleave as <-.
  split; [simpl; congruence|]. split; simpl.
  - intros p Hout Hp. auto.
  - apply Forall_delete. eapply Forall_impl; [exact Hbusy|].
    intros [job|job started]; [auto|]. simpl. intros Hjob.
    apply Hd; [eexists; reflexivity|exact Hjob].
Qed.

Lemma pool_exec1_fruitless (d0 : gmap path entry) (numCPU : Z) (m : Pool.Move)
    (s s' : Pool.Sched) :
  pool_fruitless d0 s → Pool.exec1 numCPU m s = Some s' → pool_fruitless d0 s'.
Proof.
  intros Hs Hstep. assert (Hs' := Hs). destruct Hs' as (Hcount & Hfree & Hbusy).
  destruct m as [|i|i]; simpl in Hstep.
  - destruct (Pool.queue s); [discriminate|].
    destruct (decide _); [|discriminate]. injection Hstep as <-.
    split; [exact Hcount|]. split; [exact Hfree|]. simpl.
    apply Forall_app. split; [exact Hbusy|]. constructor; [exact I|constructor].
  - destruct (Pool.running s !! i) as [[job|job started]|] eqn:Hi; try discriminate.
    assert (Hl := pool_launch_outputs (Pool.file job) numCPU (Pool.env job)
                    (Pool.disk s)).
    cbv zeta in Hl.
    destruct (Pool.launch _ _ _ _) as [result d' evs|d' started].
    + destruct Hl as [Hresult Hkeeps].
      eapply (pool_leave_fruitless d0 i); [exact Hs| |exact Hkeeps|exact Hstep].
      apply tally3_success. exact Hresult.
    + destruct Hl as [Hjob Hkeeps]. injection Hstep as <-.
      split; [exact Hcount|]. split; simpl; [auto|].
      apply Forall_insert; [|exact Hjob].
      eapply Forall_impl; [exact Hbusy|].
      intros [job'|job' started']; [auto|]. simpl. intros Hjob'.
      apply Hkeeps; [eexists; reflexivity|exact Hjob'].
  - destruct (Pool.running s !! i) as [[job|job started]|] eqn:Hi; try discriminate.
    assert (Hjob : Pool.disk s !! output_path "converted" ".mkv" (Pool.file job)
                   = None).
    { rewrite Forall_lookup in Hbusy. exact (Hbusy i _ Hi). }
    destruct (pool_settle_outputs (Pool.file job) (Pool.env job) (Pool.disk s)
                started Hjob) as [Hresult Hkeeps].
    destruct (Pool.settle _ _ _ _) as [[result d'] evs].
    unfold code, after in Hresult, Hkeeps. simpl in Hresult, Hkeeps.
    eapply (pool_leave_fruitless d0 i); [exact Hs| |exact Hkeeps|exact Hstep].
    apply tally3_success. exact Hresult.
Qed.

Lemma pool_exec_fruitless (d0 : gmap path entry) (numCPU : Z)
    (schedule : list Pool.Move) :
  ∀ s s', pool_fruitless d0 s → Pool.exec numCPU schedule s = Some s' →
          pool_fruitless d0 s'.
Proof.
  induction schedule as [|m ms IH]; intros s s' Hs Hrun; simpl in Hrun.
  - injection Hrun as <-. exact Hs.
  - destruct (Pool.exec1 numCPU m s) as [s1|] eqn:Hstep; [|discriminate].
    exact (IH s1 s' (pool_exec1_fruitless d0 numCPU m s s1 Hs Hstep) Hrun).
Qed.

End Fruitless.

(** X10.  The third program never converts a file.  ffmpeg is given the
    temporary path, and what follows tests and removes the output path,
    which nothing creates: [processFile] never returns 0 and leaves at the
    temporary path what ffmpeg wrote there; in a run of [processFiles],
    under every schedule, [successCount] stays 0 and an output path that is
    free at the start is free at every point of the run. *)
Theorem pool_never_converts
    (jobs : list Pool.Job) (numCPU : Z) (d : gmap FilePath.path FS.entry)
    (schedule : list Pool.Move) (s : Pool.Sched) :
  Pool.processFiles jobs numCPU d schedule = Some s →
  Common.successCount (Pool.counts s) = 0%Z
  ∧ (∀ p, Runs.is_output p → d !! p = None → Pool.disk s !! p = None)
  ∧ ∀ file env,
      let r := Pool.processFile file numCPU env d in
      let temp :=
        FilePath.add_suffix (Common.output_path "converted" ".mkv" file) ".tmp" in
      Common.code r ≠ 0%Z
      ∧ (In (Common.EvStart temp (Pool.threadsPerWorker numCPU)) (Common.events r) →
         Common.after r !! temp
         = match Common.produced env with
           | Some size => Some (FS.EFile size)
           | None => d !! temp
           end).
Proof.
  intros Hrun.
  assert (Hstart : Runs.pool_fruitless d (Pool.start jobs d)).
  { split; [reflexivity|]. split; [auto|constructor]. }
  destruct (pool_exec_fruitless d numCPU schedule _ s Hstart Hrun)
    as (Hcount & Hfree & _).
  split; [exact Hcount|]. split; [exact Hfree|].
  intros file env. cbv zeta.
  destruct (pool_task file numCPU env d) as (Hcode & _ & Htemp).
  split; assumption.
Qed.

Lemma pool_never_converts_witness :
  let job := {| Pool.file := Sample.clip; Pool.env := Sample.good |} in
  ∃ s, Pool.processFiles [job] 4 (Common.disk Sample.world)
         [Pool.Acquire; Pool.Launch 0; Pool.Settle 0] = Some s
       ∧ Pool.drained s = true
       ∧ Common.successCount (Pool.counts s) = 0%Z
       ∧ Common.errorCount (Pool.counts s) = 1%Z.
Proof.
  intros job.
  destruct (Pool.processFiles [job] 4 (Common.disk Sample.world)
              [Pool.Acquire; Pool.Launch 0; Pool.Settle 0]) as [s|] eqn:Hrun;
    [|vm_compute in Hrun; discriminate Hrun].
  exists s. split; [reflexivity|].
  destruct (pool_never_converts [job] 4 (Common.disk Sample.world) _ s Hrun)
    as (Hcount & _).
  vm_compute in Hrun. injection Hrun as <-.
  split; [reflexivity|]. split; [exact Hcount|reflexivity].
Defined.

(** ** What a run changes *)

Section RunFrames.
Import FilePath FS Walker Common Effects Runs.
Local Open Scope Z_scope.
Variable P : VideoFile → Prop.







End RunFrames.

Section RunFrame.
Import FilePath FS Walker Common Effects Runs.
Local Open Scope Z_scope.
Variable q : path.
Notation foreign := (λ f : VideoFile, ¬ owned f q).

Lemma sup_leave_world (i : nat) (c : Counts) (w : World) (s s' : Sup.Sched) :
  Sup.leave i c w s = Some s' → Sup.world s' = w.
Proof.
  unfold Sup.leave. destruct (Sup.semaphore s); [discriminate|].
  intros [= <-]. reflexivity.
Qed.









End RunFrame.



Section Videos.
Import FilePath FS Walker Common Effects Runs.




End Videos.



(** ** The registry and the context *)

Section Registry.
Import FilePath FS Walker Common Effects Runs.
Local Open Scope Z_scope.

Lemma supervised_launch_registry (file : VideoFile) (threads : Z) (env : Env)
    (w : World) :
  match Sup.launch file threads env w with
  | Sup.Over result w' _ =>
      processes w' = processes w ∧ canceled w' = canceled w
      ∧ (canceled w = true → result = 3 ∧ w' = w)
  | Sup.Waiting w' _ =>
      processes w' = {[pid env]} ∪ processes w
      ∧ canceled w' = false ∧ canceled w = false
  end.
Proof.
  unfold Sup.launch. cbv zeta.
  destruct (canceled w) eqn:Hc; [rewrite Hc; auto|].
  destruct (MkdirAll _ _ _) as [d1|];
    [|split; [reflexivity|]; split; [exact Hc|discriminate]].
  split_task;
    (split; [reflexivity|]; split; [exact Hc|]; solve [discriminate|reflexivity]).
Qed.

Lemma supervised_settle_registry (file : VideoFile) (env : Env) (w : World)
    (started : list Event) :
  let r := Sup.settle file env w started in
  processes (after r) = processes w ∖ {[pid env]}
  ∧ (canceled w = true → canceled (after r) = true).
Proof.
  cbv zeta. unfold Sup.settle. cbv zeta.
  split_task; split; try reflexivity; unfold after; cbn; auto.
Qed.

Lemma busy_pids_app (gs : list Sup.Goroutine) (job : Sup.Job) :
  busy_pids (gs ++ [Sup.Fresh job]) = busy_pids gs.
Proof.
  induction gs as [|[j|j st] gs IH]; simpl; [reflexivity|exact IH|].
  rewrite IH. reflexivity.
Qed.

Lemma busy_pids_delete (gs : list Sup.Goroutine) :
  ∀ i, busy_pids (delete i gs) ⊆ busy_pids gs
       ∧ ∀ job started, gs !! i = Some (Sup.Busy job started) →
           busy_pids gs ⊆ {[pid (Sup.env job)]} ∪ busy_pids (delete i gs).
Proof.
  induction gs as [|g gs IH]; intros i.
  - split; [reflexivity|]. intros job started H. discriminate H.
  - destruct i as [|i].
    + split.
      * destruct g; simpl; set_solver.
      * intros job started [= ->]. simpl. reflexivity.
    + destruct (IH i) as [Hsub Hbusy]. split.
      * destruct g; simpl; set_solver.
      * intros job started Hi. specialize (Hbusy job started Hi).
        destruct g; simpl; set_solver.
Qed.

Lemma busy_pids_insert (gs : list Sup.Goroutine) (job : Sup.Job)
    (started : list Event) :
  ∀ i j, gs !! i = Some (Sup.Fresh j) →
         busy_pids (<[i := Sup.Busy job started]> gs)
         = {[pid (Sup.env job)]} ∪ busy_pids gs.
Proof.
  induction gs as [|g gs IH]; intros i j Hi; [discriminate Hi|].
  destruct i as [|i].
  - injection Hi as ->. reflexivity.
  - simpl. rewrite (IH i j Hi). destruct g; simpl; [reflexivity|].
    apply leibniz_equiv. set_solver.
Qed.

(** Without a panic, a registered process is one of the start or the
    process of a task at its [select]. *)
Lemma sup_exec1_registry (known : gset Z) (len_files threads : Z) (m : Sup.Move)
    (s s' : Sup.Sched) :
  match m with Sup.Panic _ => False | _ => True end →
  processes (Sup.world s) ⊆ known ∪ busy_pids (Sup.running s) →
  Sup.exec1 len_files threads m s = Some s' →
  processes (Sup.world s') ⊆ known ∪ busy_pids (Sup.running s').
Proof.
  intros Hm Hs Hstep. destruct m as [| | |i|i|i]; simpl in Hstep; [| | | | |contradiction].
  - injection Hstep as <-. exact Hs.
  - destruct (Sup.sending s); [discriminate|].
    destruct (Sup.queue s); [discriminate|]. injection Hstep as <-. exact Hs.
  - destruct (Sup.sending s); [|discriminate].
    destruct (decide _); [|discriminate]. injection Hstep as <-. simpl.
    rewrite busy_pids_app. exact Hs.
  - destruct (Sup.running s !! i) as [[job|job started]|] eqn:Hi; try discriminate.
    assert (Hl := supervised_launch_registry (Sup.file job) threads (Sup.env job)
                    (Sup.world s)).
    destruct (Sup.launch _ _ _ _) as [result w' evs|w' started].
    + destruct Hl as (Hp & _). unfold Sup.leave in Hstep.
      destruct (Sup.semaphore s); [discriminate|]. injection Hstep as <-. simpl.
      rewrite Hp.
      assert (Hd : busy_pids (Sup.running s) ⊆ busy_pids (delete i (Sup.running s))).
      { clear -Hi. revert i Hi.
        induction (Sup.running s) as [|g gs IH]; intros i Hi; [discriminate Hi|].
        destruct i as [|i].
        - injection Hi as ->. reflexivity.
        - specialize (IH i Hi). destruct g; simpl; set_solver. }
      set_solver.
    + destruct Hl as (Hp & _). injection Hstep as <-. simpl.
      rewrite Hp, (busy_pids_insert _ _ _ i job Hi). set_solver.
  - destruct (Sup.running s !! i) as [[job|job started]|] eqn:Hi; try discriminate.
    destruct (supervised_settle_registry (Sup.file job) (Sup.env job)
                (Sup.world s) started) as [Hp _].
    destruct (Sup.settle _ _ _ _) as [[result w'] evs].
    unfold after in Hp. simpl in Hp.
    unfold Sup.leave in Hstep.
    destruct (Sup.semaphore s); [discriminate|]. injection Hstep as <-. simpl.
    rewrite Hp.
    destruct (busy_pids_delete (Sup.running s) i) as [_ Hb].
    specialize (Hb job started Hi). set_solver.
Qed.

Lemma sup_exec_registry (known : gset Z) (len_files threads : Z)
    (schedule : list Sup.Move) :
  ∀ s s', no_panic schedule →
          processes (Sup.world s) ⊆ known ∪ busy_pids (Sup.running s) →
          Sup.exec len_files threads schedule s = Some s' →
          processes (Sup.world s') ⊆ known ∪ busy_pids (Sup.running s').
Proof.
  induction schedule as [|m ms IH]; intros s s' Hms Hs Hrun; simpl in Hrun.
  - injection Hrun as <-. exact Hs.
  - apply Forall_cons in Hms as [Hm Hms].
    destruct (Sup.exec1 len_files threads m s) as [s1|] eqn:Hstep; [|discriminate].
    exact (IH s1 s' Hms (sup_exec1_registry known _ _ m s s1 Hm Hs Hstep) Hrun).
Qed.







End Registry.

(** X13.  In a run of the supervised worker pool in which no goroutine
    panics, every process in the registry of the process manager is one
    that was there at the start or the ffmpeg of a task that is at its
    [select]: a task leaves no process registered when it returns, and
    when [processFiles] returns the registry holds nothing of the run. *)
Theorem registry_holds_only_running_processes
    (jobs : list Sup.Job) (threads : Z) (w : Common.World)
    (schedule : list Sup.Move) (s : Sup.Sched) :
  Runs.no_panic schedule →
  Sup.processFiles jobs threads w schedule = Some s →
  Common.processes (Sup.world s)
    ⊆ Common.processes w ∪ Runs.busy_pids (Sup.running s)
  ∧ (Sup.drained s = true →
     Common.processes (Sup.world s) ⊆ Common.processes w).
Proof.
  intros Hquiet Hrun.
  assert (H : Common.processes (Sup.world s)
              ⊆ Common.processes w ∪ Runs.busy_pids (Sup.running s)).
  { apply (sup_exec_registry (Common.processes w) (Z.of_nat (length jobs)) threads
             schedule (Sup.start jobs w) s Hquiet); [|exact Hrun].
    simpl. set_solver. }
  split; [exact H|].
  unfold Sup.drained. intros Hd.
  destruct (Sup.queue s); [|discriminate]. destruct (Sup.sending s); [discriminate|].
  destruct (Sup.running s); [|discriminate]. simpl in H. set_solver.
Qed.

Lemma registry_holds_only_running_processes_witness :
  ∃ s, Sup.processFiles [Sample.task "a.mov" 101 (Common.ExitFirst true false)] 2
         Sample.shelf [Sup.Select; Sup.Acquire; Sup.Launch 0; Sup.Settle 0] = Some s
       ∧ Sup.drained s = true
       ∧ Common.processes (Sup.world s) ⊆ ∅.
Proof.
  destruct (Sup.processFiles [Sample.task "a.mov" 101 (Common.ExitFirst true false)] 2
              Sample.shelf [Sup.Select; Sup.Acquire; Sup.Launch 0; Sup.Settle 0])
    as [s|] eqn:Hrun; [|vm_compute in Hrun; discriminate Hrun].
  exists s. split; [reflexivity|].
  assert (Hquiet : Runs.no_panic [Sup.Select; Sup.Acquire; Sup.Launch 0; Sup.Settle 0])
    by (repeat constructor).
  destruct (registry_holds_only_running_processes _ _ _ _ s Hquiet Hrun) as [_ H].
  assert (Hd : Sup.drained s = true)
    by (vm_compute in Hrun; injection Hrun as <-; reflexivity).
  split; [exact Hd|exact (H Hd)].
Defined.



(** ** How long a run lasts *)

Section Termination.
Import FilePath FS Walker Common Effects Runs Measure.
Local Open Scope nat_scope.

Lemma list_sum_delete {A : Type} (f : A → nat) (l : list A) :
  ∀ i g, l !! i = Some g →
         list_sum (map f (delete i l)) + f g = list_sum (map f l).
Proof.
  induction l as [|x l IH]; intros i g Hi; [discriminate Hi|].
  destruct i as [|i].
  - injection Hi as ->. simpl. lia.
  - simpl. specialize (IH i g Hi). lia.
Qed.

Lemma list_sum_insert {A : Type} (f : A → nat) (l : list A) (g' : A) :
  ∀ i g, l !! i = Some g →
         list_sum (map f (<[i := g']> l)) + f g = list_sum (map f l) + f g'.
Proof.
  induction l as [|x l IH]; intros i g Hi; [discriminate Hi|].
  destruct i as [|i].
  - injection Hi as ->. simpl. lia.
  - simpl. specialize (IH i g Hi). lia.
Qed.

Lemma list_sum_snoc {A : Type} (f : A → nat) (l : list A) (g : A) :
  list_sum (map f (l ++ [g])) = list_sum (map f l) + f g.
Proof. rewrite map_app, list_sum_app. simpl. lia. Qed.

Lemma sup_leave_weight (i : nat) (g : Sup.Goroutine) (c : Counts) (w : World)
    (s s' : Sup.Sched) :
  Sup.running s !! i = Some g → Sup.leave i c w s = Some s' →
  sup_weight s' + sup_steps g = sup_weight s.
Proof.
  intros Hi Hleave. unfold Sup.leave in Hleave.
  destruct (Sup.semaphore s); [discriminate|]. injection Hleave as <-.
  unfold sup_weight. simpl.
  assert (H := list_sum_delete sup_steps (Sup.running s) i g Hi). lia.
Qed.

(** Every step of the program brings the end nearer; a signal does not. *)
Lemma sup_exec1_weight (len_files threads : Z) (m : Sup.Move) (s s' : Sup.Sched) :
  Sup.exec1 len_files threads m s = Some s' →
  sup_weight s' + work [m] <= sup_weight s.
Proof.
  intros Hstep. destruct m as [| | |i|i|i]; simpl in Hstep; unfold work; simpl.
  - injection Hstep as <-. unfold sup_weight. simpl. lia.
  - destruct (Sup.sending s) eqn:Hsend; [discriminate|].
    destruct (Sup.queue s) as [|job rest] eqn:Hq; [discriminate|].
    injection Hstep as <-. unfold sup_weight. rewrite Hsend, Hq. simpl. lia.
  - destruct (Sup.sending s) as [job|] eqn:Hsend; [|discriminate].
    destruct (decide _); [|discriminate]. injection Hstep as <-.
    unfold sup_weight. rewrite Hsend. simpl. rewrite list_sum_snoc. simpl. lia.
  - destruct (Sup.running s !! i) as [[job|job started]|] eqn:Hi; try discriminate.
    destruct (Sup.launch _ _ _ _) as [result w' evs|w' started].
    + assert (H := sup_leave_weight i _ _ _ s s' Hi Hstep). simpl in H. lia.
    + injection Hstep as <-. unfold sup_weight. simpl.
      assert (H := list_sum_insert sup_steps (Sup.running s) (Sup.Busy job started)
                     i _ Hi).
      simpl in H. lia.
  - destruct (Sup.running s !! i) as [[job|job started]|] eqn:Hi; try discriminate.
    destruct (Sup.settle _ _ _ _) as [[result w'] evs].
    assert (H := sup_leave_weight i _ _ _ s s' Hi Hstep). simpl in H. lia.
  - destruct (Sup.running s !! i) as [g|] eqn:Hi; [|discriminate].
    assert (H := sup_leave_weight i _ _ _ s s' Hi Hstep).
    destruct g; simpl in H; lia.
Qed.

Lemma work_cons (m : Sup.Move) (ms : list Sup.Move) :
  work (m :: ms) = work [m] + work ms.
Proof. unfold work. simpl. destruct m; simpl; lia. Qed.

Lemma sup_exec_weight (len_files threads : Z) (schedule : list Sup.Move) :
  ∀ s s', Sup.exec len_files threads schedule s = Some s' →
          sup_weight s' + work schedule <= sup_weight s.
Proof.
  induction schedule as [|m ms IH]; intros s s' Hrun; simpl in Hrun.
  - injection Hrun as <-. unfold work. simpl. lia.
  - destruct (Sup.exec1 len_files threads m s) as [s1|] eqn:Hstep; [|discriminate].
    specialize (IH s1 s' Hrun).
    assert (H1 := sup_exec1_weight _ _ m s s1 Hstep).
    rewrite work_cons. lia.
Qed.

Lemma pool_leave_weight (i : nat) (g : Pool.Goroutine) (c : Counts)
    (d : gmap path entry) (s s' : Pool.Sched) :
  Pool.running s !! i = Some g → Pool.leave i c d s = Some s' →
  pool_weight s' + pool_steps g = pool_weight s.
Proof.
  intros Hi Hleave. unfold Pool.leave in Hleave.
  destruct (Pool.semaphore s); [discriminate|]. injection Hleave as <-.
  unfold pool_weight. simpl.
  assert (H := list_sum_delete pool_steps (Pool.running s) i g Hi). lia.
Qed.

Lemma pool_exec1_weight (numCPU : Z) (m : Pool.Move) (s s' : Pool.Sched) :
  Pool.exec1 numCPU m s = Some s' → pool_weight s' + 1 <= pool_weight s.
Proof.
  intros Hstep. destruct m as [|i|i]; simpl in Hstep.
  - destruct (Pool.queue s) as [|job rest] eqn:Hq; [discriminate|].
    destruct (decide _); [|discriminate]. injection Hstep as <-.
    unfold pool_weight. rewrite Hq. simpl. rewrite list_sum_snoc. simpl. lia.
  - destruct (Pool.running s !! i) as [[job|job started]|] eqn:Hi; try discriminate.
    destruct (Pool.launch _ _ _ _) as [result d' evs|d' started].
    + assert (H := pool_leave_weight i _ _ _ s s' Hi Hstep). simpl in H. lia.
    + injection Hstep as <-. unfold pool_weight. simpl.
      assert (H := list_sum_insert pool_steps (Pool.running s)
                     (Pool.Busy job started) i _ Hi).
      simpl in H. lia.
  - destruct (Pool.running s !! i) as [[job|job started]|] eqn:Hi; try discriminate.
    destruct (Pool.settle _ _ _ _) as [[result d'] evs].
    assert (H := pool_leave_weight i _ _ _ s s' Hi Hstep). simpl in H. lia.
Qed.

Lemma pool_exec_weight (numCPU : Z) (schedule : list Pool.Move) :
  ∀ s s', Pool.exec numCPU schedule s = Some s' →
          pool_weight s' + length schedule <= pool_weight s.
Proof.
  induction schedule as [|m ms IH]; intros s s' Hrun; simpl in Hrun.
  - injection Hrun as <-. simpl. lia.
  - destruct (Pool.exec1 numCPU m s) as [s1|] eqn:Hstep; [|discriminate].
    specialize (IH s1 s' Hrun).
    assert (H1 := pool_exec1_weight _ m s s1 Hstep). simpl. lia.
Qed.

(** A run that is not over has a step to take. *)
Lemma sup_progress (len_files threads : Z) (s : Sup.Sched) :
  bounded (Sup.semaphore s) (length (Sup.running s)) Sup.MAX_WORKERS →
  Sup.drained s = false →
  ∃ m s', Sup.exec1 len_files threads m s = Some s'
          ∧ m ≠ Sup.Interrupt
          ∧ match m with Sup.Panic _ => False | _ => True end.
Proof.
  intros [Hsem Hmax] Hd. unfold Sup.drained in Hd.
  destruct (Sup.running s) as [|g gs] eqn:Hr.
  - simpl in Hsem. destruct (Sup.sending s) as [job|] eqn:Hsend.
    + exists Sup.Acquire. simpl. rewrite Hsend, Hsem.
      destruct (decide _) as [_|Hfull];
        [|exfalso; apply Hfull; unfold Sup.MAX_WORKERS; lia].
      eexists. split; [reflexivity|]. split; [discriminate|exact I].
    + destruct (Sup.queue s) as [|job rest] eqn:Hq; [discriminate|].
      exists Sup.Select. simpl. rewrite Hsend, Hq.
      eexists. split; [reflexivity|]. split; [discriminate|exact I].
  - simpl in Hsem. destruct g as [job|job started].
    + exists (Sup.Launch 0). simpl. rewrite Hr. simpl.
      destruct (Sup.launch _ _ _ _) as [result w' evs|w' started].
      * unfold Sup.leave. rewrite Hsem.
        eexists. split; [reflexivity|]. split; [discriminate|exact I].
      * eexists. split; [reflexivity|]. split; [discriminate|exact I].
    + exists (Sup.Settle 0). simpl. rewrite Hr. simpl.
      destruct (Sup.settle _ _ _ _) as [[result w'] evs].
      unfold Sup.leave. rewrite Hsem.
      eexists. split; [reflexivity|]. split; [discriminate|exact I].
Qed.

Lemma pool_progress (numCPU : Z) (s : Pool.Sched) :
  bounded (Pool.semaphore s) (length (Pool.running s)) Pool.MAX_WORKERS →
  Pool.drained s = false →
  ∃ m s', Pool.exec1 numCPU m s = Some s'.
Proof.
  intros [Hsem Hmax] Hd. unfold Pool.drained in Hd.
  destruct (Pool.running s) as [|g gs] eqn:Hr.
  - simpl in Hsem. destruct (Pool.queue s) as [|job rest] eqn:Hq; [discriminate|].
    exists Pool.Acquire. simpl. rewrite Hq, Hsem.
    destruct (decide _) as [_|Hfull];
      [|exfalso; apply Hfull; unfold Pool.MAX_WORKERS; lia].
    eexists. reflexivity.
  - simpl in Hsem. destruct g as [job|job started].
    + exists (Pool.Launch 0). simpl. rewrite Hr. simpl.
      destruct (Pool.launch _ _ _ _) as [result d' evs|d' started].
      * unfold Pool.leave. rewrite Hsem. eexists. reflexivity.
      * eexists. reflexivity.
    + exists (Pool.Settle 0). simpl. rewrite Hr. simpl.
      destruct (Pool.settle _ _ _ _) as [[result d'] evs].
      unfold Pool.leave. rewrite Hsem. eexists. reflexivity.
Qed.

Lemma sup_can_finish (len_files threads : Z) :
  ∀ n s,
    sup_weight s <= n →
    bounded (Sup.semaphore s) (length (Sup.running s)) Sup.MAX_WORKERS →
    ∃ rest s', Sup.exec len_files threads rest s = Some s'
               ∧ Sup.drained s' = true
               ∧ quiet rest ∧ no_panic rest
               ∧ length rest <= sup_weight s.
Proof.
  induction n as [|n IH]; intros s Hn Hs.
  - exists [], s. simpl. repeat split; try constructor; try lia.
    unfold sup_weight in Hn. unfold Sup.drained.
    destruct (Sup.queue s); [|simpl in Hn; lia].
    destruct (Sup.sending s); [simpl in Hn; lia|].
    destruct (Sup.running s) as [|[job|job started] gs]; [reflexivity|..];
      simpl in Hn; lia.
  - destruct (Sup.drained s) eqn:Hd.
    + exists [], s. simpl. repeat split; try constructor; try lia. exact Hd.
    + destruct (sup_progress len_files threads s Hs Hd) as (m & s1 & Hstep & Hm & Hp).
      assert (Hw := sup_exec1_weight _ _ m s s1 Hstep).
      assert (Hone : work [m] = 1)
        by (destruct m; [contradiction Hm; reflexivity|reflexivity..]).
      destruct (IH s1) as (rest & s' & Hrun & Hdr & Hq & Hnp & Hlen);
        [lia|exact (sup_exec1_bounded _ _ m s s1 Hs Hstep)|].
      exists (m :: rest), s'. simpl. rewrite Hstep.
      split; [exact Hrun|]. split; [exact Hdr|].
      split; [constructor; assumption|]. split; [constructor; assumption|lia].
Qed.

Lemma pool_can_finish (numCPU : Z) :
  ∀ n s,
    pool_weight s <= n →
    bounded (Pool.semaphore s) (length (Pool.running s)) Pool.MAX_WORKERS →
    ∃ rest s', Pool.exec numCPU rest s = Some s'
               ∧ Pool.drained s' = true
               ∧ length rest <= pool_weight s.
Proof.
  induction n as [|n IH]; intros s Hn Hs.
  - exists [], s. simpl. repeat split; try lia.
    unfold pool_weight in Hn. unfold Pool.drained.
    destruct (Pool.queue s); [|simpl in Hn; lia].
    destruct (Pool.running s) as [|[job|job started] gs]; [reflexivity|..];
      simpl in Hn; lia.
  - destruct (Pool.drained s) eqn:Hd.
    + exists [], s. simpl. repeat split; try lia. exact Hd.
    + destruct (pool_progress numCPU s Hs Hd) as (m & s1 & Hstep).
      assert (Hw := pool_exec1_weight _ m s s1 Hstep).
      destruct (IH s1) as (rest & s' & Hrun & Hdr & Hlen);
        [lia|exact (pool_exec1_bounded _ m s s1 Hs Hstep)|].
      exists (m :: rest), s'. simpl. rewrite Hstep.
      split; [exact Hrun|]. split; [exact Hdr|lia].
Qed.

Lemma sup_exec_app (len_files threads : Z) (a b : list Sup.Move) :
  ∀ s s', Sup.exec len_files threads a s = Some s' →
          Sup.exec len_files threads (a ++ b) s = Sup.exec len_files threads b s'.
Proof.
  induction a as [|m a IH]; intros s s' Hrun; simpl in *.
  - injection Hrun as <-. reflexivity.
  - destruct (Sup.exec1 len_files threads m s) as [s1|]; [|discriminate].
    apply IH. exact Hrun.
Qed.

Lemma pool_exec_app (numCPU : Z) (a b : list Pool.Move) :
  ∀ s s', Pool.exec numCPU a s = Some s' →
          Pool.exec numCPU (a ++ b) s = Pool.exec numCPU b s'.
Proof.
  induction a as [|m a IH]; intros s s' Hrun; simpl in *.
  - injection Hrun as <-. reflexivity.
  - destruct (Pool.exec1 numCPU m s) as [s1|]; [|discriminate].
    apply IH. exact Hrun.
Qed.

End Termination.

(** X15.  A run of [processFiles] over [n] files takes at most [4 n] steps
    in the supervised worker pool (for each file the [select], the send,
    the task up to its [select] and its return), however many signals
    arrive in between, and at most [3 n] in the plain worker pool: along
    every schedule the steps taken and the steps left sum to no more. *)
Theorem runs_take_boundedly_many_steps :
  (∀ (jobs : list Sup.Job) threads w schedule s,
      Sup.processFiles jobs threads w schedule = Some s →
      (Runs.work schedule + Runs.sup_weight s <= 4 * length jobs)%nat)
  ∧ (∀ (jobs : list Pool.Job) numCPU d schedule s,
        Pool.processFiles jobs numCPU d schedule = Some s →
        (length schedule + Runs.pool_weight s <= 3 * length jobs)%nat).
Proof.
  split.
  - intros jobs threads w schedule s Hrun.
    assert (H := sup_exec_weight _ _ schedule _ s Hrun).
    unfold Runs.sup_weight at 2 in H. simpl in H. lia.
  - intros jobs numCPU d schedule s Hrun.
    assert (H := pool_exec_weight _ schedule _ s Hrun).
    unfold Runs.pool_weight at 2 in H. simpl in H. lia.
Qed.

(** X16.  The worker pools cannot get stuck: from every state a run of
    [processFiles] reaches, under whatever schedule of goroutines, signals
    and panics, the run can be continued, without a signal or a panic and
    within the number of steps left, to the state in which the loop is over
    and every goroutine has returned, where [wg.Wait()] returns.  (Each
    ffmpeg is taken to end, as the moves of the model have it.) *)
Theorem every_run_can_finish :
  (∀ (jobs : list Sup.Job) threads w schedule s,
      Sup.processFiles jobs threads w schedule = Some s →
      ∃ rest s',
        Sup.processFiles jobs threads w (schedule ++ rest) = Some s'
        ∧ Sup.drained s' = true
        ∧ Measure.quiet rest ∧ Runs.no_panic rest
        ∧ (length rest <= Runs.sup_weight s)%nat)
  ∧ (∀ (jobs : list Pool.Job) numCPU d schedule s,
        Pool.processFiles jobs numCPU d schedule = Some s →
        ∃ rest s',
          Pool.processFiles jobs numCPU d (schedule ++ rest) = Some s'
          ∧ Pool.drained s' = true
          ∧ (length rest <= Runs.pool_weight s)%nat).
Proof.
  split.
  - intros jobs threads w schedule s Hrun.
    destruct (sup_can_finish (Z.of_nat (length jobs)) threads (Runs.sup_weight s) s)
      as (rest & s' & Hrest & Hd & Hq & Hp & Hlen);
      [lia|exact (sup_run_bounded jobs threads w schedule s Hrun)|].
    exists rest, s'. unfold Sup.processFiles.
    rewrite (sup_exec_app _ _ schedule rest _ s Hrun). auto.
  - intros jobs numCPU d schedule s Hrun.
    destruct (pool_can_finish numCPU (Runs.pool_weight s) s)
      as (rest & s' & Hrest & Hd & Hlen);
      [lia|exact (pool_run_bounded jobs numCPU d schedule s Hrun)|].
    exists rest, s'. unfold Pool.processFiles.
    rewrite (pool_exec_app _ schedule rest _ s Hrun). auto.
Qed.

(** ** The sweeps *)

Section Sweeps.
Import FilePath FS Walker Common Effects Runs.

Lemma Remove_missing (p : path) (d : gmap path entry) :
  exists_at d p = false → Remove p d = d.
Proof.
  intros H. apply exists_at_false in H. unfold Remove. rewrite H. reflexivity.
Qed.

Lemma removes_app (a b : list path) (d : gmap path entry) :
  removes (a ++ b) d = removes b (removes a d).
Proof. unfold removes. apply fold_left_app. Qed.

Lemma sequential_sweep_walk (n : node) :
  ∀ p d, walk Seq.sweep p n d = (removes (markers p n) d, Continue).
Proof.
  induction n as [name size|name|name readable children IH] using node_induction;
    intros p d.
  - simpl. destruct (GoStrings.HasSuffix _ _); reflexivity.
  - reflexivity.
  - destruct readable; simpl; [|reflexivity].
    revert d. induction IH as [|c cs Hc _ IHcs]; intros d; [reflexivity|].
    simpl. rewrite removes_app.
    destruct c as [cname csize|cname creadable cchildren|cname].
    + rewrite Hc. apply IHcs.
    + rewrite Hc. apply IHcs.
    + simpl. apply IHcs.
Qed.

Lemma supervised_sweep_walk (n : node) :
  ∀ p d, walk Sup.sweep p n d
         = (removes (flat_map (λ m, [marked m; m]) (markers p n)) d, Continue).
Proof.
  induction n as [name size|name|name readable children IH] using node_induction;
    intros p d.
  - simpl. destruct (GoStrings.HasSuffix _ _); [|reflexivity]. simpl.
    unfold marked. destruct (exists_at d _) eqn:Hex; [reflexivity|].
    rewrite (Remove_missing _ _ Hex). reflexivity.
  - reflexivity.
  - destruct readable; simpl; [|reflexivity].
    revert d. induction IH as [|c cs Hc _ IHcs]; intros d; [reflexivity|].
    simpl. rewrite flat_map_app, removes_app.
    destruct c as [cname csize|cname creadable cchildren|cname].
    + rewrite Hc. apply IHcs.
    + rewrite Hc. apply IHcs.
    + simpl. apply IHcs.
Qed.

Lemma Remove_subseteq (p : path) (d : gmap path entry) : Remove p d ⊆ d.
Proof.
  unfold Remove. destruct (d !! p) as [[size|]|]; try reflexivity.
  - apply delete_subseteq.
  - destruct (empty_dir p d); [apply delete_subseteq|reflexivity].
Qed.

Lemma removes_subseteq (l : list path) : ∀ d, removes l d ⊆ d.
Proof.
  induction l as [|m l IH]; intros d; [reflexivity|].
  change (removes l (Remove m d) ⊆ d).
  etransitivity; [apply IH|apply Remove_subseteq].
Qed.

Lemma removes_other (q : path) (l : list path) :
  ∀ d, q ∉ l → removes l d !! q = d !! q.
Proof.
  induction l as [|m l IH]; intros d Hq; [reflexivity|].
  apply not_elem_of_cons in Hq as [Hne Hq].
  change (removes l (Remove m d) !! q = d !! q).
  rewrite IH by exact Hq. apply Remove_other. congruence.
Qed.

Lemma removes_absent (q : path) (l : list path) :
  ∀ d, d !! q = None → removes l d !! q = None.
Proof.
  induction l as [|m l IH]; intros d Hq; [exact Hq|].
  change (removes l (Remove m d) !! q = None).
  apply IH. destruct (decide (m = q)) as [->|Hne].
  - apply Remove_file. rewrite Hq. discriminate.
  - rewrite Remove_other by exact Hne. exact Hq.
Qed.

Lemma Remove_removable (p : path) (d : gmap path entry) :
  removable d p → Remove p d !! p = None.
Proof.
  intros [Hfile|Hempty]; [apply Remove_file; exact Hfile|].
  unfold Remove. destruct (d !! p) as [[size|]|] eqn:Hp.
  - apply lookup_delete_eq.
  - rewrite Hempty. apply lookup_delete_eq.
  - exact Hp.
Qed.

Lemma empty_dir_subseteq (p : path) (d d' : gmap path entry) :
  d' ⊆ d → empty_dir p d = true → empty_dir p d' = true.
Proof.
  unfold empty_dir. intros Hsub H.
  apply bool_decide_eq_true in H. apply bool_decide_eq_true.
  intros q e Hq. apply (H q e). exact (lookup_weaken _ _ _ _ Hq Hsub).
Qed.

Lemma removable_Remove (m q : path) (d : gmap path entry) :
  m ≠ q → removable d q → removable (Remove m d) q.
Proof.
  intros Hne [Hfile|Hempty].
  - left. rewrite Remove_other by exact Hne. exact Hfile.
  - right. exact (empty_dir_subseteq q d _ (Remove_subseteq m d) Hempty).
Qed.

Lemma removes_elem (q : path) (l : list path) :
  ∀ d, q ∈ l → removable d q → removes l d !! q = None.
Proof.
  induction l as [|m l IH]; intros d Hq Hd; [inversion Hq|].
  change (removes l (Remove m d) !! q = None).
  destruct (decide (m = q)) as [->|Hne].
  - apply removes_absent. apply Remove_removable. exact Hd.
  - apply elem_of_cons in Hq as [->|Hq]; [contradiction|].
    apply IH; [exact Hq|]. apply removable_Remove; assumption.
Qed.

(** A directory that keeps something below it is kept. *)
Lemma Remove_kept (p q : path) (d : gmap path entry) :
  d !! q = Some EDir → empty_dir q (Remove p d) = false →
  Remove p d !! q = Some EDir.
Proof.
  intros Hq Hfull. destruct (decide (p = q)) as [->|Hne];
    [|rewrite Remove_other by exact Hne; exact Hq].
  unfold Remove in *. rewrite Hq in *.
  destruct (empty_dir q d) eqn:Hempty; [|exact Hq].
  rewrite (empty_dir_subseteq q d (delete q d) (delete_subseteq d q) Hempty)
    in Hfull.
  discriminate Hfull.
Qed.

Lemma removes_kept (q : path) (l : list path) :
  ∀ d, d !! q = Some EDir → empty_dir q (removes l d) = false →
       removes l d !! q = Some EDir.
Proof.
  induction l as [|m l IH]; intros d Hq Hfull; [exact Hq|].
  change (removes l (Remove m d) !! q = Some EDir).
  change (empty_dir q (removes l (Remove m d)) = false) in Hfull.
  apply IH; [|exact Hfull]. apply Remove_kept; [exact Hq|].
  destruct (empty_dir q (Remove m d)) eqn:Hempty; [|reflexivity].
  rewrite (empty_dir_subseteq q _ _ (removes_subseteq l (Remove m d)) Hempty)
    in Hfull.
  discriminate Hfull.
Qed.

End Sweeps.

(** X17.  What the two [cleanupIncompleteFiles] do, whatever the tree and
    the disk.  The walk is never aborted.  For every file it meets whose
    path ends in [.incomplete], [os.Remove] is called on that path, and in
    the second program on the path the marker stands for as well: what is
    at such a path is gone after the sweep when it is a file or a directory
    with nothing below it, and a directory that has something below it at
    the end is still there.  Every other path is left as it is, so that the
    first program keeps the partial output of a marker it removes; nothing
    is created. *)
Theorem sweeps_remove_what_is_marked
    (dir : FilePath.path) (root : FS.node) (d : gmap FilePath.path FS.entry) :
  let found := Runs.markers (FilePath.Join dir (FS.node_name root)) root in
  let seq := Seq.cleanupIncompleteFiles dir root d in
  let sup := Sup.cleanupIncompleteFiles dir root d in
  (∀ m, m ∈ found → Runs.removable d m → seq !! m = None ∧ sup !! m = None)
  ∧ (∀ m, m ∈ found → Runs.removable d (Runs.marked m) →
          sup !! Runs.marked m = None)
  ∧ (∀ q, d !! q = Some FS.EDir →
          (FS.empty_dir q seq = false → seq !! q = Some FS.EDir)
          ∧ (FS.empty_dir q sup = false → sup !! q = Some FS.EDir))
  ∧ (∀ q, q ∉ found → seq !! q = d !! q)
  ∧ (∀ q, q ∉ found → (∀ m, m ∈ found → q ≠ Runs.marked m) → sup !! q = d !! q)
  ∧ seq ⊆ d ∧ sup ⊆ d.
Proof.
  intros found seq sup.
  assert (Hseq : seq = Runs.removes found d).
  { subst seq found. unfold Seq.cleanupIncompleteFiles, Walker.Walk.
    rewrite sequential_sweep_walk. reflexivity. }
  assert (Hsup : sup = Runs.removes (flat_map (λ m, [Runs.marked m; m]) found) d).
  { subst sup found. unfold Sup.cleanupIncompleteFiles, Walker.Walk.
    rewrite supervised_sweep_walk. reflexivity. }
  rewrite Hseq, Hsup. clear Hseq Hsup seq sup.
  assert (Hin : ∀ q, q ∈ flat_map (λ m, [Runs.marked m; m]) found
                     ↔ ∃ m, m ∈ found ∧ (q = Runs.marked m ∨ q = m)).
  { intros q. rewrite list_elem_of_In, in_flat_map. split.
    - intros (m & Hm & [<-|[<-|[]]]); exists m;
        (split; [apply list_elem_of_In; exact Hm|auto]).
    - intros (m & Hm & Hq). exists m. split; [apply list_elem_of_In; exact Hm|].
      simpl. destruct Hq as [->| ->]; auto. }
  split; [|split; [|split; [|split; [|split; [|split]]]]].
  - intros m Hm Hd. split; apply removes_elem; try assumption.
    apply Hin. eauto.
  - intros m Hm Hd. apply removes_elem; [|exact Hd]. apply Hin. eauto.
  - intros q Hq. split; apply removes_kept; exact Hq.
  - intros q Hq. apply removes_other. exact Hq.
  - intros q Hq Hmarked. apply removes_other. intros H.
    apply Hin in H as (m & Hm & [->| ->]); [exact (Hmarked m Hm eq_refl)|].
    contradiction.
  - apply removes_subseteq.
  - apply removes_subseteq.
Qed.

Lemma sweeps_remove_what_is_marked_witness :
  let d := FS.flatten ["videos"] Sample.husk ∅ in
  d !! ["videos"; "x"] = Some FS.EDir
  ∧ Sup.cleanupIncompleteFiles [] Sample.husk d !! ["videos"; "x"] = None
  ∧ Seq.cleanupIncompleteFiles [] Sample.husk d !! ["videos"; "x"] = Some FS.EDir.
Proof.
  intros d. split; [reflexivity|].
  destruct (sweeps_remove_what_is_marked [] Sample.husk d)
    as (_ & Hmarked & _ & Hseq & _).
  split.
  - apply (Hmarked ["videos"; "x.incomplete"]).
    + apply list_elem_of_In. left. reflexivity.
    + right. vm_compute. reflexivity.
  - rewrite Hseq; [reflexivity|].
    intros H. apply list_elem_of_In in H. destruct H as [H|[]]. discriminate H.
Defined.

(** ** The thread budget of the two worker pools *)

Section BudgetFacts.
Local Open Scope Z_scope.

Lemma budget_of_cpus (numCPU : Z) :
  1 <= numCPU → 50 * numCPU <= GoInt.max_int →
  ThreadBudget.calculateThreadsPerWorker 50 2 numCPU = Z.max 1 (numCPU / 4).
Proof.
  intros Hn Hmax. unfold ThreadBudget.calculateThreadsPerWorker, GoInt.mul.
  assert (Hp : GoInt.min_int <= 50 * numCPU <= GoInt.max_int)
    by (unfold GoInt.min_int, GoInt.max_int in *; lia).
  rewrite (wrap_in_range _ Hp).
  destruct (quot_in_range (50 * numCPU) 100 Hp) as [-> _]; [lia|].
  rewrite Z.quot_div_nonneg by lia.
  assert (Htotal : (if 50 * numCPU / 100 <? 1 then 1 else 50 * numCPU / 100)
                   = Z.max 1 (numCPU / 2)).
  { assert (Hhalf : 50 * numCPU / 100 = numCPU / 2).
    { replace (50 * numCPU) with (numCPU * 50) by lia. change 100 with (2 * 50).
      apply Z.div_mul_cancel_r; lia. }
    rewrite Hhalf. destruct (Z.ltb_spec (numCPU / 2) 1); cbv iota; lia. }
  cbv zeta. rewrite Htotal.
  assert (H := budget_of_total (Z.max 1 (numCPU / 2)) 2).
  assert (Hle : numCPU / 2 <= numCPU) by (apply Z.div_le_upper_bound; lia).
  cbv zeta in H. rewrite H; [|unfold GoInt.max_int in *; lia|lia].
  assert (Hquarter : numCPU / 2 / 2 = numCPU / 4)
    by (rewrite Z.div_div by lia; reflexivity).
  destruct (Z.max_spec 1 (numCPU / 2)) as [[Hlt ->]|[Hge ->]].
  - rewrite Hquarter. reflexivity.
  - assert (numCPU / 4 <= 1 / 2)
      by (rewrite <- Hquarter; apply Z.div_le_mono; lia).
    change (1 / 2) with 0 in *. lia.
Qed.

End BudgetFacts.

(** X18.  The thread budget of the two worker pools, on a machine of [n]
    CPUs ([50 n] being a machine integer): both programs give each ffmpeg
    [max 1 (n / 4)] threads, a number that does not decrease with [n]; the
    two workers together stay within the target of 50 percent of the CPUs
    exactly when the machine has 4 CPUs or more. *)
Theorem thread_budget_meets_the_target (n : Z) :
  (1 <= n)%Z → (50 * n <= GoInt.max_int)%Z →
  let threads := Sup.calculateThreadsPerWorker n in
  Pool.threadsPerWorker n = threads
  ∧ threads = Z.max 1 (n / 4)
  ∧ (∀ n', (n <= n')%Z → (50 * n' <= GoInt.max_int)%Z →
           (threads <= Sup.calculateThreadsPerWorker n')%Z)
  ∧ ((Sup.MAX_WORKERS * threads * 100 <= Sup.TARGET_CPU_PERCENT * n)%Z
     ↔ (4 <= n)%Z).
Proof.
  intros Hn Hmax threads. subst threads.
  unfold Sup.calculateThreadsPerWorker, Pool.threadsPerWorker.
  change Sup.TARGET_CPU_PERCENT with 50%Z. change Sup.MAX_WORKERS with 2%Z.
  change Pool.TARGET_CPU_PERCENT with 50%Z. change Pool.MAX_WORKERS with 2%Z.
  rewrite (budget_of_cpus n Hn Hmax).
  split; [reflexivity|]. split; [reflexivity|]. split.
  - intros n' Hle Hmax'. rewrite (budget_of_cpus n') by lia.
    assert (n / 4 <= n' / 4)%Z by (apply Z.div_le_mono; lia). lia.
  - destruct (Z_lt_le_dec n 4) as [Hsmall|Hbig].
    + rewrite (Z.div_small n 4) by lia. split; intros H; lia.
    + assert (1 <= n / 4)%Z by (apply Z.div_le_lower_bound; lia).
      assert (4 * (n / 4) <= n)%Z by (apply Z.mul_div_le; lia).
      split; intros _; lia.
Qed.

Lemma thread_budget_meets_the_target_witness :
  Sup.calculateThreadsPerWorker 16 = 4%Z
  ∧ (Sup.MAX_WORKERS * Sup.calculateThreadsPerWorker 16 * 100
     <= Sup.TARGET_CPU_PERCENT * 16)%Z.
Proof.
  assert (H1 : (1 <= 16)%Z) by lia.
  assert (H2 : (50 * 16 <= GoInt.max_int)%Z) by (vm_compute; discriminate).
  destruct (thread_budget_meets_the_target 16 H1 H2) as (_ & Ht & _ & Hload).
  split; [exact Ht|]. apply Hload. lia.
Defined.

(** ** The counters of the sequential program *)

Section SequentialCounters.
Import FilePath FS Walker Common Runs.
Local Open Scope Z_scope.

Lemma sequential_loop_counters (len_files threads : Z) (jobs : list Seq.Job) :
  ∀ c w,
    total c + Z.of_nat (length jobs) = len_files →
    let run := Seq.loop len_files threads jobs c w in
    successCount (Seq.counts run) = successCount c + occurrences 0 (Seq.results run)
    ∧ skipCount (Seq.counts run) = skipCount c + occurrences 1 (Seq.results run)
    ∧ errorCount (Seq.counts run) = errorCount c + occurrences 2 (Seq.results run)
    ∧ canceledCount (Seq.counts run)
      = canceledCount c + occurrences 3 (Seq.results run)
        + (Z.of_nat (length jobs) - Z.of_nat (length (Seq.results run))).
Proof.
  unfold occurrences.
  induction jobs as [|job jobs IH]; intros c w Hsum; cbn [Seq.loop].
  - simpl. lia.
  - destruct (canceled _).
    + unfold total in Hsum. cbn [length] in *. simpl. lia.
    + match goal with
      | |- context [Seq.processFile ?f ?t ?e ?w0] =>
          destruct (sequential_code f t e w0) as [o Ho];
          destruct (Seq.processFile f t e w0) as [[result w'] evs]
      end.
      unfold code in Ho. simpl in Ho.
      assert (Hsum' : total (tally result c) + Z.of_nat (length jobs) = len_files).
      { rewrite (tally_total result c o Ho). cbn [length] in Hsum. lia. }
      specialize (IH (tally result c) w' Hsum'). cbv zeta in IH.
      destruct IH as (H0 & H1 & H2 & H3).
      cbn [Seq.counts Seq.results length]. rewrite H0, H1, H2, H3.
      unfold outcome_of in Ho. unfold tally.
      repeat (destruct (decide _) as [->|?];
              [simpl; repeat (destruct (Z.eq_dec _ _); try congruence); lia|]).
      discriminate Ho.
Qed.

End SequentialCounters.

(** X19.  The summary of the sequential program agrees with what
    [processFile] returned: the first three counters are the numbers of
    calls that returned 0, 1 and 2, and [canceledCount] is the number of
    calls that returned 3 plus the number of files for which [processFile]
    was never called, the loop having been left on a canceled context. *)
Theorem sequential_counters_match_the_results
    (jobs : list Seq.Job) (threads : Z) (w : Common.World) :
  let run := Seq.processFiles jobs threads w in
  let counts := Seq.counts run in
  Common.successCount counts = Runs.occurrences 0 (Seq.results run)
  ∧ Common.skipCount counts = Runs.occurrences 1 (Seq.results run)
  ∧ Common.errorCount counts = Runs.occurrences 2 (Seq.results run)
  ∧ Common.canceledCount counts
    = (Runs.occurrences 3 (Seq.results run)
       + (Z.of_nat (length jobs) - Z.of_nat (length (Seq.results run))))%Z.
Proof.
  cbv zeta. unfold Seq.processFiles.
  destruct (sequential_loop_counters (Z.of_nat (length jobs)) threads jobs
              Common.zero w) as (H0 & H1 & H2 & H3); [reflexivity|].
  rewrite H0, H1, H2, H3. simpl. repeat split; lia.
Qed.

(** ** What a completed run leaves *)

Section Leftovers.
Import FilePath FS Walker Common Effects Runs.
Local Open Scope Z_scope.

Lemma last_differs (a b : path) (x y t u : string) :
  String.length t = String.length u → t ≠ u →
  Join a (x +:+ t) ≠ Join b (y +:+ u).
Proof.
  intros Hlen Hne H. unfold Join in H. apply app_inj_tail in H as [_ H].
  apply append_inj_suffix in H as [_ H]; [contradiction|exact Hlen].
Qed.

Lemma marker_shape (file : VideoFile) :
  add_suffix (output_path "converted" ".mkv" file) ".incomplete"
  = Join (Join (sourceDir file) "converted")
         ((Names.stem (fileName file) +:+ ".mkv" +:+ ".incomp") +:+ "lete").
Proof.
  unfold output_path. rewrite add_suffix_Join. f_equal.
  rewrite !append_assoc. reflexivity.
Qed.

Lemma output_shape (file : VideoFile) :
  output_path "converted" ".mkv" file
  = Join (Join (sourceDir file) "converted") (Names.stem (fileName file) +:+ ".mkv").
Proof. reflexivity. Qed.

Lemma temporary_shape (file : VideoFile) :
  add_suffix (output_path "converted" ".mkv" file) ".tmp"
  = Join (Join (sourceDir file) "converted")
         ((Names.stem (fileName file) +:+ ".mkv") +:+ ".tmp").
Proof. unfold output_path. rewrite add_suffix_Join. reflexivity. Qed.

Lemma converted_shape (file : VideoFile) :
  Join (sourceDir file) "converted" = Join (sourceDir file) ("conve" +:+ "rted").
Proof. reflexivity. Qed.

(** A marker is owned by the tasks it is the marker of, and by no other. *)
Lemma marker_owner (file : VideoFile) (p : path) :
  is_marker p → owned file p →
  p = add_suffix (output_path "converted" ".mkv" file) ".incomplete".
Proof.
  intros [f ->] [H|[H|[H|H]]]; [exfalso..|exact H|exfalso]; revert H.
  - rewrite marker_shape, (converted_shape file).
    apply last_differs; [reflexivity|discriminate].
  - rewrite marker_shape, output_shape. apply last_differs; [reflexivity|discriminate].
  - rewrite marker_shape, temporary_shape. apply last_differs; [reflexivity|discriminate].
Qed.

Lemma output_owner (file : VideoFile) (p : path) :
  is_output p → owned file p → p = output_path "converted" ".mkv" file.
Proof.
  intros [f ->] [H|[H|[H|H]]]; [exfalso|exact H|exfalso..]; revert H.
  - rewrite output_shape, (converted_shape file).
    apply last_differs; [reflexivity|discriminate].
  - rewrite marker_shape, output_shape. apply last_differs; [reflexivity|discriminate].
  - rewrite temporary_shape, output_shape. apply last_differs; [reflexivity|discriminate].
Qed.

(** The marker of a task, through its two halves. *)
Lemma supervised_launch_marker (file : VideoFile) (threads : Z) (env : Env)
    (w : World) :
  let marker := add_suffix (output_path "converted" ".mkv" file) ".incomplete" in
  match Sup.launch file threads env w with
  | Sup.Over _ w' _ =>
      disk w' !! marker = None ∨ disk w' !! marker = disk w !! marker
  | Sup.Waiting w' _ => ∃ size, disk w' !! marker = Some (EFile size)
  end.
Proof.
  cbv zeta. unfold Sup.launch. cbv zeta.
  change Sup.CONVERTED_DIR with "converted". change Sup.OUTPUT_EXTENSION with ".mkv".
  destruct (output_not_directory file) as [_ Hmarker_dir].
  specialize (Hmarker_dir ".incomplete").
  assert (Hne : add_suffix (output_path "converted" ".mkv" file) ".incomplete"
                ≠ output_path "converted" ".mkv" file)
    by (apply marker_differs; discriminate).
  set (out := output_path "converted" ".mkv" file) in *.
  set (marker := add_suffix out ".incomplete") in *.
  destruct (canceled w); [right; reflexivity|].
  destruct (MkdirAll _ _ _) as [d1|] eqn:Hmk; [|right; reflexivity].
  apply MkdirAll_directory in Hmk as [_ Hd1]. specialize (Hd1 marker Hmarker_dir).
  destruct (exists_at d1 out); [right; exact Hd1|].
  destruct (negb (marker_ok env)); [right; exact Hd1|].
  destruct (negb (start_ok env)).
  - left. frame_leaf. apply (Remove_wipes _ _ (stamp_size env)). right.
    rewrite Remove_other by congruence. apply lookup_insert_eq.
  - exists (stamp_size env). frame_leaf. apply lookup_insert_eq.
Qed.

Lemma supervised_settle_marker (file : VideoFile) (env : Env) (w : World)
    (started : list Event) :
  let marker := add_suffix (output_path "converted" ".mkv" file) ".incomplete" in
  disk w !! marker ≠ Some EDir →
  disk (after (Sup.settle file env w started)) !! marker = None.
Proof.
  cbv zeta. unfold Sup.settle. cbv zeta.
  change Sup.CONVERTED_DIR with "converted". change Sup.OUTPUT_EXTENSION with ".mkv".
  assert (Hne : add_suffix (output_path "converted" ".mkv" file) ".incomplete"
                ≠ output_path "converted" ".mkv" file)
    by (apply marker_differs; discriminate).
  set (out := output_path "converted" ".mkv" file) in *.
  set (marker := add_suffix out ".incomplete") in *.
  intros Hd.
  assert (H3 : transcode out env (disk w) !! marker ≠ Some EDir)
    by (rewrite transcode_other by congruence; exact Hd).
  split_task; frame_leaf; apply Remove_file;
    rewrite ?Remove_other by congruence; exact H3.
Qed.

(** The output of a task, through its two halves. *)
Lemma supervised_launch_output (file : VideoFile) (threads : Z) (env : Env)
    (w : World) :
  let out := output_path "converted" ".mkv" file in
  match Sup.launch file threads env w with
  | Sup.Over _ w' _ | Sup.Waiting w' _ =>
      disk w' !! out = None ∨ disk w' !! out = disk w !! out
  end.
Proof.
  cbv zeta. unfold Sup.launch. cbv zeta.
  change Sup.CONVERTED_DIR with "converted". change Sup.OUTPUT_EXTENSION with ".mkv".
  destruct (output_not_directory file) as [Hout_dir _].
  assert (Hne : add_suffix (output_path "converted" ".mkv" file) ".incomplete"
                ≠ output_path "converted" ".mkv" file)
    by (apply marker_differs; discriminate).
  set (out := output_path "converted" ".mkv" file) in *.
  set (marker := add_suffix out ".incomplete") in *.
  destruct (canceled w); [right; reflexivity|].
  destruct (MkdirAll _ _ _) as [d1|] eqn:Hmk; [|right; reflexivity].
  apply MkdirAll_directory in Hmk as [_ Hd1]. specialize (Hd1 out Hout_dir).
  destruct (exists_at d1 out) eqn:Hex; [right; exact Hd1|].
  apply exists_at_false in Hex.
  split_task; left; frame_leaf; try exact Hex.
  apply (Remove_wipes _ _ 0). left.
  rewrite lookup_insert_ne by exact Hne. exact Hex.
Qed.

Lemma supervised_settle_output (file : VideoFile) (env : Env) (w : World)
    (started : list Event) :
  let out := output_path "converted" ".mkv" file in
  disk w !! out ≠ Some EDir →
  output_sound out (disk (after (Sup.settle file env w started))).
Proof.
  cbv zeta. unfold Sup.settle. cbv zeta.
  change Sup.CONVERTED_DIR with "converted". change Sup.OUTPUT_EXTENSION with ".mkv".
  assert (Hne : add_suffix (output_path "converted" ".mkv" file) ".incomplete"
                ≠ output_path "converted" ".mkv" file)
    by (apply marker_differs; discriminate).
  set (out := output_path "converted" ".mkv" file) in *.
  set (marker := add_suffix out ".incomplete") in *.
  intros Hd.
  assert (H3 : transcode out env (disk w) !! out ≠ Some EDir).
  { unfold transcode. destruct (produced env); [|exact Hd].
    rewrite lookup_insert_eq. discriminate. }
  assert (Hwipe : Remove out (transcode out env (disk w)) !! out = None)
    by (apply Remove_file; exact H3).
  destruct (completion env) as [grace|ok c].
  { left. frame_leaf. exact Hwipe. }
  destruct c; (destruct (negb ok); [left; frame_leaf; exact Hwipe|]);
    unfold unregister, set_processes, cancel, on_disk, set_disk; cbn [disk];
    (destruct (Sup.intact _ _) eqn:Hint; [right|left; frame_leaf; exact Hwipe]);
    frame_leaf; unfold Sup.intact in Hint;
    (destruct (transcode out env (disk w) !! out) as [[size|]|];
       [|contradiction H3; reflexivity|discriminate Hint]);
    exists size; (split; [reflexivity|]); intros ->; discriminate Hint.
Qed.

Lemma Exists_delete_other {A : Type} (Q : A → Prop) (l : list A) :
  ∀ i g, l !! i = Some g → ¬ Q g → Exists Q l → Exists Q (delete i l).
Proof.
  induction l as [|x l IH]; intros i g Hi Hg Hl; [discriminate Hi|].
  destruct i as [|i].
  - injection Hi as ->. apply Exists_cons in Hl as [Hx|Hl]; [contradiction|exact Hl].
  - apply Exists_cons in Hl as [Hx|Hl].
    + apply Exists_cons. left. exact Hx.
    + apply Exists_cons. right. exact (IH i g Hi Hg Hl).
Qed.

Lemma Exists_insert_other {A : Type} (Q : A → Prop) (l : list A) (x' : A) :
  ∀ i g, l !! i = Some g → ¬ Q g → Exists Q l → Exists Q (<[i := x']> l).
Proof.
  induction l as [|x l IH]; intros i g Hi Hg Hl; [discriminate Hi|].
  destruct i as [|i].
  - injection Hi as ->. apply Exists_cons in Hl as [Hx|Hl]; [contradiction|].
    apply Exists_cons. right. exact Hl.
  - apply Exists_cons in Hl as [Hx|Hl].
    + apply Exists_cons. left. exact Hx.
    + apply Exists_cons. right. exact (IH i g Hi Hg Hl).
Qed.

Lemma Exists_insert_here {A : Type} (Q : A → Prop) (l : list A) (x' : A) :
  ∀ i g, l !! i = Some g → Q x' → Exists Q (<[i := x']> l).
Proof.
  induction l as [|x l IH]; intros i g Hi Hx'; [discriminate Hi|].
  destruct i as [|i].
  - apply Exists_cons. left. exact Hx'.
  - apply Exists_cons. right. exact (IH i g Hi Hx').
Qed.

Lemma marker_held_leave (p : path) (i : nat) (g : Sup.Goroutine) (c : Counts)
    (w : World) (s s' : Sup.Sched) :
  Sup.running s !! i = Some g →
  Sup.leave i c w s = Some s' →
  disk w !! p = None
  ∨ (sup_marker g ≠ Some p ∧ disk w !! p = disk (Sup.world s) !! p) →
  marker_held p s → marker_held p s'.
Proof.
  intros Hi Hleave Hw Hs. unfold Sup.leave in Hleave.
  destruct (Sup.semaphore s); [discriminate|]. injection Hleave as <-.
  unfold marker_held. simpl.
  destruct Hw as [Hw|[Hg Hw]]; [left; exact Hw|].
  rewrite Hw. destruct Hs as [Hs|[Hfile Hbusy]]; [left; exact Hs|].
  right. split; [exact Hfile|]. exact (Exists_delete_other _ _ i g Hi Hg Hbusy).
Qed.

Lemma sup_exec1_marker (p : path) (len_files threads : Z) (m : Sup.Move)
    (s s' : Sup.Sched) :
  is_marker p →
  match m with Sup.Panic _ => False | _ => True end →
  marker_held p s → Sup.exec1 len_files threads m s = Some s' →
  marker_held p s'.
Proof.
  intros Hp Hm Hs Hstep.
  destruct m as [| | |i|i|i]; simpl in Hstep; [| | | | |contradiction].
  - injection Hstep as <-. exact Hs.
  - destruct (Sup.sending s); [discriminate|].
    destruct (Sup.queue s); [discriminate|]. injection Hstep as <-. exact Hs.
  - destruct (Sup.sending s); [|discriminate].
    destruct (decide _); [|discriminate]. injection Hstep as <-.
    destruct Hs as [Hs|[Hfile Hbusy]]; [left; exact Hs|].
    right. split; [exact Hfile|]. simpl. apply Exists_app. left. exact Hbusy.
  - destruct (Sup.running s !! i) as [[job|job started]|] eqn:Hi; try discriminate.
    set (marker := add_suffix (output_path "converted" ".mkv" (Sup.file job))
                     ".incomplete").
    assert (Hframe := supervised_launch_frame (Sup.file job) threads (Sup.env job)
                        (Sup.world s) p).
    assert (Hmark := supervised_launch_marker (Sup.file job) threads (Sup.env job)
                       (Sup.world s)).
    cbv zeta in Hmark. fold marker in Hmark.
    assert (Hown : p ≠ marker → ¬ owned (Sup.file job) p).
    { intros Hne Ho. apply Hne. apply marker_owner; assumption. }
    destruct (Sup.launch _ _ _ _) as [result w' evs|w' started].
    + apply (marker_held_leave p i _ _ w' s s' Hi Hstep); [|exact Hs].
      destruct (decide (p = marker)) as [->|Hne].
      * destruct Hmark as [Hmark|Hmark]; [left; exact Hmark|].
        right. split; [discriminate|exact Hmark].
      * right. split; [discriminate|]. exact (Hframe (Hown Hne)).
    + injection Hstep as <-. unfold marker_held. simpl.
      destruct (decide (p = marker)) as [->|Hne].
      * right. split; [exact Hmark|].
        apply (Exists_insert_here _ _ _ i _ Hi). reflexivity.
      * rewrite (Hframe (Hown Hne)).
        destruct Hs as [Hs|[Hfile Hbusy]]; [left; exact Hs|].
        right. split; [exact Hfile|].
        apply (Exists_insert_other _ _ _ i _ Hi); [discriminate|exact Hbusy].
  - destruct (Sup.running s !! i) as [[job|job started]|] eqn:Hi; try discriminate.
    set (marker := add_suffix (output_path "converted" ".mkv" (Sup.file job))
                     ".incomplete").
    assert (Hframe := supervised_settle_frame (Sup.file job) (Sup.env job)
                        (Sup.world s) started p).
    assert (Hmark := supervised_settle_marker (Sup.file job) (Sup.env job)
                       (Sup.world s) started).
    cbv zeta in Hmark. fold marker in Hmark.
    assert (Hown : p ≠ marker → ¬ owned (Sup.file job) p).
    { intros Hne Ho. apply Hne. apply marker_owner; assumption. }
    destruct (Sup.settle _ _ _ _) as [[result w'] evs].
    unfold after in Hframe, Hmark. simpl in Hframe, Hmark.
    apply (marker_held_leave p i _ _ w' s s' Hi Hstep); [|exact Hs].
    destruct (decide (p = marker)) as [->|Hne].
    + left. apply Hmark.
      destruct Hs as [Hs|[[size Hfile] _]]; [rewrite Hs|rewrite Hfile]; discriminate.
    + right. split; [simpl; fold marker; congruence|]. exact (Hframe (Hown Hne)).
Qed.

Lemma sup_exec_marker (p : path) (len_files threads : Z) (schedule : list Sup.Move) :
  is_marker p →
  ∀ s s', no_panic schedule → marker_held p s →
          Sup.exec len_files threads schedule s = Some s' → marker_held p s'.
Proof.
  intros Hp. induction schedule as [|m ms IH]; intros s s' Hms Hs Hrun;
    simpl in Hrun.
  - injection Hrun as <-. exact Hs.
  - apply Forall_cons in Hms as [Hm Hms].
    destruct (Sup.exec1 len_files threads m s) as [s1|] eqn:Hstep; [|discriminate].
    exact (IH s1 s' Hms (sup_exec1_marker p _ _ m s s1 Hp Hm Hs Hstep) Hrun).
Qed.

Lemma output_sound_step (p : path) (d d' : gmap path entry) :
  d' !! p = None ∨ d' !! p = d !! p → output_sound p d → output_sound p d'.
Proof.
  unfold output_sound. intros [H|H] Hd; [left; exact H|]. rewrite H. exact Hd.
Qed.

Lemma sup_exec1_output (p : path) (len_files threads : Z) (m : Sup.Move)
    (s s' : Sup.Sched) :
  is_output p →
  output_sound p (disk (Sup.world s)) →
  Sup.exec1 len_files threads m s = Some s' →
  output_sound p (disk (Sup.world s')).
Proof.
  intros Hp Hs Hstep.
  destruct m as [| | |i|i|i]; simpl in Hstep.
  - injection Hstep as <-. exact Hs.
  - destruct (Sup.sending s); [discriminate|].
    destruct (Sup.queue s); [discriminate|]. injection Hstep as <-. exact Hs.
  - destruct (Sup.sending s); [|discriminate].
    destruct (decide _); [|discriminate]. injection Hstep as <-. exact Hs.
  - destruct (Sup.running s !! i) as [[job|job started]|] eqn:Hi; try discriminate.
    set (out := output_path "converted" ".mkv" (Sup.file job)).
    assert (Hframe := supervised_launch_frame (Sup.file job) threads (Sup.env job)
                        (Sup.world s) p).
    assert (Hout := supervised_launch_output (Sup.file job) threads (Sup.env job)
                      (Sup.world s)).
    cbv zeta in Hout. fold out in Hout.
    assert (Hown : p ≠ out → ¬ owned (Sup.file job) p).
    { intros Hne Ho. apply Hne. apply output_owner; assumption. }
    assert (Hstep' : ∀ w', (disk w' !! out = None ∨ disk w' !! out
                                                     = disk (Sup.world s) !! out) →
                           (¬ owned (Sup.file job) p →
                            disk w' !! p = disk (Sup.world s) !! p) →
                           output_sound p (disk w')).
    { intros w' Ho Hf. apply (output_sound_step p (disk (Sup.world s))); [|exact Hs].
      destruct (decide (p = out)) as [->|Hne]; [exact Ho|].
      right. exact (Hf (Hown Hne)). }
    destruct (Sup.launch _ _ _ _) as [result w' evs|w' started].
    + rewrite (sup_leave_world _ _ _ _ _ Hstep). exact (Hstep' w' Hout Hframe).
    + injection Hstep as <-. exact (Hstep' w' Hout Hframe).
  - destruct (Sup.running s !! i) as [[job|job started]|] eqn:Hi; try discriminate.
    set (out := output_path "converted" ".mkv" (Sup.file job)).
    assert (Hframe := supervised_settle_frame (Sup.file job) (Sup.env job)
                        (Sup.world s) started p).
    assert (Hout := supervised_settle_output (Sup.file job) (Sup.env job)
                      (Sup.world s) started).
    cbv zeta in Hout. fold out in Hout.
    assert (Hown : p ≠ out → ¬ owned (Sup.file job) p).
    { intros Hne Ho. apply Hne. apply output_owner; assumption. }
    destruct (Sup.settle _ _ _ _) as [[result w'] evs].
    unfold after in Hframe, Hout. simpl in Hframe, Hout.
    rewrite (sup_leave_world _ _ _ _ _ Hstep).
    destruct (decide (p = out)) as [->|Hne].
    + apply Hout. destruct Hs as [Hs|(size & Hs & _)]; rewrite Hs; discriminate.
    + apply (output_sound_step p (disk (Sup.world s))); [|exact Hs].
      right. exact (Hframe (Hown Hne)).
  - destruct (Sup.running s !! i); [|discriminate].
    rewrite (sup_leave_world _ _ _ _ _ Hstep). exact Hs.
Qed.

Lemma sup_exec_output (p : path) (len_files threads : Z) (schedule : list Sup.Move) :
  is_output p →
  ∀ s s', output_sound p (disk (Sup.world s)) →
          Sup.exec len_files threads schedule s = Some s' →
          output_sound p (disk (Sup.world s')).
Proof.
  intros Hp. induction schedule as [|m ms IH]; intros s s' Hs Hrun; simpl in Hrun.
  - injection Hrun as <-. exact Hs.
  - destruct (Sup.exec1 len_files threads m s) as [s1|] eqn:Hstep; [|discriminate].
    exact (IH s1 s' (sup_exec1_output p _ _ m s s1 Hp Hs Hstep) Hrun).
Qed.

End Leftovers.

(** X20.  A run of the supervised worker pool that comes to its end
    without a panic leaves no debris, whatever the schedule and the
    signals, and also when several tasks race for one output path: a marker
    path that was free at the start is free at the end, and an output path
    that was free at the start is free or holds a file that is not empty.
    While the run lasts, a marker on the disk is that of a task at its
    [select]. *)
Theorem completed_run_leaves_no_debris
    (jobs : list Sup.Job) (threads : Z) (w : Common.World)
    (schedule : list Sup.Move) (s : Sup.Sched) (p : FilePath.path) :
  Runs.no_panic schedule →
  Sup.processFiles jobs threads w schedule = Some s →
  Common.disk w !! p = None →
  (Runs.is_marker p →
   Runs.marker_held p s
   ∧ (Sup.drained s = true → Common.disk (Sup.world s) !! p = None))
  ∧ (Runs.is_output p →
     Sup.drained s = true → Runs.output_sound p (Common.disk (Sup.world s))).
Proof.
  intros Hquiet Hrun Hfree. split.
  - intros Hp.
    assert (H : Runs.marker_held p s).
    { apply (sup_exec_marker p (Z.of_nat (length jobs)) threads schedule Hp
               (Sup.start jobs w) s Hquiet); [|exact Hrun].
      left. exact Hfree. }
    split; [exact H|]. intros Hd. unfold Sup.drained in Hd.
    destruct H as [H|[_ Hbusy]]; [exact H|].
    destruct (Sup.queue s); [|discriminate]. destruct (Sup.sending s); [discriminate|].
    destruct (Sup.running s); [|discriminate]. inversion Hbusy.
  - intros Hp _.
    apply (sup_exec_output p (Z.of_nat (length jobs)) threads schedule Hp
             (Sup.start jobs w) s); [|exact Hrun].
    left. exact Hfree.
Qed.

Lemma completed_run_leaves_no_debris_witness :
  let schedule := [Sup.Select; Sup.Acquire; Sup.Launch 0; Sup.Settle 0] in
  let marker := ["videos"; "converted"; "a.mkv.incomplete"] in
  ∃ s, Sup.processFiles [Sample.task "a.mov" 101 (Common.CancelFirst true)] 2
         Sample.shelf schedule = Some s
       ∧ Runs.no_panic schedule
       ∧ Common.disk Sample.shelf !! marker = None
       ∧ Common.disk (Sup.world s) !! marker = None.
Proof.
  intros schedule marker.
  destruct (Sup.processFiles [Sample.task "a.mov" 101 (Common.CancelFirst true)] 2
              Sample.shelf schedule) as [s|] eqn:Hrun;
    [|vm_compute in Hrun; discriminate Hrun].
  exists s. split; [reflexivity|].
  assert (Hquiet : Runs.no_panic schedule) by (repeat constructor).
  assert (Hfree : Common.disk Sample.shelf !! marker = None) by reflexivity.
  split; [exact Hquiet|]. split; [exact Hfree|].
  destruct (completed_run_leaves_no_debris _ _ _ _ s marker Hquiet Hrun Hfree)
    as [Hmarker _].
  assert (Hp : Runs.is_marker marker).
  { exists (Sup.file (Sample.task "a.mov" 101 (Common.CancelFirst true))).
    reflexivity. }
  destruct (Hmarker Hp) as [_ Hend]. apply Hend.
  vm_compute in Hrun. injection Hrun as <-. reflexivity.
Defined.
